(** * Reliability layer of the relay client: Publisher, JsonRpcHistory, Expirer

    A shallow embedding of [packages/core/src/controllers/{publisher,history,
    expirer}.ts].  Every controller is a record holding the fields of the
    class; a method is a function from the controller to the controller
    it leaves behind, together with what it returns or throws.  Whatever a
    method does to the outside world (a logger call, an emitted event, a
    call to the storage or to the relay provider) is appended to the
    [effects] field, oldest first, so that the order of the side effects
    of a method is part of its result.

    An [await] on a collaborator (storage read, provider request, the init
    event) splits a method in two functions: the part that runs up to the
    [await], and the part that runs once the awaited promise has settled,
    which receives the controller as it is at that later moment.  The
    same is done where a method checks the index and then awaits before it
    acts on what it saw ([exists] of the history, [del] of the expirer).
    A method runs from one such [await] to the next without another method
    of the same controller running in between, and the function that bears
    the name of the method is its parts run one after the other, for a
    call during which nothing else runs.

    What the controllers import from [../constants] and from the utility
    packages is not part of these files; it is a [Variable] of the section
    of the controller that uses it. *)

From Stdlib Require Import ZArith Lia.
From stdpp Require Import base decidable option list strings gmap.

Open Scope string_scope.
Open Scope list_scope.
Open Scope Z_scope.

(** ** JavaScript values *)

(** A JavaScript [number], restricted to the integers and [NaN]. *)
Inductive number :=
| Int (z : Z)
| NaN.

#[local] Set Warnings "-register-all".

Inductive JsValue :=
| VUndefined
| VNull
| VBool (b : bool)
| VNum (n : number)
| VStr (s : string)
| VArr (items : list JsValue)
| VObj (fields : list (string * JsValue)).

Definition number_truthy (n : number) : bool :=
  match n with
  | Int z => negb (Z.eqb z 0)
  | NaN => false
  end.

Definition truthy (v : JsValue) : bool :=
  match v with
  | VUndefined | VNull => false
  | VBool b => b
  | VNum n => number_truthy n
  | VStr s => negb (String.eqb s "")
  | VArr _ | VObj _ => true
  end.

(** [x || d] where [x] may be [undefined] ([None]). *)
Definition or_else {A} (is_truthy : A -> bool) (x : option A) (d : A) : A :=
  match x with
  | Some v => if is_truthy v then v else d
  | None => d
  end.

(** ** Errors *)

(** The entries of the [ERROR] table of [@walletconnect/utils] that the
    controllers use. *)
Inductive ErrorKind :=
| NOT_INITIALIZED
| NO_MATCHING_ID
| MISMATCHED_TOPIC
| RESTORE_WILL_OVERRIDE.

(** A thrown value: either [new Error(ERROR.K.format(params).message)],
    kept as the kind and the parameters it was formatted with, or whatever
    a collaborator (provider, storage, protocol table) threw or rejected
    with. *)
Inductive Error :=
| ERROR (kind : ErrorKind) (params : list (string * JsValue))
| External (reason : JsValue).

(** How a promise of a collaborator settles. *)
Inductive Settled (A : Type) :=
| Fulfilled (value : A)
| Rejected (reason : Error).
Arguments Fulfilled {A} value.
Arguments Rejected {A} reason.

(** ** Side effects *)

Inductive Level := Trace | Debug | Info | Err.

(** What is handed to the logger: a literal message, a caught error, or a
    structured entry [{type, method|event|direction, ...}] of which the
    first two fields are kept. *)
Inductive LogMsg :=
| Text (s : string)
| Caught (e : Error)
| Entry (type what : string).

Inductive Effect (Call Event : Type) :=
| Log (lvl : Level) (msg : LogMsg)
| Invoke (c : Call)
| Emit (ev : Event).
Arguments Log {Call Event} lvl msg.
Arguments Invoke {Call Event} c.
Arguments Emit {Call Event} ev.

Section Effects.
Context {Call Event : Type}.

(** The events emitted, in order. *)
Definition emitted (tr : list (Effect Call Event)) : list Event :=
  omap (fun x => match x with Emit ev => Some ev | _ => None end) tr.

(** The calls made to the collaborator, in order. *)
Definition invoked (tr : list (Effect Call Event)) : list Call :=
  omap (fun x => match x with Invoke c => Some c | _ => None end) tr.

(** What was logged at a given level, in order. *)
Definition logged (lvl : Level) (tr : list (Effect Call Event)) : list LogMsg :=
  omap (fun x => match x with
                 | Log l m => match l, lvl with
                              | Trace, Trace | Debug, Debug
                              | Info, Info | Err, Err => Some m
                              | _, _ => None
                              end
                 | _ => None
                 end) tr.
End Effects.

(** ** The JavaScript [Map]

    A [Map] iterates in insertion order, and [set] on a key already present
    keeps the key where it is.  It is an association list; the lists the
    controllers build have no key twice ([wf]). *)
Module JsMap.
Definition t (K V : Type) := list (K * V).

Section Ops.
Context {K V : Type} `{EqDecision K}.

Definition empty : t K V := [].

Fixpoint get (k : K) (m : t K V) : option V :=
  match m with
  | [] => None
  | (k', v) :: m' => if decide (k = k') then Some v else get k m'
  end.

Definition has (k : K) (m : t K V) : bool :=
  match get k m with Some _ => true | None => false end.

Fixpoint set (k : K) (v : V) (m : t K V) : t K V :=
  match m with
  | [] => [(k, v)]
  | (k', v') :: m' =>
      if decide (k = k') then (k, v) :: m' else (k', v') :: set k v m'
  end.

Fixpoint delete (k : K) (m : t K V) : t K V :=
  match m with
  | [] => []
  | (k', v') :: m' =>
      if decide (k = k') then delete k m' else (k', v') :: delete k m'
  end.

Definition size (m : t K V) : nat := length m.
Definition keys (m : t K V) : list K := fst <$> m.
Definition values (m : t K V) : list V := snd <$> m.

(** [m.forEach((value, key) => f)] for a callback that removes at most
    the entry it is visiting: the entries visited are those of [m]. *)
Definition forEach {S : Type} (f : V -> K -> S -> S) (m : t K V) (s : S) : S :=
  fold_left (fun acc kv => f kv.2 kv.1 acc) m s.

Definition wf (m : t K V) : Prop := NoDup (keys m).
End Ops.
End JsMap.

(** ** Publisher ([controllers/publisher.ts]) *)
Module Publisher.

(** [RelayerTypes.ProtocolOptions] *)
Record ProtocolOptions := {
  protocol : string;
  data : option string;
}.

(** [RelayerTypes.PublishOptions]: what the caller may pass as [opts];
    every field is optional. *)
Record PublishOptions := {
  relay : option ProtocolOptions;
  ttl : option number;
  prompt : option bool;
}.

(** [PublisherTypes.Params], the value kept in the queue. *)
Record Opts := {
  opts_ttl : number;
  opts_relay : ProtocolOptions;
  opts_prompt : bool;
}.

Record Params := {
  topic : string;
  message : string;
  opts : Opts;
}.

(** [RelayJsonRpc.Methods], the result of [getRelayProtocolApi]. *)
Module RelayJsonRpc.
Record Methods := {
  publish : string;
  subscribe : string;
  subscription : string;
  unsubscribe : string;
}.
End RelayJsonRpc.

(** [RequestArguments<RelayJsonRpc.PublishParams>]; [params] is the
    object literal handed to the provider, a field that was deleted is
    absent from the map. *)
Record RequestArguments := {
  method : string;
  params : gmap string JsValue;
}.

Record Publisher := {
  queue : JsMap.t string Params;
  effects : list (Effect RequestArguments Empty_set);
}.

(** [new Publisher(relayer, logger)] *)
Definition create : Publisher := {| queue := JsMap.empty; effects := [] |}.

Definition log (lvl : Level) (msg : LogMsg) (p : Publisher) : Publisher :=
  {| queue := queue p; effects := effects p ++ [Log lvl msg] |}.

Definition set_queue (q : JsMap.t string Params) (p : Publisher) : Publisher :=
  {| queue := q; effects := effects p |}.

(** A call of [rpcPublish] whose promise has not settled yet, with what
    the code that waits for it still holds: the fingerprint and the
    queued parameters. *)
Record Pending := {
  request : RequestArguments;
  hash : string;
  queued : Params;
}.

Section Controller.
(** [../constants] and [@walletconnect/utils]. *)
Variable PUBLISHER_DEFAULT_TTL : number.
Variable hashMessage : string -> string.
Variable getRelayProtocolName : option PublishOptions -> ProtocolOptions.
(** throws for a protocol that is not in the table *)
Variable getRelayProtocolApi : string -> Error + RelayJsonRpc.Methods.

(** [rpcPublish]: builds the request and hands it to
    [relayer.provider.request]; the result stands for the promise
    returned. *)
Definition rpcPublish (topic message : string) (ttl : number)
    (relay : ProtocolOptions) (prompt : option bool) (p : Publisher)
    : Publisher * (Error + RequestArguments) :=
  match getRelayProtocolApi (protocol relay) with
  | inl e => (p, inl e)
  | inr api =>
      let params : gmap string JsValue :=
        <["prompt" := from_option VBool VUndefined prompt]>
          (<["ttl" := VNum ttl]>
             (<["message" := VStr message]>
                {["topic" := VStr topic]})) in
      let params :=
        match params !! "prompt" with
        | Some VUndefined | None => delete "prompt" params
        | Some _ => params
        end in
      let request :=
        {| method := RelayJsonRpc.publish api; params := params |} in
      let p := log Debug (Text "Outgoing Relay Payload") p in
      let p := log Trace (Entry "message" "outgoing") p in
      ({| queue := queue p; effects := effects p ++ [Invoke request] |},
       inr request)
  end.

Definition onPublish (hash : string) (_params : Params) (p : Publisher)
    : Publisher :=
  set_queue (JsMap.delete hash (queue p)) p.

(** The [catch] block of [publish]; the caller rethrows [e]. *)
Definition publish_catch (e : Error) (p : Publisher) : Publisher :=
  let p := log Debug (Text "Failed to Publish Payload") p in
  log Err (Caught e) p.

(** [publish], up to [await this.rpcPublish(...)]. *)
Definition publish_begin (topic message : string)
    (opts : option PublishOptions) (p : Publisher)
    : Publisher * (Error + Pending) :=
  let p := log Debug (Text "Publishing Payload") p in
  let p := log Trace (Entry "method" "publish") p in
  let ttl := or_else number_truthy (opts ≫= ttl) PUBLISHER_DEFAULT_TTL in
  let relay := getRelayProtocolName opts in
  let prompt := or_else id (opts ≫= prompt) false in
  let params :=
    {| topic := topic; message := message;
       opts := {| opts_ttl := ttl; opts_relay := relay;
                  opts_prompt := prompt |} |} in
  let hash := hashMessage message in
  let p := set_queue (JsMap.set hash params (queue p)) p in
  match rpcPublish topic message ttl relay (Some prompt) p with
  | (p, inl e) => (publish_catch e p, inl e)
  | (p, inr request) =>
      (p, inr {| request := request; hash := hash; queued := params |})
  end.

(** [publish], from the moment the promise of [rpcPublish] settles;
    [p] is the publisher as it is by then. *)
Definition publish_settle (pd : Pending) (o : Settled JsValue)
    (p : Publisher) : Publisher * (Error + unit) :=
  match o with
  | Fulfilled _ =>
      let p := onPublish (hash pd) (queued pd) p in
      let p := log Debug (Text "Successfully Published Payload") p in
      let p := log Trace (Entry "method" "publish") p in
      (p, inr tt)
  | Rejected e => (publish_catch e p, inl e)
  end.

(** [publish] when nothing else runs while the request is in flight and
    the provider settles the request as [provider] says. *)
Definition publish (provider : RequestArguments -> Settled JsValue)
    (topic message : string) (opts : option PublishOptions)
    (p : Publisher) : Publisher * (Error + unit) :=
  match publish_begin topic message opts p with
  | (p, inl e) => (p, inl e)
  | (p, inr pd) => publish_settle pd (provider (request pd)) p
  end.

(** The callback of [checkQueue], up to its [await]: what one queued
    entry is resubmitted as. *)
Definition resubmit (params : Params) (p : Publisher)
    : Publisher * (Error + Pending) :=
  let hash := hashMessage (message params) in
  match rpcPublish (topic params) (message params)
          (opts_ttl (opts params)) (opts_relay (opts params)) None p with
  | (p, inl e) => (p, inl e)
  | (p, inr request) =>
      (p, inr {| request := request; hash := hash; queued := params |})
  end.

(** [checkQueue]: every entry of the queue is resubmitted, in the order
    of the queue; the callbacks are left waiting for their requests. *)
Definition checkQueue (p : Publisher)
    : Publisher * list (Error + Pending) :=
  JsMap.forEach
    (fun params _ acc =>
       let '(p, r) := resubmit params acc.1 in (p, acc.2 ++ [r]))
    (queue p) (p, []).

(** The callback of [checkQueue] once its request has settled; a
    rejection is handled by nobody. *)
Definition resubmit_settle (pd : Pending) (o : Settled JsValue)
    (p : Publisher) : Publisher :=
  match o with
  | Fulfilled _ => onPublish (hash pd) (queued pd) p
  | Rejected _ => p
  end.

(** The queue entry and the request that [publish] makes of its
    arguments. *)
Definition entry_of (topic message : string) (opts : option PublishOptions)
    : Params :=
  {| topic := topic; message := message;
     opts := {| opts_ttl := or_else number_truthy (opts ≫= ttl)
                              PUBLISHER_DEFAULT_TTL;
                opts_relay := getRelayProtocolName opts;
                opts_prompt := or_else id (opts ≫= prompt) false |} |}.

(** A heartbeat pulse ([registerEventListeners]) and what follows it when
    nothing else runs in between: [checkQueue] sends the requests, then
    each of them settles as [provider] says, in the order in which they
    were sent. *)
Definition pulse (provider : RequestArguments -> Settled JsValue)
    (p : Publisher) : Publisher :=
  let '(p, sent) := checkQueue p in
  fold_left
    (fun p r =>
       match r with
       | inl _ => p
       | inr pd => resubmit_settle pd (provider (request pd)) p
       end)
    sent p.

(** The publishers the controller can be in: the new one, and from there on
    whatever [publish] and [checkQueue] make of one, each in its two
    parts; a part that runs after an [await] belongs to a call that was
    started before. *)
Inductive Reachable : Publisher -> Prop :=
| reach_create : Reachable create
| reach_publish_begin topic message opts p :
    Reachable p -> Reachable (publish_begin topic message opts p).1
| reach_publish_settle topic message opts p0 pd o p :
    Reachable p0 ->
    (publish_begin topic message opts p0).2 = inr pd ->
    Reachable p ->
    Reachable (publish_settle pd o p).1
| reach_checkQueue p : Reachable p -> Reachable (checkQueue p).1
| reach_resubmit_settle p0 pd o p :
    Reachable p0 ->
    inr pd ∈ (checkQueue p0).2 ->
    Reachable p ->
    Reachable (resubmit_settle pd o p).
End Controller.
End Publisher.

(** ** JsonRpcHistory ([controllers/history.ts]) *)
Module History.

(** [ErrorResponse] of [@walletconnect/jsonrpc-types]. *)
Record ErrorResponse := {
  code : Z;
  error_message : string;
  error_data : option string;
}.

(** [JsonRpcRequest]: what [set] receives and what
    [formatJsonRpcRequest] builds.  Absent [params] are [VUndefined]. *)
Record JsonRpcRequest := {
  req_id : Z;
  jsonrpc : string;
  req_method : string;
  req_params : JsValue;
}.

(** [JsonRpcResponse = JsonRpcResult | JsonRpcError], what [resolve]
    receives. *)
Inductive JsonRpcResponse :=
| JsonRpcResult (id : Z) (result : JsValue)
| JsonRpcError (id : Z) (error : ErrorResponse).

Definition response_id (r : JsonRpcResponse) : Z :=
  match r with JsonRpcResult id _ | JsonRpcError id _ => id end.

(** [isJsonRpcError]: the payload has an [error] field. *)
Definition isJsonRpcError (r : JsonRpcResponse) : bool :=
  match r with JsonRpcError _ _ => true | JsonRpcResult _ _ => false end.

(** [JsonRpcRecord] *)
Record RequestArguments := {
  method : string;
  params : JsValue;
}.

(** [{ result } | { error }] *)
Inductive Response :=
| result_of (result : JsValue)
| error_of (error : ErrorResponse).

Record JsonRpcRecord := {
  id : Z;
  topic : string;
  request : RequestArguments;
  chainId : option string;
  response : option Response;
}.

(** [RequestEvent] *)
Record RequestEvent := {
  event_topic : string;
  event_request : JsonRpcRequest;
  event_chainId : option string;
}.

(** The keys of [HISTORY_EVENTS]. *)
Module EVENTS.
Inductive name := created | updated | deleted | sync | init.
End EVENTS.

(** [events.emit(name, payload)] *)
Record Event := {
  event_name : EVENTS.name;
  event_record : option JsonRpcRecord;
}.

(** [core.storage] *)
Inductive StorageCall :=
| getItem (key : string)
| setItem (key : string) (value : list JsonRpcRecord).

(** A call of a public method, kept while it waits for the init event. *)
Inductive Call :=
| call_set (topic : string) (request : JsonRpcRequest) (chainId : option string)
| call_resolve (response : JsonRpcResponse)
| call_get (topic : string) (id : Z)
| call_delete (topic : string) (id : option Z)
| call_exists (topic : string) (id : Z).

(** What a public method returns. *)
Inductive Returned :=
| void
| a_record (record : JsonRpcRecord)
| a_boolean (b : bool).

Record JsonRpcHistory := {
  records : JsMap.t Z JsonRpcRecord;
  cached : list JsonRpcRecord;
  (** the [once(init)] listeners left by [isInitialized], oldest first *)
  waiting : list Call;
  effects : list (Effect StorageCall Event);
}.

(** [new JsonRpcHistory(core, logger)] *)
Definition create : JsonRpcHistory :=
  {| records := JsMap.empty; cached := []; waiting := []; effects := [] |}.

Definition set_records (m : JsMap.t Z JsonRpcRecord) (h : JsonRpcHistory) :=
  {| records := m; cached := cached h; waiting := waiting h;
     effects := effects h |}.

Definition set_cached (l : list JsonRpcRecord) (h : JsonRpcHistory) :=
  {| records := records h; cached := l; waiting := waiting h;
     effects := effects h |}.

Definition set_waiting (l : list Call) (h : JsonRpcHistory) :=
  {| records := records h; cached := cached h; waiting := l;
     effects := effects h |}.

Definition effect (x : Effect StorageCall Event) (h : JsonRpcHistory) :=
  {| records := records h; cached := cached h; waiting := waiting h;
     effects := effects h ++ [x] |}.

Definition log (lvl : Level) (msg : LogMsg) := effect (Log lvl msg).

Section Controller.
(** [../constants] and [@walletconnect/jsonrpc-utils]. *)
Variable HISTORY_CONTEXT : string.
Variable HISTORY_STORAGE_VERSION : string.
Variable CLIENT_STORAGE_PREFIX : string.
Variable HISTORY_EVENTS : EVENTS.name -> string.
Variable formatJsonRpcRequest : string -> JsValue -> Z -> JsonRpcRequest.

Definition name : string := HISTORY_CONTEXT.
Definition version : string := HISTORY_STORAGE_VERSION.
Definition storagePrefix : string := CLIENT_STORAGE_PREFIX.

Definition storageKey : string :=
  storagePrefix +:+ version +:+ "//" +:+ name.

Definition size (h : JsonRpcHistory) : nat := JsMap.size (records h).
Definition keys (h : JsonRpcHistory) : list Z := JsMap.keys (records h).
Definition values (h : JsonRpcHistory) : list JsonRpcRecord :=
  JsMap.values (records h).

(** [get pending] *)
Definition pending (h : JsonRpcHistory) : list RequestEvent :=
  fold_left
    (fun requests record =>
       match response record with
       | Some _ => requests
       | None =>
           let requestEvent :=
             {| event_topic := topic record;
                event_request :=
                  formatJsonRpcRequest (method (request record))
                    (params (request record)) (id record);
                event_chainId := chainId record |} in
           requests ++ [requestEvent]
       end)
    (values h) [].

(** [persist], up to [await this.setJsonRpcRecords(this.values)]. *)
Definition persist (h : JsonRpcHistory) : JsonRpcHistory :=
  effect (Invoke (setItem storageKey (values h))) h.

(** [events.emit]: the listeners of [registerEventListeners] run at
    once.  The [once(init)] listeners are run by [onInit]. *)
Definition emit (n : EVENTS.name) (record : option JsonRpcRecord)
    (h : JsonRpcHistory) : JsonRpcHistory :=
  let h := effect (Emit {| event_name := n; event_record := record |}) h in
  match n with
  | EVENTS.created | EVENTS.updated | EVENTS.deleted =>
      let eventName := HISTORY_EVENTS n in
      let h := log Info (Text ("Emitting " +:+ eventName)) h in
      let h := log Debug (Entry "event" eventName) h in
      persist h
  | EVENTS.sync | EVENTS.init => h
  end.

(** [persist], once the storage has written. *)
Definition persist_done (h : JsonRpcHistory) : JsonRpcHistory :=
  emit EVENTS.sync None h.

(** [isInitialized]: [true] when the promise it returns is already
    resolved, [false] when it resolves with the init event. *)
Definition isInitialized (h : JsonRpcHistory) : bool :=
  bool_decide (length (cached h) = 0%nat).

(** [getRecord], past its own [isInitialized]. *)
Definition getRecord (id : Z) (h : JsonRpcHistory) : Error + JsonRpcRecord :=
  match JsMap.get id (records h) with
  | None =>
      inl (ERROR NO_MATCHING_ID
             [("context", VStr name); ("id", VNum (Int id))])
  | Some record => inr record
  end.

(** The public methods past [await this.isInitialized()]. *)
Definition set_ready (topic : string) (request : JsonRpcRequest)
    (chainId : option string) (h : JsonRpcHistory)
    : JsonRpcHistory * (Error + Returned) :=
  let h := log Debug (Text "Setting JSON-RPC request history record") h in
  let h := log Trace (Entry "method" "set") h in
  if JsMap.has (req_id request) (records h) then (h, inr void)
  else
    let record :=
      {| id := req_id request;
         topic := topic;
         request :=
           {| method := req_method request;
              params := if truthy (req_params request)
                        then req_params request else VNull |};
         chainId := chainId;
         response := None |} in
    let h := set_records (JsMap.set (id record) record (records h)) h in
    (emit EVENTS.created (Some record) h, inr void).

Definition resolve_ready (response : JsonRpcResponse) (h : JsonRpcHistory)
    : JsonRpcHistory * (Error + Returned) :=
  let h := log Debug (Text "Updating JSON-RPC response history record") h in
  let h := log Trace (Entry "method" "update") h in
  if negb (JsMap.has (response_id response) (records h)) then (h, inr void)
  else
    match getRecord (response_id response) h with
    | inl e => (h, inl e)
    | inr record =>
        match History.response record with
        | Some _ => (h, inr void)
        | None =>
            (* [record.response = ...] writes to the object that the
               map holds under [response.id] *)
            let record :=
              {| id := id record; topic := topic record;
                 request := request record; chainId := chainId record;
                 response :=
                   Some (match response with
                         | JsonRpcError _ error => error_of error
                         | JsonRpcResult _ result => result_of result
                         end) |} in
            let m := JsMap.set (response_id response) record (records h) in
            let h := set_records (JsMap.set (id record) record m) h in
            (emit EVENTS.updated (Some record) h, inr void)
        end
    end.

Definition get_ready (topic : string) (id : Z) (h : JsonRpcHistory)
    : JsonRpcHistory * (Error + Returned) :=
  let h := log Debug (Text "Getting record") h in
  let h := log Trace (Entry "method" "get") h in
  match getRecord id h with
  | inl e => (h, inl e)
  | inr record =>
      if bool_decide (History.topic record ≠ topic)
      then (h, inl (ERROR MISMATCHED_TOPIC
                      [("context", VStr name); ("id", VNum (Int id))]))
      else (h, inr (a_record record))
  end.

Definition delete_ready (topic : string) (id : option Z) (h : JsonRpcHistory)
    : JsonRpcHistory * (Error + Returned) :=
  let h := log Debug (Text "Deleting record") h in
  let h := log Trace (Entry "method" "delete") h in
  let h :=
    fold_left
      (fun h record =>
         if bool_decide (History.topic record = topic) then
           match id with
           | Some id' =>
               if bool_decide (History.id record ≠ id') then h
               else
                 let h := set_records
                            (JsMap.delete (History.id record) (records h)) h in
                 emit EVENTS.deleted (Some record) h
           | None =>
               let h := set_records
                          (JsMap.delete (History.id record) (records h)) h in
               emit EVENTS.deleted (Some record) h
           end
         else h)
      (values h) h in
  (h, inr void).

(** [exists], past [await this.isInitialized()] and up to
    [await this.getRecord(id)]: the answer where the index does not have
    the id, and none yet where it has. *)
Definition exists_check (id : Z) (h : JsonRpcHistory) : option Returned :=
  if negb (JsMap.has id (records h)) then Some (a_boolean false) else None.

(** [exists], from the moment [getRecord] looks the id up, on the history
    as it is by then. *)
Definition exists_lookup (topic : string) (id : Z) (h : JsonRpcHistory)
    : Error + Returned :=
  match getRecord id h with
  | inl e => inl e
  | inr record =>
      inr (a_boolean (bool_decide (History.topic record = topic)))
  end.

(** [exists] when nothing else runs at its [await this.getRecord(id)]. *)
Definition exists_ready (topic : string) (id : Z) (h : JsonRpcHistory)
    : JsonRpcHistory * (Error + Returned) :=
  match exists_check id h with
  | Some answer => (h, inr answer)
  | None => (h, exists_lookup topic id h)
  end.

Definition run (c : Call) (h : JsonRpcHistory)
    : JsonRpcHistory * (Error + Returned) :=
  match c with
  | call_set topic request chainId => set_ready topic request chainId h
  | call_resolve response => resolve_ready response h
  | call_get topic id => get_ready topic id h
  | call_delete topic id => delete_ready topic id h
  | call_exists topic id => exists_ready topic id h
  end.

(** A public method: [await this.isInitialized()], then the rest.
    [None] stands for a promise that is still pending. *)
Definition call (c : Call) (h : JsonRpcHistory)
    : JsonRpcHistory * option (Error + Returned) :=
  if isInitialized h then
    let '(h, r) := run c h in (h, Some r)
  else (set_waiting (waiting h ++ [c]) h, None).

Definition set (topic : string) (request : JsonRpcRequest)
    (chainId : option string) := call (call_set topic request chainId).
Definition resolve (response : JsonRpcResponse) :=
  call (call_resolve response).
Definition get (topic : string) (id : Z) := call (call_get topic id).
Definition delete (topic : string) (id : option Z) :=
  call (call_delete topic id).
Definition exists_ (topic : string) (id : Z) := call (call_exists topic id).

(** [init], up to [await this.getJsonRpcRecords()] in [restore]. *)
Definition init_begin (h : JsonRpcHistory) : JsonRpcHistory :=
  let h := log Trace (Text "Initialized") h in
  effect (Invoke (getItem storageKey)) h.

(** The [catch] block of [restore]. *)
Definition restore_catch (e : Error) (h : JsonRpcHistory) : JsonRpcHistory :=
  let h := log Debug (Text ("Failed to Restore records for " +:+ name)) h in
  log Err (Caught e) h.

(** [restore], from the moment the storage has answered. *)
Definition restore (persisted : Settled (option (list JsonRpcRecord)))
    (h : JsonRpcHistory) : JsonRpcHistory :=
  match persisted with
  | Rejected e => restore_catch e h
  | Fulfilled None => h
  | Fulfilled (Some persisted) =>
      if bool_decide (length persisted = 0%nat) then h
      else if negb (bool_decide (size h = 0%nat)) then
        let error := ERROR RESTORE_WILL_OVERRIDE [("context", VStr name)] in
        let h := log Err (Caught error) h in
        restore_catch error h
      else
        let h := set_cached persisted h in
        let h := log Debug
                   (Text ("Successfully Restored records for " +:+ name)) h in
        log Trace (Entry "method" "restore") h
  end.

Definition reset (h : JsonRpcHistory) : JsonRpcHistory :=
  fold_left
    (fun h record =>
       set_records (JsMap.set (id record) record (records h)) h)
    (cached h) h.

(** [onInit]; the calls that waited for the init event run in the order
    in which they were made, and what they return goes to their
    callers. *)
Definition onInit (h : JsonRpcHistory)
    : JsonRpcHistory * list (Call * (Error + Returned)) :=
  let h := set_cached [] h in
  let h := emit EVENTS.init None h in
  let released := waiting h in
  let h := set_waiting [] h in
  fold_left
    (fun acc c => let '(h, r) := run c acc.1 in (h, acc.2 ++ [(c, r)]))
    released (h, []).

(** [initialize], from the moment [restore] has returned. *)
Definition initialize_resume (h : JsonRpcHistory) := onInit (reset h).

(** [init] when nothing else runs while the storage is read. *)
Definition init (persisted : Settled (option (list JsonRpcRecord)))
    (h : JsonRpcHistory) :=
  initialize_resume (restore persisted (init_begin h)).

(** The histories the controller can be in: the new one, and from there on
    whatever a public call, a stage of [init] or the end of a storage
    write makes of one. *)
Inductive Reachable : JsonRpcHistory -> Prop :=
| reach_create : Reachable create
| reach_call c h : Reachable h -> Reachable (call c h).1
| reach_init_begin h : Reachable h -> Reachable (init_begin h)
| reach_restore persisted h : Reachable h -> Reachable (restore persisted h)
| reach_initialize_resume h :
    Reachable h -> Reachable (initialize_resume h).1
| reach_persist_done h : Reachable h -> Reachable (persist_done h).

(** The body of the loop of [delete], for one record of the index. *)
Definition delete_step (topic : string) (id : option Z)
    (h : JsonRpcHistory) (record : JsonRpcRecord) : JsonRpcHistory :=
  if bool_decide (History.topic record = topic) then
    match id with
    | Some id' =>
        if bool_decide (History.id record ≠ id') then h
        else
          let h := set_records
                     (JsMap.delete (History.id record) (records h)) h in
          emit EVENTS.deleted (Some record) h
    | None =>
        let h := set_records
                   (JsMap.delete (History.id record) (records h)) h in
        emit EVENTS.deleted (Some record) h
    end
  else h.

(** Whether [delete(topic, id)] takes a record: it is of that topic and,
    where an id is given, has that id. *)
Definition taken (topic : string) (id : option Z) (record : JsonRpcRecord)
    : bool :=
  bool_decide (History.topic record = topic)
  && match id with
     | Some id' => bool_decide (History.id record = id')
     | None => true
     end.
End Controller.
End History.

(** ** Expirer ([controllers/expirer.ts]) *)
Module Expirer.

(** [ExpirerTypes.Expiration] *)
Record Expiration := {
  topic : string;
  expiry : Z;
}.

(** The keys of [EXPIRER_EVENTS]. *)
Module EVENTS.
Inductive name := created | expired | deleted | sync.
End EVENTS.

(** [ExpirerTypes.Created], [Expired] and [Deleted] *)
Record Payload := {
  payload_topic : string;
  payload_expiration : Expiration;
}.

Record Event := {
  event_name : EVENTS.name;
  event_payload : option Payload;
}.

(** [core.storage] *)
Inductive StorageCall :=
| getItem (key : string)
| setItem (key : string) (value : list Expiration).

Record Expirer := {
  expirations : JsMap.t string Expiration;
  cached : list Expiration;
  initialized : bool;
  (** how many times [registerEventListeners] has run *)
  listeners : nat;
  effects : list (Effect StorageCall Event);
}.

(** [new Expirer(core, logger)] *)
Definition create : Expirer :=
  {| expirations := JsMap.empty; cached := []; initialized := false;
     listeners := 0; effects := [] |}.

Definition set_expirations (m : JsMap.t string Expiration) (e : Expirer) :=
  {| expirations := m; cached := cached e; initialized := initialized e;
     listeners := listeners e; effects := effects e |}.

Definition set_cached (l : list Expiration) (e : Expirer) :=
  {| expirations := expirations e; cached := l; initialized := initialized e;
     listeners := listeners e; effects := effects e |}.

Definition effect (x : Effect StorageCall Event) (e : Expirer) :=
  {| expirations := expirations e; cached := cached e;
     initialized := initialized e; listeners := listeners e;
     effects := effects e ++ [x] |}.

Definition log (lvl : Level) (msg : LogMsg) := effect (Log lvl msg).

Section Controller.
(** [../constants] and [@walletconnect/time]. *)
Variable EXPIRER_CONTEXT : string.
Variable EXPIRER_STORAGE_VERSION : string.
Variable SIGN_CLIENT_STORAGE_PREFIX : string.
Variable EXPIRER_EVENTS : EVENTS.name -> string.
Variable toMiliseconds : Z -> Z.

Definition name : string := EXPIRER_CONTEXT.
Definition version : string := EXPIRER_STORAGE_VERSION.
Definition storagePrefix : string := SIGN_CLIENT_STORAGE_PREFIX.

Definition storageKey : string :=
  storagePrefix +:+ version +:+ "//" +:+ name.

Definition length (e : Expirer) : nat := JsMap.size (expirations e).
Definition topics (e : Expirer) : list string := JsMap.keys (expirations e).
Definition values (e : Expirer) : list Expiration :=
  JsMap.values (expirations e).

(** [persist], up to [await this.setExpirations(this.values)]. *)
Definition persist (e : Expirer) : Expirer :=
  effect (Invoke (setItem storageKey (values e))) e.

(** One listener of [registerEventListeners] for a created, expired or
    deleted event. *)
Definition on_event (n : EVENTS.name) (e : Expirer) : Expirer :=
  let eventName := EXPIRER_EVENTS n in
  let e := log Info (Text ("Emitting " +:+ eventName)) e in
  let e := log Debug (Entry "event" eventName) e in
  persist e.

(** [events.emit]: the listeners run at once, one for every time
    [registerEventListeners] has run. *)
Definition emit (n : EVENTS.name) (payload : option Payload) (e : Expirer)
    : Expirer :=
  let e := effect (Emit {| event_name := n; event_payload := payload |}) e in
  match n with
  | EVENTS.created | EVENTS.expired | EVENTS.deleted =>
      Nat.iter (listeners e) (on_event n) e
  | EVENTS.sync => e
  end.

(** [persist], once the storage has written. *)
Definition persist_done (e : Expirer) : Expirer :=
  emit EVENTS.sync None e.

Definition isInitialized (e : Expirer) : Error + unit :=
  if negb (initialized e)
  then inl (ERROR NOT_INITIALIZED [("context", VStr name)])
  else inr tt.

Definition getExpiration (topic : string) (e : Expirer)
    : Error + Expiration :=
  match JsMap.get topic (expirations e) with
  | None =>
      inl (ERROR NO_MATCHING_ID
             [("context", VStr name); ("topic", VStr topic)])
  | Some expiration => inr expiration
  end.

Definition has (topic : string) (e : Expirer) : bool :=
  match getExpiration topic e with
  | inr _ => true
  | inl _ => false
  end.

Definition expire (topic : string) (expiration : Expiration) (e : Expirer)
    : Expirer :=
  let e := set_expirations (JsMap.delete topic (expirations e)) e in
  emit EVENTS.expired
    (Some {| payload_topic := topic; payload_expiration := expiration |}) e.

(** [checkExpiry]; [now] is [Date.now()]. *)
Definition checkExpiry (now : Z) (topic : string) (expiration : Expiration)
    (e : Expirer) : Expirer :=
  let msToTimeout := toMiliseconds (expiry expiration) - now in
  if bool_decide (msToTimeout <= 0) then expire topic expiration e else e.

(** [checkExpirations], the sweep of a heartbeat pulse; the clock does
    not move during the sweep. *)
Definition checkExpirations (now : Z) (e : Expirer) : Expirer :=
  JsMap.forEach
    (fun expiration topic e => checkExpiry now topic expiration e)
    (expirations e) e.

(** A heartbeat pulse: every registered listener sweeps. *)
Definition pulse (now : Z) (e : Expirer) : Expirer :=
  Nat.iter (listeners e) (checkExpirations now) e.

Definition set (now : Z) (topic : string) (expiration : Expiration)
    (e : Expirer) : Expirer * (Error + unit) :=
  match isInitialized e with
  | inl err => (e, inl err)
  | inr _ =>
      let e := set_expirations
                 (JsMap.set topic expiration (expirations e)) e in
      let e := checkExpiry now topic expiration e in
      (emit EVENTS.created
         (Some {| payload_topic := topic;
                  payload_expiration := expiration |}) e,
       inr tt)
  end.

Definition get (topic : string) (e : Expirer) : Error + Expiration :=
  match isInitialized e with
  | inl err => inl err
  | inr _ => getExpiration topic e
  end.

(** [del], up to [await this.has(topic)]: the guard, and what [has]
    answers at that moment. *)
Definition del_begin (topic : string) (e : Expirer) : Error + bool :=
  match isInitialized e with
  | inl err => inl err
  | inr _ => inr (has topic e)
  end.

(** [del], from the moment it goes on after the [await], on the expirer
    as it is by then; [found] is what [has] had answered. *)
Definition del_resume (found : bool) (topic : string) (e : Expirer)
    : Expirer * (Error + unit) :=
  if found then
    match getExpiration topic e with
    | inl err => (e, inl err)
    | inr expiration =>
        let e := set_expirations
                   (JsMap.delete topic (expirations e)) e in
        (emit EVENTS.deleted
           (Some {| payload_topic := topic;
                    payload_expiration := expiration |}) e,
         inr tt)
    end
  else (e, inr tt).

(** [del] when nothing else runs at its [await this.has(topic)]. *)
Definition del (topic : string) (e : Expirer) : Expirer * (Error + unit) :=
  match del_begin topic e with
  | inl err => (e, inl err)
  | inr found => del_resume found topic e
  end.

(** [init], up to [await this.getExpirations()] in [restore]; the
    boolean tells whether the guard [!this.initialized] let it in. *)
Definition init_begin (e : Expirer) : Expirer * bool :=
  if negb (initialized e) then
    let e := log Trace (Text "Initialized") e in
    (effect (Invoke (getItem storageKey)) e, true)
  else (e, false).

(** The [catch] block of [restore]. *)
Definition restore_catch (err : Error) (e : Expirer) : Expirer :=
  let e := log Debug
             (Text ("Failed to Restore expirations for " +:+ name)) e in
  log Err (Caught err) e.

(** [restore], from the moment the storage has answered. *)
Definition restore (persisted : Settled (option (list Expiration)))
    (e : Expirer) : Expirer :=
  match persisted with
  | Rejected err => restore_catch err e
  | Fulfilled None => e
  | Fulfilled (Some persisted) =>
      if bool_decide (List.length persisted = 0%nat) then e
      else if negb (bool_decide (length e = 0%nat)) then
        let error := ERROR RESTORE_WILL_OVERRIDE [("context", VStr name)] in
        let e := log Err (Caught error) e in
        restore_catch error e
      else
        let e := set_cached persisted e in
        let e := log Debug
                   (Text ("Successfully Restored expirations for "
                          +:+ name)) e in
        log Trace (Entry "method" "restore") e
  end.

(** [init], from the moment [restore] has returned. *)
Definition init_resume (e : Expirer) : Expirer :=
  let e :=
    fold_left
      (fun e expiration =>
         set_expirations
           (JsMap.set (topic expiration) expiration (expirations e)) e)
      (cached e) e in
  {| expirations := expirations e; cached := [];
     initialized := true; listeners := S (listeners e);
     effects := effects e |}.

(** [init] when nothing else runs while the storage is read. *)
Definition init (persisted : Settled (option (list Expiration)))
    (e : Expirer) : Expirer :=
  let '(e, entered) := init_begin e in
  if entered then init_resume (restore persisted e) else e.
End Controller.
End Expirer.

(** ** Sample values

    The constants of [../constants] and the helpers of the utility packages
    are parameters of the controllers.  These are values for them on which
    the controllers can be run. *)
Module Sample.

Definition PUBLISHER_DEFAULT_TTL : number := Int 21600.

Definition hashMessage (message : string) : string := "sha256:" +:+ message.

Definition getRelayProtocolName (opts : option Publisher.PublishOptions)
    : Publisher.ProtocolOptions :=
  from_option id {| Publisher.protocol := "waku"; Publisher.data := None |}
    (opts ≫= Publisher.relay).

Definition getRelayProtocolApi (protocol : string)
    : Error + Publisher.RelayJsonRpc.Methods :=
  if decide (protocol = "waku") then
    inr {| Publisher.RelayJsonRpc.publish := "waku_publish";
           Publisher.RelayJsonRpc.subscribe := "waku_subscribe";
           Publisher.RelayJsonRpc.subscription := "waku_subscription";
           Publisher.RelayJsonRpc.unsubscribe := "waku_unsubscribe" |}
  else inl (External (VStr ("Relay Protocol not supported: " +:+ protocol))).

Definition HISTORY_CONTEXT : string := "history".
Definition HISTORY_STORAGE_VERSION : string := "0.3".
Definition CLIENT_STORAGE_PREFIX : string := "wc@2:client:".

Definition HISTORY_EVENTS (n : History.EVENTS.name) : string :=
  match n with
  | History.EVENTS.created => "history_created"
  | History.EVENTS.updated => "history_updated"
  | History.EVENTS.deleted => "history_deleted"
  | History.EVENTS.sync => "history_sync"
  | History.EVENTS.init => "history_init"
  end.

Definition formatJsonRpcRequest (method : string) (params : JsValue) (id : Z)
    : History.JsonRpcRequest :=
  {| History.req_id := id; History.jsonrpc := "2.0";
     History.req_method := method; History.req_params := params |}.

Definition EXPIRER_CONTEXT : string := "expirer".
Definition EXPIRER_STORAGE_VERSION : string := "0.3".

Definition EXPIRER_EVENTS (n : Expirer.EVENTS.name) : string :=
  match n with
  | Expirer.EVENTS.created => "expirer_created"
  | Expirer.EVENTS.expired => "expirer_expired"
  | Expirer.EVENTS.deleted => "expirer_deleted"
  | Expirer.EVENTS.sync => "expirer_sync"
  end.

Definition toMiliseconds (seconds : Z) : Z := seconds * 1000.

(** The controllers with these values. *)
Definition publish_begin :=
  Publisher.publish_begin PUBLISHER_DEFAULT_TTL hashMessage
    getRelayProtocolName getRelayProtocolApi.

Definition history_set :=
  History.set HISTORY_CONTEXT HISTORY_STORAGE_VERSION CLIENT_STORAGE_PREFIX
    HISTORY_EVENTS.

Definition history_resolve :=
  History.resolve HISTORY_CONTEXT HISTORY_STORAGE_VERSION
    CLIENT_STORAGE_PREFIX HISTORY_EVENTS.

Definition history_get :=
  History.get HISTORY_CONTEXT HISTORY_STORAGE_VERSION CLIENT_STORAGE_PREFIX
    HISTORY_EVENTS.

Definition history_init :=
  History.init HISTORY_CONTEXT HISTORY_STORAGE_VERSION CLIENT_STORAGE_PREFIX
    HISTORY_EVENTS.

Definition expirer_set :=
  Expirer.set EXPIRER_CONTEXT EXPIRER_STORAGE_VERSION CLIENT_STORAGE_PREFIX
    EXPIRER_EVENTS toMiliseconds.

Definition expirer_init :=
  Expirer.init EXPIRER_CONTEXT EXPIRER_STORAGE_VERSION CLIENT_STORAGE_PREFIX.

Definition expirer_restore := Expirer.restore EXPIRER_CONTEXT.

Definition checkExpirations :=
  Expirer.checkExpirations EXPIRER_CONTEXT EXPIRER_STORAGE_VERSION
    CLIENT_STORAGE_PREFIX EXPIRER_EVENTS toMiliseconds.

(** A request and the record that [set] makes of it under topic ["A"]. *)
Definition request7 : History.JsonRpcRequest :=
  formatJsonRpcRequest "eth_sign" (VArr [VStr "0xabc"]) 7.

Definition record7 : History.JsonRpcRecord :=
  {| History.id := 7; History.topic := "A";
     History.request := {| History.method := "eth_sign";
                           History.params := VArr [VStr "0xabc"] |};
     History.chainId := Some "eip155:1";
     History.response := None |}.

(** An expiration that has run out at the time [now]. *)
Definition now : Z := 1700000000000.

Definition stale : Expirer.Expiration :=
  {| Expirer.topic := "A"; Expirer.expiry := 1600000000 |}.

Definition fresh : Expirer.Expiration :=
  {| Expirer.topic := "B"; Expirer.expiry := 1800000000 |}.

(** The history after [set("A", request7, "eip155:1")]. *)
Definition history7 : History.JsonRpcHistory :=
  (history_set "A" request7 (Some "eip155:1") History.create).1.

(** The expirer after an [init] that found nothing in the storage. *)
Definition expirer0 : Expirer.Expirer :=
  expirer_init (Fulfilled None) Expirer.create.

(** More of the controllers with these values. *)
Definition publisher_pulse := Publisher.pulse hashMessage getRelayProtocolApi.

Definition history_delete :=
  History.delete HISTORY_CONTEXT HISTORY_STORAGE_VERSION
    CLIENT_STORAGE_PREFIX HISTORY_EVENTS.

Definition history_exists :=
  History.exists_ HISTORY_CONTEXT HISTORY_STORAGE_VERSION
    CLIENT_STORAGE_PREFIX HISTORY_EVENTS.

Definition history_pending := History.pending formatJsonRpcRequest.

Definition history_staged (backlog : list History.JsonRpcRecord)
    (h : History.JsonRpcHistory) : History.JsonRpcHistory :=
  History.restore HISTORY_CONTEXT (Fulfilled (Some backlog))
    (History.init_begin HISTORY_CONTEXT HISTORY_STORAGE_VERSION
       CLIENT_STORAGE_PREFIX h).

Definition history_initialize_resume :=
  History.initialize_resume HISTORY_CONTEXT HISTORY_STORAGE_VERSION
    CLIENT_STORAGE_PREFIX HISTORY_EVENTS.

Definition expirer_get := Expirer.get EXPIRER_CONTEXT.
Definition expirer_has := Expirer.has EXPIRER_CONTEXT.

Definition expirer_del :=
  Expirer.del EXPIRER_CONTEXT EXPIRER_STORAGE_VERSION CLIENT_STORAGE_PREFIX
    EXPIRER_EVENTS.

Definition expirer_pulse :=
  Expirer.pulse EXPIRER_CONTEXT EXPIRER_STORAGE_VERSION CLIENT_STORAGE_PREFIX
    EXPIRER_EVENTS toMiliseconds.

Definition expirer_init_begin :=
  Expirer.init_begin EXPIRER_CONTEXT EXPIRER_STORAGE_VERSION
    CLIENT_STORAGE_PREFIX.

Definition expirer_storageKey : string :=
  Expirer.storageKey EXPIRER_CONTEXT EXPIRER_STORAGE_VERSION
    CLIENT_STORAGE_PREFIX.

(** The publisher after [publish("A", "hello")], and after the same with a
    relay protocol that the table does not know. *)
Definition publisher_hello : Publisher.Publisher :=
  (publish_begin "A" "hello" None Publisher.create).1.

Definition iridium : option Publisher.PublishOptions :=
  Some {| Publisher.relay :=
            Some {| Publisher.protocol := "iridium";
                    Publisher.data := None |};
          Publisher.ttl := None;
          Publisher.prompt := None |}.

Definition publisher_iridium : Publisher.Publisher :=
  (publish_begin "A" "hello" iridium Publisher.create).1.

Definition offline : Error := External (VStr "offline").

(** A second request, for topic ["B"]. *)
Definition request8 : History.JsonRpcRequest :=
  formatJsonRpcRequest "personal_sign" VNull 8.

(** A time at which [stale] had not run out, and the expirer that got
    [stale] then and [fresh] later. *)
Definition earlier : Z := 1500000000000.

Definition expirer_AB : Expirer.Expirer :=
  (expirer_set now "B" fresh (expirer_set earlier "A" stale expirer0).1).1.

Definition history_exists_lookup := History.exists_lookup HISTORY_CONTEXT.

Definition expirer_del_resume :=
  Expirer.del_resume EXPIRER_CONTEXT EXPIRER_STORAGE_VERSION
    CLIENT_STORAGE_PREFIX EXPIRER_EVENTS.

Definition publish_settle := Publisher.publish_settle.
End Sample.

(** * Properties *)

Section EffectFacts.
Context {Call Event : Type}.

Lemma emitted_app (a b : list (Effect Call Event)) :
  emitted (a ++ b) = emitted a ++ emitted b.
Proof. apply omap_app. Qed.

Lemma invoked_app (a b : list (Effect Call Event)) :
  invoked (a ++ b) = invoked a ++ invoked b.
Proof. apply omap_app. Qed.

Lemma logged_app lvl (a b : list (Effect Call Event)) :
  logged lvl (a ++ b) = logged lvl a ++ logged lvl b.
Proof. apply omap_app. Qed.
End EffectFacts.

Module JsMapFacts.
Import JsMap.

Section Facts.
Context {K V : Type} `{EqDecision K}.
Implicit Types (m : t K V) (k : K) (v : V).

Lemma has_get k m : has k m = true <-> is_Some (get k m).
Proof.
  unfold has. destruct (get k m); split; intros H; eauto.
  - discriminate.
  - destruct H; discriminate.
Qed.

Lemma has_false k m : has k m = false <-> get k m = None.
Proof. unfold has. destruct (get k m); split; congruence. Qed.

Lemma get_set_eq k v m : get k (set k v m) = Some v.
Proof.
  induction m as [|[k' v'] m IH]; simpl.
  - by rewrite decide_True.
  - destruct (decide (k = k')) as [->|Hne]; simpl.
  + by rewrite decide_True.
  + by rewrite decide_False.
Qed.

Lemma get_set_ne k k' v m : k ≠ k' -> get k' (set k v m) = get k' m.
Proof.
  intros Hne. induction m as [|[k0 v0] m IH]; simpl.
  - by rewrite decide_False.
  - destruct (decide (k = k0)) as [->|Hne0]; simpl.
  + by rewrite !decide_False.
  + destruct (decide (k' = k0)); auto.
Qed.

Lemma get_delete_eq k m : get k (delete k m) = None.
Proof.
  induction m as [|[k' v'] m IH]; simpl; auto.
  destruct (decide (k = k')); simpl; auto.
  by rewrite decide_False.
Qed.

Lemma get_delete_ne k k' m : k ≠ k' -> get k' (delete k m) = get k' m.
Proof.
  intros Hne. induction m as [|[k0 v0] m IH]; simpl; auto.
  destruct (decide (k = k0)) as [->|Hne0]; simpl.
  - by rewrite decide_False.
  - destruct (decide (k' = k0)); auto.
Qed.

Lemma get_None_keys k m : get k m = None <-> k ∉ keys m.
Proof.
  induction m as [|[k' v'] m IH]; simpl.
  - split; auto. intros _ H. inversion H.
  - destruct (decide (k = k')) as [->|Hne].
  + split; [discriminate|]. intros H. destruct H. left.
  + rewrite IH. rewrite not_elem_of_cons. tauto.
Qed.

Lemma get_Some_elem k v m : get k m = Some v -> (k, v) ∈ m.
Proof.
  induction m as [|[k' v'] m IH]; simpl; [discriminate|].
  destruct (decide (k = k')) as [->|Hne].
  - intros [= ->]. left.
  - intros H. right. auto.
Qed.

Lemma elem_get k v m : wf m -> (k, v) ∈ m -> get k m = Some v.
Proof.
  unfold wf. induction m as [|[k' v'] m IH]; simpl.
  - intros _ H. inversion H.
  - intros Hnd Hin. apply NoDup_cons in Hnd as [Hk Hnd].
  apply elem_of_cons in Hin as [[= -> ->]|Hin].
  + by rewrite decide_True.
  + destruct (decide (k = k')) as [->|Hne]; auto.
    destruct Hk. change k' with ((k', v).1).
    by apply list_elem_of_fmap_2.
Qed.

Lemma delete_absent k m : get k m = None -> delete k m = m.
Proof.
  induction m as [|[k' v'] m IH]; simpl; auto.
  destruct (decide (k = k')); [discriminate|].
  intros H. by rewrite IH.
Qed.

Lemma keys_set_has k v m : is_Some (get k m) -> keys (set k v m) = keys m.
Proof.
  induction m as [|[k' v'] m IH]; simpl.
  - intros [? ?]; discriminate.
  - destruct (decide (k = k')) as [->|Hne]; simpl; auto.
  intros H. unfold keys in *. f_equal. auto.
Qed.

Lemma set_absent k v m : get k m = None -> set k v m = m ++ [(k, v)].
Proof.
  induction m as [|[k' v'] m IH]; simpl; auto.
  destruct (decide (k = k')); [discriminate|].
  intros H. by rewrite IH.
Qed.

Lemma wf_empty : wf (@empty K V).
Proof. constructor. Qed.

Lemma wf_set k v m : wf m -> wf (set k v m).
Proof.
  unfold wf. intros Hwf. destruct (get k m) as [v0|] eqn:Hg.
  - by rewrite keys_set_has.
  - rewrite set_absent by done. unfold keys. rewrite fmap_app. simpl.
  apply NoDup_app. split; [done|]. split.
  + intros x Hx Hx'. apply list_elem_of_singleton in Hx' as ->.
    by apply get_None_keys in Hg.
  + apply NoDup_singleton.
Qed.

Lemma keys_delete_sub k k' m : k' ∈ keys (delete k m) -> k' ∈ keys m.
Proof.
  induction m as [|[k0 v0] m IH]; simpl; auto.
  destruct (decide (k = k0)); simpl.
  - intros H. right. auto.
  - intros H. apply elem_of_cons in H as [->|H]; [left|right; auto].
Qed.

Lemma wf_delete k m : wf m -> wf (delete k m).
Proof.
  unfold wf. induction m as [|[k0 v0] m IH]; simpl; auto.
  intros Hnd. apply NoDup_cons in Hnd as [Hk Hnd].
  destruct (decide (k = k0)); simpl; auto.
  apply NoDup_cons. split; auto.
  intros H. apply Hk. by eapply keys_delete_sub.
Qed.
Lemma delete_app k m1 m2 : delete k (m1 ++ m2) = delete k m1 ++ delete k m2.
Proof.
  induction m1 as [|[k' v'] m1 IH]; simpl; [done|].
  destruct (decide (k = k')); simpl; by rewrite IH.
Qed.

Lemma delete_not_key k m : k ∉ keys m -> delete k m = m.
Proof. intros H0. by apply delete_absent, get_None_keys. Qed.

Lemma get_delete_None k k' m : get k m = None -> get k (delete k' m) = None.
Proof.
  intros Hn. destruct (decide (k' = k)) as [->|Hne].
  - apply get_delete_eq.
  - by rewrite get_delete_ne.
Qed.

(** Removing, in the order of the map, every entry that [P] selects is
    filtering the map. *)
Lemma fold_delete_filter (P : K * V -> bool) pre l :
  wf (pre ++ l) ->
  fold_left (fun m kv => if P kv then delete kv.1 m else m) l (pre ++ l)
  = pre ++ List.filter (fun kv => negb (P kv)) l.
Proof.
  revert pre. induction l as [|[k v] l IH]; intros pre Hwf; simpl; [done|].
  destruct (P (k, v)) eqn:HP; simpl.
  - assert (Hwf' : wf (pre ++ l)).
    { unfold wf, keys in *. rewrite fmap_app in *. simpl in Hwf.
      apply NoDup_app in Hwf as (H1 & H2 & H3).
      apply NoDup_cons in H3 as [_ H3].
      apply NoDup_app. split; [done|]. split; [|done].
      intros x Hx Hx'. apply (H2 x Hx). by right. }
    assert (Hdel : delete k (pre ++ (k, v) :: l) = pre ++ l).
    { unfold wf, keys in Hwf. rewrite fmap_app in Hwf. simpl in Hwf.
      apply NoDup_app in Hwf as (H1 & H2 & H3).
      apply NoDup_cons in H3 as [H3 _].
      rewrite delete_app. simpl. rewrite decide_True by done.
      rewrite (delete_not_key k l) by done.
      rewrite delete_not_key; [done|]. intros Hin. apply (H2 k Hin). left. }
    rewrite Hdel. by apply IH.
  - replace (pre ++ (k, v) :: l) with ((pre ++ [(k, v)]) ++ l)
      by by rewrite <- app_assoc.
    rewrite IH by by rewrite <- app_assoc. by rewrite <- app_assoc.
Qed.

Lemma fold_delete_get (P : K * V -> bool) k l m :
  get k m = None \/ (exists v, (k, v) ∈ l /\ P (k, v) = true) ->
  get k (fold_left (fun m kv => if P kv then delete kv.1 m else m) l m) = None.
Proof.
  revert m. induction l as [|[k' v'] l IH]; intros m [Hn|(v & Hin & HP)]; simpl.
  - done.
  - inversion Hin.
  - apply IH. left. destruct (P (k', v')); [by apply get_delete_None|done].
  - apply elem_of_cons in Hin as [[= <- <-]|Hin].
    + apply IH. left. rewrite HP. apply get_delete_eq.
    + apply IH. right. eauto.
Qed.

Lemma delete_set k v m : delete k (set k v m) = delete k m.
Proof.
  induction m as [|[k' v'] m IH]; simpl.
  - by rewrite decide_True.
  - destruct (decide (k = k')) as [->|Hne]; simpl.
    + by rewrite decide_True.
    + by rewrite decide_False, IH.
Qed.

Lemma filter_set_delete (P : K * V -> bool) k v m :
  wf m -> P (k, v) = true ->
  List.filter (fun kv => negb (P kv)) (set k v m)
  = List.filter (fun kv => negb (P kv)) (delete k m).
Proof.
  intros Hwf HP. induction m as [|[k' v'] m IH]; simpl.
  - by rewrite HP.
  - unfold wf in Hwf. simpl in Hwf. apply NoDup_cons in Hwf as [Hk Hwf].
    destruct (decide (k = k')) as [->|Hne]; simpl.
    + rewrite HP. simpl. by rewrite delete_not_key.
    + by rewrite IH.
Qed.
End Facts.
End JsMapFacts.

Module PublisherFacts.
Import Publisher.

Section Facts.
Variable PUBLISHER_DEFAULT_TTL : number.
Variable hashMessage : string -> string.
Variable getRelayProtocolName : option PublishOptions -> ProtocolOptions.
Variable getRelayProtocolApi : string -> Error + RelayJsonRpc.Methods.

Local Abbreviation rpcPublish := (Publisher.rpcPublish getRelayProtocolApi).
Local Abbreviation publish_begin :=
  (Publisher.publish_begin PUBLISHER_DEFAULT_TTL hashMessage
     getRelayProtocolName getRelayProtocolApi).
Local Abbreviation publish :=
  (Publisher.publish PUBLISHER_DEFAULT_TTL hashMessage
     getRelayProtocolName getRelayProtocolApi).
Local Abbreviation resubmit :=
  (Publisher.resubmit hashMessage getRelayProtocolApi).
Local Abbreviation checkQueue :=
  (Publisher.checkQueue hashMessage getRelayProtocolApi).
Local Abbreviation entry_of :=
  (Publisher.entry_of PUBLISHER_DEFAULT_TTL getRelayProtocolName).

(** The fields of a relay request other than [prompt]. *)
Local Abbreviation fields topic message ttl :=
  (<["ttl" := VNum ttl]>
     (<["message" := VStr message]>
        ({["topic" := VStr topic]} : gmap string JsValue))).

Lemma fields_no_prompt (topic message : string) (ttl : number) :
  fields topic message ttl !! "prompt" = None.
Proof. by rewrite !lookup_insert_ne, lookup_singleton_ne. Qed.

(** [rpcPublish] in closed form: the [prompt] field is present exactly
    when a boolean was passed. *)
Lemma rpcPublish_unfold topic message ttl relay prompt p :
  rpcPublish topic message ttl relay prompt p =
  match getRelayProtocolApi (protocol relay) with
  | inl e => (p, inl e)
  | inr api =>
      let request :=
        {| method := RelayJsonRpc.publish api;
           params :=
             match prompt with
             | Some b => <["prompt" := VBool b]> (fields topic message ttl)
             | None => fields topic message ttl
             end |} in
      ({| queue := queue p;
          effects := effects p ++
                     [Log Debug (Text "Outgoing Relay Payload");
                      Log Trace (Entry "message" "outgoing");
                      Invoke request] |},
       inr request)
  end.
Proof.
  unfold Publisher.rpcPublish.
  destruct (getRelayProtocolApi (protocol relay)) as [e|api]; [done|].
  rewrite lookup_insert_eq.
  destruct prompt as [b|]; simpl.
  - by rewrite <- !app_assoc.
  - rewrite delete_insert_eq, delete_id by apply fields_no_prompt.
    by rewrite <- !app_assoc.
Qed.

Lemma publish_begin_unfold topic message opts p :
  publish_begin topic message opts p =
  let entry := entry_of topic message opts in
  let p0 :=
    set_queue (JsMap.set (hashMessage message) entry (queue p))
      (log Trace (Entry "method" "publish")
         (log Debug (Text "Publishing Payload") p)) in
  match getRelayProtocolApi (protocol (opts_relay (Publisher.opts entry))) with
  | inl e => (publish_catch e p0, inl e)
  | inr api =>
      let request :=
        {| method := RelayJsonRpc.publish api;
           params :=
             <["prompt" := VBool (opts_prompt (Publisher.opts entry))]>
               (fields topic message (opts_ttl (Publisher.opts entry))) |} in
      ({| queue := queue p0;
          effects := effects p0 ++
                     [Log Debug (Text "Outgoing Relay Payload");
                      Log Trace (Entry "message" "outgoing");
                      Invoke request] |},
       inr {| request := request; hash := hashMessage message;
              queued := entry |})
  end.
Proof.
  unfold Publisher.publish_begin. rewrite rpcPublish_unfold. simpl.
  by destruct (getRelayProtocolApi _).
Qed.

Lemma resubmit_unfold entry p :
  resubmit entry p =
  match getRelayProtocolApi (protocol (opts_relay (Publisher.opts entry))) with
  | inl e => (p, inl e)
  | inr api =>
      let request :=
        {| method := RelayJsonRpc.publish api;
           params := fields (topic entry) (message entry)
                       (opts_ttl (Publisher.opts entry)) |} in
      ({| queue := queue p;
          effects := effects p ++
                     [Log Debug (Text "Outgoing Relay Payload");
                      Log Trace (Entry "message" "outgoing");
                      Invoke request] |},
       inr {| request := request; hash := hashMessage (message entry);
              queued := entry |})
  end.
Proof.
  unfold Publisher.resubmit. rewrite rpcPublish_unfold. simpl.
  by destruct (getRelayProtocolApi _).
Qed.

Lemma resubmit_result entry p p' : (resubmit entry p).2 = (resubmit entry p').2.
Proof.
  rewrite !resubmit_unfold. by destruct (getRelayProtocolApi _).
Qed.

Lemma resubmit_queue entry p : queue (resubmit entry p).1 = queue p.
Proof.
  rewrite resubmit_unfold. by destruct (getRelayProtocolApi _).
Qed.

(** The sweep visits the queue in order and leaves it as it is; what an
    entry is resubmitted as depends on the entry alone. *)
Lemma checkQueue_results p :
  (checkQueue p).2 = (fun kv => (resubmit kv.2 p).2) <$> queue p
  /\ queue (checkQueue p).1 = queue p.
Proof.
  unfold Publisher.checkQueue, JsMap.forEach.
  assert (Hgen : forall (m : list (string * Params)) (q : Publisher) acc,
    let r :=
      fold_left
        (fun (acc : Publisher * list (Error + Pending)) kv =>
           let '(p', r) := resubmit kv.2 acc.1 in (p', acc.2 ++ [r]))
        m (q, acc) in
    r.2 = acc ++ ((fun kv => (resubmit kv.2 p).2) <$> m)
    /\ queue r.1 = queue q).
  { induction m as [|kv m IH]; intros q acc; simpl.
    - by rewrite app_nil_r.
    - destruct (resubmit kv.2 q) as [q' r] eqn:Hr. simpl.
      destruct (IH q' (acc ++ [r])) as [IH1 IH2].
      rewrite IH1, IH2, <- app_assoc. simpl.
      replace r with (resubmit kv.2 q).2 by (by rewrite Hr).
      replace q' with (resubmit kv.2 q).1 by (by rewrite Hr).
      by rewrite (resubmit_result _ q p), resubmit_queue. }
  apply (Hgen (queue p) p []).
Qed.

(** C9. A request that the heartbeat sweep resubmits has no [prompt] field,
    whatever the entry holds.  The request that [publish] itself sends
    always has one (the flag of the caller, [false] when none was given),
    so the entry it leaves in the queue is resubmitted as a different
    request: the same method and fields, with [prompt] removed. *)
Theorem resubmission_omits_prompt topic message opts p :
  Forall (fun r => match r with
                   | inl _ => True
                   | inr pd => params (request pd) !! "prompt" = None
                   end) (checkQueue p).2
  /\ match publish_begin topic message opts p with
     | (_, inl _) => True
     | (p1, inr pd) =>
         params (request pd) !! "prompt"
         = Some (VBool (or_else id (opts ≫= prompt) false))
         /\ exists pd',
              inr pd' ∈ (checkQueue p1).2
              /\ hash pd' = hash pd /\ queued pd' = queued pd
              /\ method (request pd') = method (request pd)
              /\ params (request pd') = delete "prompt" (params (request pd))
              /\ request pd' <> request pd
     end.
Proof.
  split.
  - destruct (checkQueue_results p) as [-> _].
    apply Forall_fmap, Forall_forall. intros [k entry] _. simpl.
    rewrite resubmit_unfold.
    destruct (getRelayProtocolApi _); simpl; [done|].
    apply fields_no_prompt.
  - rewrite publish_begin_unfold. cbv zeta.
    destruct (getRelayProtocolApi _) as [e|api] eqn:Hapi; [done|].
    cbn [request params hash queued method].
    split; [by rewrite lookup_insert_eq|].
    match goal with
    | |- context [Publisher.checkQueue _ _ ?q] => set (p1 := q)
    end.
    destruct (checkQueue_results p1) as [-> _].
    set (entry := entry_of topic message opts) in *.
    assert (Hin : (hashMessage message, entry) ∈ queue p1).
    { apply JsMapFacts.get_Some_elem. apply JsMapFacts.get_set_eq. }
    pose proof (resubmit_unfold entry p1) as Hre. rewrite Hapi in Hre.
    cbv zeta in Hre.
    eexists. split.
    { apply list_elem_of_fmap. exists (hashMessage message, entry).
      split; [|exact Hin]. cbn [snd]. rewrite Hre. reflexivity. }
    cbn [request params hash queued method].
    split; [done|]. split; [done|]. split; [done|]. split.
    + rewrite delete_insert_eq. symmetry. apply delete_id, fields_no_prompt.
    + intros Heq. apply (f_equal (fun r => params r !! "prompt")) in Heq.
      simpl in Heq. rewrite lookup_insert_eq in Heq.
      unfold entry in Heq. simpl in Heq.
      by rewrite fields_no_prompt in Heq.
Qed.

(** C10. When [opts.ttl] is absent, [0] or [NaN], the entry that [publish]
    queues and the request it sends both carry [PUBLISHER_DEFAULT_TTL].
    With a default that is itself not falsy, no call of [publish] queues or
    sends a ttl of [0]. *)
Theorem publish_falsy_ttl_takes_default topic message opts p
    (Hfalsy : from_option number_truthy false (opts ≫= ttl) = false) :
  match publish_begin topic message opts p with
  | (p1, started) =>
      opts_ttl ∘ Publisher.opts <$> JsMap.get (hashMessage message) (queue p1)
      = Some PUBLISHER_DEFAULT_TTL
      /\ match started with
         | inl _ => True
         | inr pd =>
             params (request pd) !! "ttl" = Some (VNum PUBLISHER_DEFAULT_TTL)
             /\ opts_ttl (Publisher.opts (queued pd)) = PUBLISHER_DEFAULT_TTL
         end
  end
  /\ (number_truthy PUBLISHER_DEFAULT_TTL = true ->
      forall topic' message' opts' p',
        match publish_begin topic' message' opts' p' with
        | (p1, started) =>
            (exists entry,
               JsMap.get (hashMessage message') (queue p1) = Some entry
               /\ opts_ttl (Publisher.opts entry) <> Int 0)
            /\ match started with
               | inl _ => True
               | inr pd =>
                   exists n, params (request pd) !! "ttl" = Some (VNum n)
                             /\ n <> Int 0
               end
        end).
Proof.
  assert (Hdefault : or_else number_truthy (opts ≫= ttl) PUBLISHER_DEFAULT_TTL
                     = PUBLISHER_DEFAULT_TTL).
  { destruct (opts ≫= ttl) as [n|]; simpl in *; [|done]. by rewrite Hfalsy. }
  split.
  - rewrite publish_begin_unfold. cbv zeta.
    destruct (getRelayProtocolApi _) as [e|api]; simpl;
      rewrite JsMapFacts.get_set_eq; simpl; rewrite Hdefault; [done|].
    split; [done|]. split; [|done].
    by rewrite lookup_insert_ne, lookup_insert_eq.
  - intros Htruthy topic' message' opts' p'.
    assert (Hnz : or_else number_truthy (opts' ≫= ttl) PUBLISHER_DEFAULT_TTL
                  <> Int 0).
    { destruct (opts' ≫= ttl) as [n|]; simpl.
      - destruct (number_truthy n) eqn:Hn; intros ->; simpl in *; congruence.
      - intros ->. simpl in *. congruence. }
    rewrite publish_begin_unfold. cbv zeta.
    destruct (getRelayProtocolApi _) as [e|api]; simpl.
    + split; [|done]. eexists. split; [apply JsMapFacts.get_set_eq|done].
    + split.
      * eexists. split; [apply JsMapFacts.get_set_eq|done].
      * eexists. split; [|exact Hnz].
        by rewrite lookup_insert_ne, lookup_insert_eq.
Qed.
End Facts.
End PublisherFacts.

Module HistoryFacts.
Import History.

Section Facts.
Variable HISTORY_CONTEXT : string.
Variable HISTORY_STORAGE_VERSION : string.
Variable CLIENT_STORAGE_PREFIX : string.
Variable HISTORY_EVENTS : EVENTS.name -> string.
Variable formatJsonRpcRequest : string -> JsValue -> Z -> JsonRpcRequest.

Local Abbreviation storageKey :=
  (History.storageKey HISTORY_CONTEXT HISTORY_STORAGE_VERSION
     CLIENT_STORAGE_PREFIX).
Local Abbreviation emit :=
  (History.emit HISTORY_CONTEXT HISTORY_STORAGE_VERSION CLIENT_STORAGE_PREFIX
     HISTORY_EVENTS).
Local Abbreviation getRecord := (History.getRecord HISTORY_CONTEXT).
Local Abbreviation run :=
  (History.run HISTORY_CONTEXT HISTORY_STORAGE_VERSION CLIENT_STORAGE_PREFIX
     HISTORY_EVENTS).
Local Abbreviation call :=
  (History.call HISTORY_CONTEXT HISTORY_STORAGE_VERSION CLIENT_STORAGE_PREFIX
     HISTORY_EVENTS).
Local Abbreviation set :=
  (History.set HISTORY_CONTEXT HISTORY_STORAGE_VERSION CLIENT_STORAGE_PREFIX
     HISTORY_EVENTS).
Local Abbreviation resolve :=
  (History.resolve HISTORY_CONTEXT HISTORY_STORAGE_VERSION
     CLIENT_STORAGE_PREFIX HISTORY_EVENTS).
Local Abbreviation get :=
  (History.get HISTORY_CONTEXT HISTORY_STORAGE_VERSION CLIENT_STORAGE_PREFIX
     HISTORY_EVENTS).
Local Abbreviation pending := (History.pending formatJsonRpcRequest).
Local Abbreviation restore := (History.restore HISTORY_CONTEXT).
Local Abbreviation onInit :=
  (History.onInit HISTORY_CONTEXT HISTORY_STORAGE_VERSION
     CLIENT_STORAGE_PREFIX HISTORY_EVENTS).
Local Abbreviation init :=
  (History.init HISTORY_CONTEXT HISTORY_STORAGE_VERSION CLIENT_STORAGE_PREFIX
     HISTORY_EVENTS).
Local Abbreviation Reachable :=
  (History.Reachable HISTORY_CONTEXT HISTORY_STORAGE_VERSION
     CLIENT_STORAGE_PREFIX HISTORY_EVENTS).

(** What [emit] leaves behind: the index and the staging list are not
    touched, one event is added, and a created, updated or deleted event
    writes the current values to the storage. *)
Lemma history_emit_fields n record h :
  records (emit n record h) = records h
  /\ cached (emit n record h) = cached h
  /\ waiting (emit n record h) = waiting h
  /\ emitted (effects (emit n record h))
     = emitted (effects h)
       ++ [{| event_name := n; event_record := record |}]
  /\ invoked (effects (emit n record h))
     = invoked (effects h)
       ++ match n with
          | EVENTS.created | EVENTS.updated | EVENTS.deleted =>
              [setItem storageKey (values h)]
          | EVENTS.sync | EVENTS.init => []
          end.
Proof.
  destruct n; simpl; rewrite ?emitted_app, ?invoked_app; simpl;
    by rewrite ?app_nil_r.
Qed.

Lemma isInitialized_cached h : isInitialized h = true <-> cached h = [].
Proof.
  unfold isInitialized. rewrite bool_decide_eq_true.
  by destruct (cached h).
Qed.



(** Unfolds the bookkeeping of the controller down to its record. *)
Ltac history_unfold :=
  cbv beta iota zeta delta
    [History.set History.resolve History.get History.delete History.exists_
     History.call History.run
     History.set_ready History.resolve_ready History.get_ready
     History.exists_ready History.exists_check History.exists_lookup
     History.getRecord History.emit History.persist
     History.log History.effect History.set_records History.set_cached
     History.set_waiting History.values History.name JsMap.has
     History.records History.cached History.waiting History.effects
     History.id History.response fst snd negb].

Lemma isInitialized_nil m w tr :
  isInitialized {| records := m; cached := []; waiting := w; effects := tr |}
  = true.
Proof. reflexivity. Qed.

(** Brings a history that passes the gate to the form of a record. *)
Ltac history_ready h H :=
  apply isInitialized_cached in H; destruct h as [?m ?c ?w ?tr];
  simpl in H; subst.

Ltac effects_simpl :=
  rewrite ?emitted_app, ?invoked_app, ?logged_app; simpl;
  rewrite ?app_nil_r, <- ?app_assoc; simpl.

(** A call that has passed the gate leaves the staging list and the
    waiting calls alone. *)
Lemma fold_keeps_gate {A} (step : JsonRpcHistory -> A -> JsonRpcHistory)
    (l : list A) h :
  (forall h a,
     cached (step h a) = cached h /\ waiting (step h a) = waiting h) ->
  cached (fold_left step l h) = cached h
  /\ waiting (fold_left step l h) = waiting h.
Proof.
  intros Hstep. revert h. induction l as [|a l IH]; intros h; simpl; [done|].
  destruct (IH (step h a)) as [-> ->]. apply Hstep.
Qed.

Lemma run_fields c h :
  cached (run c h).1 = cached h /\ waiting (run c h).1 = waiting h.
Proof.
  destruct c as [topic request chainId|response|topic id|topic id|topic id];
    destruct h as [m c w tr].
  - history_unfold. by destruct (JsMap.get _ _).
  - history_unfold. destruct (JsMap.get _ _) as [record|]; [|done].
    by destruct record as [? ? ? ? [answer|]].
  - history_unfold.
    by destruct (JsMap.get _ _) as [record|]; [destruct (bool_decide _)|].
  - unfold History.run, History.delete_ready. cbv zeta. cbn [fst].
    match goal with
    | |- context [fold_left ?f ?l ?x] =>
        destruct (fold_keeps_gate f l x) as [-> ->]; [|done]
    end.
    intros h record. destruct (bool_decide _); [|done].
    destruct id as [id'|]; [destruct (bool_decide _); [done|]|];
      by destruct h.
  - history_unfold. by destruct (JsMap.get _ _).
Qed.


(** [onInit] opens the gate and runs the calls that waited, oldest
    first. *)
Lemma release_fold (l : list Call) h acc :
  let r :=
    fold_left
      (fun (acc : JsonRpcHistory * list (Call * (Error + Returned))) c =>
         let '(h, r) := run c acc.1 in (h, acc.2 ++ [(c, r)])) l (h, acc) in
  r.2.*1 = acc.*1 ++ l /\ cached r.1 = cached h /\ waiting r.1 = waiting h.
Proof.
  revert h acc. induction l as [|c l IH]; intros h acc; simpl.
  - by rewrite app_nil_r.
  - destruct (run c h) as [h' r] eqn:Hr. simpl.
    destruct (IH h' (acc ++ [(c, r)])) as (-> & -> & ->).
    destruct (run_fields c h) as [Hc Hw]. rewrite Hr in Hc, Hw. simpl in *.
    rewrite Hc, Hw, fmap_app, <- app_assoc. done.
Qed.

Lemma onInit_releases h :
  (onInit h).2.*1 = waiting h
  /\ waiting (onInit h).1 = []
  /\ isInitialized (onInit h).1 = true.
Proof.
  destruct h as [m c w tr]. unfold History.onInit. cbv zeta.
  match goal with
  | |- context [fold_left _ ?l (?x, ?a)] =>
      destruct (release_fold l x a) as (H1 & H2 & H3)
  end.
  cbv zeta in H1, H2, H3. rewrite H1, H3.
  split; [done|]. split; [done|].
  apply isInitialized_cached. by rewrite H2.
Qed.


(** While records are staged the index is empty: [restore] stages only
    into an empty index, and the calls made in the meantime wait.  And
    calls wait only while records are staged. *)
Lemma reachable_gate h :
  Reachable h ->
  (cached h <> [] -> records h = []) /\ (cached h = [] -> waiting h = []).
Proof.
  induction 1 as [|c h Hr IH|h Hr IH|persisted h Hr IH|h Hr IH|h Hr IH].
  - done.
  - unfold History.call. destruct (isInitialized h) eqn:Hi.
    + destruct (run_fields c h) as [Hc Hw].
      destruct (run c h) as [h' r]. simpl in *. rewrite Hc, Hw.
      apply isInitialized_cached in Hi. split; [congruence|]. apply IH.
    + assert (Hc : cached h <> []).
      { intros Hc. apply isInitialized_cached in Hc. congruence. }
      destruct h; simpl in *. split; [apply IH|done].
  - by destruct h.
  - unfold History.restore.
    destruct persisted as [[backlog|]|e]; [|done|by destruct h].
    destruct (bool_decide (length backlog = 0%nat)) eqn:Hb; [done|].
    destruct (bool_decide (size h = 0%nat)) eqn:Hs; simpl.
    + apply bool_decide_eq_true in Hs. apply bool_decide_eq_false in Hb.
      destruct h as [[|] ? ? ?]; [|done]. simpl. split; [done|].
      intros ->. done.
    + by destruct h.
  - destruct (onInit_releases (reset h)) as (_ & Hw & Hi).
    apply isInitialized_cached in Hi. unfold History.initialize_resume.
    split; [congruence|done].
  - by destruct h.
Qed.

Lemma staged_means_empty h : Reachable h -> cached h <> [] -> records h = [].
Proof. intros Hr. by apply reachable_gate. Qed.

(** So a reachable history that holds a record lets calls through. *)
Lemma holds_record_then_ready h id :
  Reachable h -> JsMap.has id (records h) = true -> isInitialized h = true.
Proof.
  intros Hr Hhas. apply isInitialized_cached.
  destruct (cached h) as [|record l] eqn:Hc; [done|].
  rewrite (staged_means_empty h Hr) in Hhas by by rewrite Hc.
  done.
Qed.

(** C2. Two calls of [set] with the same request id, made on a history
    that lets calls through: the second returns without touching the
    records, emitting an event or writing to the storage, whatever its
    topic, method, params and chainId are.  The record under the id is the
    one that was there before the first call or, if there was none, the
    one the first call made of its own arguments.  More generally, on
    every reachable history that holds a record under the id, [set] with
    that id returns at once and changes, emits and writes nothing. *)
Theorem set_first_write_wins topic request chainId topic' request' chainId' h
    (Hready : isInitialized h = true)
    (Hid : req_id request' = req_id request) :
  let h1 := (set topic request chainId h).1 in
  let '(h2, r) := set topic' request' chainId' h1 in
  r = Some (inr void)
  /\ records h2 = records h1
  /\ emitted (effects h2) = emitted (effects h1)
  /\ invoked (effects h2) = invoked (effects h1)
  /\ match JsMap.get (req_id request) (records h) with
     | Some record => JsMap.get (req_id request) (records h2) = Some record
     | None =>
         JsMap.get (req_id request) (records h2)
         = Some {| id := req_id request;
                   topic := topic;
                   request :=
                     {| method := req_method request;
                        params := if truthy (req_params request)
                                  then req_params request else VNull |};
                   chainId := chainId;
                   response := None |}
     end
  /\ forall h0,
       Reachable h0 ->
       JsMap.has (req_id request) (records h0) = true ->
       let '(h', r) := set topic' request' chainId' h0 in
       r = Some (inr void)
       /\ records h' = records h0
       /\ emitted (effects h') = emitted (effects h0)
       /\ invoked (effects h') = invoked (effects h0).
Proof.
  intros h1.
  assert (Hknown : forall h0,
    isInitialized h0 = true ->
    JsMap.has (req_id request) (records h0) = true ->
    let '(h', r) := set topic' request' chainId' h0 in
    r = Some (inr void)
    /\ records h' = records h0
    /\ emitted (effects h') = emitted (effects h0)
    /\ invoked (effects h') = invoked (effects h0)).
  { intros h0 Hready0 Hhas. history_ready h0 Hready0.
    history_unfold. rewrite isInitialized_nil, Hid.
    unfold JsMap.has in Hhas. simpl in Hhas.
    destruct (JsMap.get (req_id request) m) as [record|]; [|done].
    effects_simpl. by repeat split. }
  assert (Hfirst : isInitialized h1 = true
    /\ JsMap.get (req_id request) (records h1)
       = match JsMap.get (req_id request) (records h) with
         | Some record => Some record
         | None =>
             Some {| id := req_id request;
                     topic := topic;
                     request :=
                       {| method := req_method request;
                          params := if truthy (req_params request)
                                    then req_params request else VNull |};
                     chainId := chainId;
                     response := None |}
         end).
  { subst h1. history_ready h Hready. history_unfold.
    rewrite isInitialized_nil.
    destruct (JsMap.get (req_id request) m) as [record|] eqn:Hg;
      history_unfold; [done|].
    split; [done|]. apply JsMapFacts.get_set_eq. }
  destruct Hfirst as [Hready1 Hget1].
  assert (Hhas1 : JsMap.has (req_id request) (records h1) = true).
  { unfold JsMap.has. rewrite Hget1. by destruct (JsMap.get _ (records h)). }
  pose proof (Hknown h1 Hready1 Hhas1) as Hsecond.
  destruct (set topic' request' chainId' h1) as [h2 r].
  destruct Hsecond as (-> & Hrec & -> & ->).
  rewrite Hrec, Hget1.
  split; [done|]. split; [done|]. split; [done|]. split; [done|].
  split; [by destruct (JsMap.get _ (records h))|].
  intros h0 Hreach Hhas. apply Hknown; [|done].
  by apply (holds_record_then_ready h0 (req_id request)).
Qed.

Lemma get_set_twice (k k' : Z) (v : JsonRpcRecord) m :
  JsMap.get k (JsMap.set k' v (JsMap.set k v m)) = Some v.
Proof.
  destruct (decide (k' = k)) as [->|Hne].
  - apply JsMapFacts.get_set_eq.
  - rewrite JsMapFacts.get_set_ne by done. apply JsMapFacts.get_set_eq.
Qed.

(** C3. [resolve] on a history that lets calls through.  When no record
    has the id of the response, or the record already has a response, the
    records are untouched and nothing is emitted or written.  Otherwise the
    record gets [{error}] for an error response and [{result}] for a result
    response, the other records stay as they are, and one updated event is
    emitted with the record.  Any further [resolve] for the same id then
    changes nothing and emits nothing, so the response stays the first
    one. *)
Theorem resolve_writes_once response h (Hready : isInitialized h = true) :
  let '(h', r) := resolve response h in
  r = Some (inr void)
  /\ match JsMap.get (response_id response) (records h) with
     | None =>
         records h' = records h
         /\ emitted (effects h') = emitted (effects h)
         /\ invoked (effects h') = invoked (effects h)
     | Some record =>
         match History.response record with
         | Some _ =>
             records h' = records h
             /\ emitted (effects h') = emitted (effects h)
             /\ invoked (effects h') = invoked (effects h)
         | None =>
             let resolved :=
               {| id := id record; topic := topic record;
                  request := request record; chainId := chainId record;
                  response :=
                    Some (match response with
                          | JsonRpcError _ error => error_of error
                          | JsonRpcResult _ result => result_of result
                          end) |} in
             JsMap.get (response_id response) (records h') = Some resolved
             /\ match History.response resolved with
                | Some (error_of _) => isJsonRpcError response = true
                | Some (result_of _) => isJsonRpcError response = false
                | None => False
                end
             /\ (forall k, k <> response_id response -> k <> id record ->
                   JsMap.get k (records h') = JsMap.get k (records h))
             /\ emitted (effects h')
                = emitted (effects h)
                  ++ [{| event_name := EVENTS.updated;
                         event_record := Some resolved |}]
             /\ forall response',
                  response_id response' = response_id response ->
                  let '(h'', r') := resolve response' h' in
                  r' = Some (inr void)
                  /\ records h'' = records h'
                  /\ emitted (effects h'') = emitted (effects h')
                  /\ invoked (effects h'') = invoked (effects h')
         end
     end.
Proof.
  history_ready h Hready. history_unfold. rewrite isInitialized_nil.
  destruct (JsMap.get (response_id response) m) as [record|] eqn:Hg;
    history_unfold.
  2: { effects_simpl. by repeat split. }
  destruct record as [rid rtopic rrequest rchain [answer|]]; history_unfold.
  { effects_simpl. by repeat split. }
  split; [done|]. split; [apply get_set_twice|].
  split; [by destruct response|]. split.
  { intros k Hk Hk'. by rewrite !JsMapFacts.get_set_ne. }
  split; [by effects_simpl|].
  intros response' Hid. rewrite isInitialized_nil, Hid, get_set_twice.
  history_unfold. effects_simpl. by repeat split.
Qed.

(** C4. [get] on a history that lets calls through changes nothing and
    fails with the no-matching-id error when no record has the id, fails
    with the mismatched-topic error when the record of that id has another
    topic than the one asked for, and returns the record otherwise.  So
    after [set(topic, request)] with a new id, [get] with another topic and
    that id fails with mismatched-topic, and [get] with the same topic
    returns the record. *)
Theorem get_checks_id_then_topic topic id h (Hready : isInitialized h = true) :
  let '(h', r) := get topic id h in
  records h' = records h
  /\ emitted (effects h') = emitted (effects h)
  /\ r = Some
           match JsMap.get id (records h) with
           | None =>
               inl (ERROR NO_MATCHING_ID
                      [("context", VStr HISTORY_CONTEXT);
                       ("id", VNum (Int id))])
           | Some record =>
               if decide (History.topic record = topic)
               then inr (a_record record)
               else inl (ERROR MISMATCHED_TOPIC
                           [("context", VStr HISTORY_CONTEXT);
                            ("id", VNum (Int id))])
           end
  /\ forall request chainId topicB,
       req_id request = id ->
       JsMap.get id (records h) = None ->
       topicB <> topic ->
       let h1 := (set topic request chainId h).1 in
       (get topicB id h1).2
       = Some (inl (ERROR MISMATCHED_TOPIC
                      [("context", VStr HISTORY_CONTEXT);
                       ("id", VNum (Int id))]))
       /\ (get topic id h1).2
          = Some (inr (a_record
                         {| id := id;
                            topic := topic;
                            request :=
                              {| method := req_method request;
                                 params := if truthy (req_params request)
                                           then req_params request
                                           else VNull |};
                            chainId := chainId;
                            response := None |})).
Proof.
  history_ready h Hready. history_unfold. rewrite isInitialized_nil.
  destruct (JsMap.get id m) as [record|] eqn:Hg.
  - destruct (decide (History.topic record = topic)) as [Heq|Hne].
    + rewrite bool_decide_eq_false_2 by (intros H; by apply H).
      effects_simpl. by repeat split.
    + rewrite bool_decide_eq_true_2 by done.
      effects_simpl. by repeat split.
  - effects_simpl. split; [done|]. split; [done|]. split; [done|].
    intros request chainId topicB <- _ Hne.
    history_unfold. rewrite Hg.
    history_unfold. rewrite isInitialized_nil, JsMapFacts.get_set_eq.
    history_unfold.
    rewrite bool_decide_eq_true_2 by (intros H; by apply Hne).
    by rewrite bool_decide_eq_false_2 by (intros H; by apply H).
Qed.

Lemma pending_fold (l : list JsonRpcRecord) (acc : list RequestEvent) :
  fold_left
    (fun requests record =>
       match response record with
       | Some _ => requests
       | None =>
           requests ++
           [{| event_topic := topic record;
               event_request :=
                 formatJsonRpcRequest (method (request record))
                   (params (request record)) (id record);
               event_chainId := chainId record |}]
       end) l acc
  = acc ++
    ((fun record =>
        {| event_topic := topic record;
           event_request :=
             formatJsonRpcRequest (method (request record))
               (params (request record)) (id record);
           event_chainId := chainId record |})
     <$> List.filter (fun record => bool_decide (response record = None)) l).
Proof.
  revert acc. induction l as [|record l IH]; intros acc; simpl.
  - by rewrite app_nil_r.
  - rewrite IH. destruct (response record); simpl; [done|].
    by rewrite <- app_assoc.
Qed.

(** C7. [pending] is, in the order of the records map, one request event
    [{topic, request, chainId}] for each entry of the map whose record has
    no response, and nothing else: every such record has its event in the
    list, every event of the list comes from such a record of the map, and
    there are as many events as such entries.  It is computed from the
    records alone, so two histories with the same records have the same
    pending list. *)
Theorem pending_lists_unanswered_records h :
  let envelope := fun record =>
    {| event_topic := topic record;
       event_request :=
         formatJsonRpcRequest (method (request record))
           (params (request record)) (id record);
       event_chainId := chainId record |} in
  let unanswered := fun kv : Z * JsonRpcRecord =>
    bool_decide (response kv.2 = None) in
  pending h
  = (fun kv => envelope kv.2) <$> List.filter unanswered (records h)
  /\ (forall k record,
        (k, record) ∈ records h -> response record = None ->
        envelope record ∈ pending h)
  /\ (forall ev,
        ev ∈ pending h ->
        exists k record,
          (k, record) ∈ records h /\ response record = None
          /\ ev = envelope record)
  /\ length (pending h) = length (List.filter unanswered (records h))
  /\ (forall h', records h' = records h -> pending h' = pending h).
Proof.
  intros envelope unanswered.
  assert (Heq : pending h
                = (fun kv => envelope kv.2)
                  <$> List.filter unanswered (records h)).
  { unfold History.pending. rewrite pending_fold. cbn [app].
    unfold History.values, JsMap.values. fold envelope.
    subst unanswered. generalize (records h). intros m.
    induction m as [|[k record] m IH]; [done|].
    rewrite fmap_cons. cbn [List.filter snd].
    destruct (bool_decide (response record = None));
      [rewrite !fmap_cons; cbn [snd]; by rewrite IH|done]. }
  split; [done|]. split; [|split; [|split]].
  - intros k record Hin Hnone. rewrite Heq.
    apply (list_elem_of_fmap_2 (fun kv => envelope kv.2) _ (k, record)).
    apply list_elem_of_In, filter_In.
    split; [by apply list_elem_of_In|]. by apply bool_decide_eq_true.
  - intros ev Hin. rewrite Heq in Hin.
    apply list_elem_of_fmap in Hin as ([k record] & -> & Hin).
    apply list_elem_of_In, filter_In in Hin as [Hin Hu].
    exists k, record. split; [by apply list_elem_of_In|].
    split; [|done]. by apply bool_decide_eq_true in Hu.
  - by rewrite Heq, length_fmap.
  - intros h' Hrec. unfold History.pending, values. by rewrite Hrec.
Qed.

(** A restore that finds a backlog while the index holds records is
    refused: the index stays as it is, the refusal is logged as an error,
    and [init] goes on to announce readiness. *)
Lemma init_refused (backlog : list JsonRpcRecord) h :
  backlog <> [] -> records h <> [] -> cached h = [] -> waiting h = [] ->
  let '(h', released) := init (Fulfilled (Some backlog)) h in
  released = []
  /\ records h' = records h
  /\ cached h' = [] /\ waiting h' = []
  /\ isInitialized h' = true
  /\ emitted (effects h')
     = emitted (effects h)
       ++ [{| event_name := EVENTS.init; event_record := None |}]
  /\ invoked (effects h') = invoked (effects h) ++ [getItem storageKey]
  /\ logged Err (effects h')
     = logged Err (effects h)
       ++ [Caught (ERROR RESTORE_WILL_OVERRIDE
                     [("context", VStr HISTORY_CONTEXT)]);
           Caught (ERROR RESTORE_WILL_OVERRIDE
                     [("context", VStr HISTORY_CONTEXT)])].
Proof.
  destruct h as [m c w tr]. simpl. intros Hb Hm -> ->.
  unfold History.init, History.initialize_resume, History.restore,
    History.init_begin, History.size.
  cbn [History.log History.effect records cached waiting effects].
  rewrite bool_decide_eq_false_2 by by destruct backlog.
  rewrite (bool_decide_eq_false_2 (JsMap.size m = 0%nat))
    by by destruct m.
  history_unfold.
  cbv beta iota zeta delta
    [History.restore_catch History.reset History.onInit History.log
     History.effect History.set_cached History.set_waiting History.emit
     records cached waiting effects fold_left fst snd].
  effects_simpl. by repeat split.
Qed.
End Facts.
End HistoryFacts.

Module ExpirerFacts.
Import Expirer.

Section Facts.
Variable EXPIRER_CONTEXT : string.
Variable EXPIRER_STORAGE_VERSION : string.
Variable SIGN_CLIENT_STORAGE_PREFIX : string.
Variable EXPIRER_EVENTS : EVENTS.name -> string.
Variable toMiliseconds : Z -> Z.

Local Abbreviation storageKey :=
  (Expirer.storageKey EXPIRER_CONTEXT EXPIRER_STORAGE_VERSION
     SIGN_CLIENT_STORAGE_PREFIX).
Local Abbreviation on_event :=
  (Expirer.on_event EXPIRER_CONTEXT EXPIRER_STORAGE_VERSION
     SIGN_CLIENT_STORAGE_PREFIX EXPIRER_EVENTS).
Local Abbreviation emit :=
  (Expirer.emit EXPIRER_CONTEXT EXPIRER_STORAGE_VERSION
     SIGN_CLIENT_STORAGE_PREFIX EXPIRER_EVENTS).
Local Abbreviation expire :=
  (Expirer.expire EXPIRER_CONTEXT EXPIRER_STORAGE_VERSION
     SIGN_CLIENT_STORAGE_PREFIX EXPIRER_EVENTS).
Local Abbreviation checkExpiry :=
  (Expirer.checkExpiry EXPIRER_CONTEXT EXPIRER_STORAGE_VERSION
     SIGN_CLIENT_STORAGE_PREFIX EXPIRER_EVENTS toMiliseconds).
Local Abbreviation checkExpirations :=
  (Expirer.checkExpirations EXPIRER_CONTEXT EXPIRER_STORAGE_VERSION
     SIGN_CLIENT_STORAGE_PREFIX EXPIRER_EVENTS toMiliseconds).
Local Abbreviation isInitialized := (Expirer.isInitialized EXPIRER_CONTEXT).
Local Abbreviation getExpiration := (Expirer.getExpiration EXPIRER_CONTEXT).
Local Abbreviation has := (Expirer.has EXPIRER_CONTEXT).
Local Abbreviation set :=
  (Expirer.set EXPIRER_CONTEXT EXPIRER_STORAGE_VERSION
     SIGN_CLIENT_STORAGE_PREFIX EXPIRER_EVENTS toMiliseconds).
Local Abbreviation get := (Expirer.get EXPIRER_CONTEXT).
Local Abbreviation del :=
  (Expirer.del EXPIRER_CONTEXT EXPIRER_STORAGE_VERSION
     SIGN_CLIENT_STORAGE_PREFIX EXPIRER_EVENTS).
Local Abbreviation restore := (Expirer.restore EXPIRER_CONTEXT).
Local Abbreviation init :=
  (Expirer.init EXPIRER_CONTEXT EXPIRER_STORAGE_VERSION
     SIGN_CLIENT_STORAGE_PREFIX).

(** The entry has run out at [now]. *)
Local Abbreviation elapsed now :=
  (fun kv : string * Expiration =>
     bool_decide (toMiliseconds (expiry kv.2) - now <= 0)).

Local Abbreviation event n topic expiration :=
  {| event_name := n;
     event_payload := Some {| payload_topic := topic;
                              payload_expiration := expiration |} |}.

(** The listeners persist and log; they change nothing else. *)
Lemma on_events_fields k n e :
  let e' := Nat.iter k (on_event n) e in
  expirations e' = expirations e /\ cached e' = cached e
  /\ initialized e' = initialized e /\ listeners e' = listeners e
  /\ emitted (effects e') = emitted (effects e).
Proof.
  induction k as [|k IH]; simpl; [done|].
  destruct IH as (H1 & H2 & H3 & H4 & H5).
  destruct (Nat.iter k (on_event n) e) as [m c i l tr]. simpl in *.
  rewrite !emitted_app. simpl. by rewrite !app_nil_r.
Qed.

Lemma emit_fields n payload e :
  expirations (emit n payload e) = expirations e
  /\ cached (emit n payload e) = cached e
  /\ initialized (emit n payload e) = initialized e
  /\ listeners (emit n payload e) = listeners e
  /\ emitted (effects (emit n payload e))
     = emitted (effects e)
       ++ [{| event_name := n; event_payload := payload |}].
Proof.
  unfold Expirer.emit.
  destruct n; cbv zeta;
    try match goal with
        | |- context [Nat.iter ?k (Expirer.on_event _ _ _ _ ?n) ?x] =>
            destruct (on_events_fields k n x) as (-> & -> & -> & -> & ->)
        end;
    destruct e; simpl; by rewrite emitted_app.
Qed.

Lemma expire_fields topic expiration e :
  expirations (expire topic expiration e) = JsMap.delete topic (expirations e)
  /\ cached (expire topic expiration e) = cached e
  /\ initialized (expire topic expiration e) = initialized e
  /\ listeners (expire topic expiration e) = listeners e
  /\ emitted (effects (expire topic expiration e))
     = emitted (effects e) ++ [event EVENTS.expired topic expiration].
Proof.
  unfold Expirer.expire.
  match goal with
  | |- context [Expirer.emit _ _ _ _ ?n ?p ?x] =>
      destruct (emit_fields n p x) as (-> & -> & -> & -> & ->)
  end.
  by destruct e.
Qed.

(** The sweep, entry by entry. *)
Lemma sweep_fold now (l : list (string * Expiration)) e :
  let e' := fold_left (fun acc kv => checkExpiry now kv.1 kv.2 acc) l e in
  expirations e'
  = fold_left (fun m kv => if elapsed now kv then JsMap.delete kv.1 m else m)
      l (expirations e)
  /\ emitted (effects e')
     = emitted (effects e)
       ++ ((fun kv => event EVENTS.expired kv.1 kv.2)
           <$> List.filter (elapsed now) l)
  /\ cached e' = cached e /\ initialized e' = initialized e
  /\ listeners e' = listeners e.
Proof.
  revert e. induction l as [|[topic expiration] l IH]; intros e; simpl.
  - by rewrite app_nil_r.
  - destruct (IH (checkExpiry now topic expiration e))
      as (-> & -> & -> & -> & ->).
    unfold Expirer.checkExpiry.
    destruct (bool_decide (toMiliseconds (expiry expiration) - now <= 0)).
    + destruct (expire_fields topic expiration e) as (-> & -> & -> & -> & ->).
      simpl. by rewrite <- app_assoc.
    + done.
Qed.

Lemma sweep_index now e :
  JsMap.wf (expirations e) ->
  expirations (checkExpirations now e)
  = List.filter (fun kv => negb (elapsed now kv)) (expirations e).
Proof.
  intros Hwf. unfold Expirer.checkExpirations, JsMap.forEach.
  destruct (sweep_fold now (expirations e) e) as [-> _].
  by apply (JsMapFacts.fold_delete_filter (elapsed now) []).
Qed.

(** C8. On an initialized expirer, [set] with an expiry that is not after
    the current time removes the entry again within the call and emits
    expired and then created for it, and no deleted event.  A sweep over an
    expirer that holds the entry removes it too and emits only expired
    events, one of them for this entry.  Had the entry been set earlier,
    when its expiry was still ahead, the sweep at the current time leaves
    the same index as the sweep after the late [set]. *)
Theorem eager_expiry_matches_sweep now topic expiration e
    (Hinit : initialized e = true)
    (Hpast : toMiliseconds (expiry expiration) - now <= 0) :
  (let '(e1, r) := set now topic expiration e in
   r = inr tt
   /\ JsMap.get topic (expirations e1) = None
   /\ expirations e1 = JsMap.delete topic (expirations e)
   /\ emitted (effects e1)
      = emitted (effects e)
        ++ [event EVENTS.expired topic expiration;
            event EVENTS.created topic expiration])
  /\ (forall s,
        JsMap.get topic (expirations s) = Some expiration ->
        let s1 := checkExpirations now s in
        JsMap.get topic (expirations s1) = None
        /\ exists swept,
             emitted (effects s1) = emitted (effects s) ++ swept
             /\ event EVENTS.expired topic expiration ∈ swept
             /\ Forall (fun ev => event_name ev = EVENTS.expired) swept)
  /\ (forall earlier,
        0 < toMiliseconds (expiry expiration) - earlier ->
        JsMap.wf (expirations e) ->
        let stored := (set earlier topic expiration e).1 in
        JsMap.get topic (expirations stored) = Some expiration
        /\ expirations (checkExpirations now stored)
           = expirations (checkExpirations now (set now topic expiration e).1)).
Proof.
  assert (Hset : forall t,
    expirations (set t topic expiration e).1
    = (if bool_decide (toMiliseconds (expiry expiration) - t <= 0)
       then JsMap.delete topic (expirations e)
       else JsMap.set topic expiration (expirations e))
    /\ (set t topic expiration e).2 = inr tt
    /\ emitted (effects (set t topic expiration e).1)
       = emitted (effects e)
         ++ (if bool_decide (toMiliseconds (expiry expiration) - t <= 0)
             then [event EVENTS.expired topic expiration] else [])
         ++ [event EVENTS.created topic expiration]).
  { intros t. unfold Expirer.set, Expirer.isInitialized. rewrite Hinit.
    cbn [negb fst snd].
    match goal with
    | |- context [Expirer.emit _ _ _ _ ?n ?p ?x] =>
        destruct (emit_fields n p x) as (-> & _ & _ & _ & ->)
    end.
    unfold Expirer.checkExpiry.
    destruct (bool_decide (toMiliseconds (expiry expiration) - t <= 0)).
    - match goal with
      | |- context [Expirer.expire _ _ _ _ ?a ?b ?x] =>
          destruct (expire_fields a b x) as (-> & _ & _ & _ & ->)
      end.
      destruct e; simpl. rewrite JsMapFacts.delete_set.
      by rewrite <- app_assoc.
    - by destruct e. }
  split; [|split].
  - destruct (Hset now) as (H1 & H2 & H3).
    rewrite bool_decide_eq_true_2 in H1, H3 by done.
    destruct (set now topic expiration e) as [e1 r]. simpl in *.
    rewrite H1, H3. split; [done|].
    split; [apply JsMapFacts.get_delete_eq|done].
  - intros s Hs s1. subst s1.
    unfold Expirer.checkExpirations, JsMap.forEach.
    destruct (sweep_fold now (expirations s) s) as (-> & -> & _).
    apply JsMapFacts.get_Some_elem in Hs. split.
    + apply JsMapFacts.fold_delete_get. right. exists expiration.
      split; [done|]. by apply bool_decide_eq_true_2.
    + eexists. split; [done|]. split.
      * apply list_elem_of_fmap. exists (topic, expiration). split; [done|].
        apply list_elem_of_In, filter_In. split; [by apply list_elem_of_In|].
        by apply bool_decide_eq_true_2.
      * by apply Forall_fmap, Forall_forall.
  - intros earlier Hfuture Hwf stored. subst stored.
    destruct (Hset earlier) as (H1 & _). destruct (Hset now) as (H2 & _).
    rewrite bool_decide_eq_false_2 in H1 by lia.
    rewrite bool_decide_eq_true_2 in H2 by done.
    split; [rewrite H1; apply JsMapFacts.get_set_eq|].
    rewrite !sweep_index.
    + rewrite H1, H2.
      apply (JsMapFacts.filter_set_delete (elapsed now)); [done|].
      by apply bool_decide_eq_true_2.
    + rewrite H2. by apply JsMapFacts.wf_delete.
    + rewrite H1. by apply JsMapFacts.wf_set.
Qed.



(** A restore that finds a backlog while the index holds entries is
    refused: nothing is staged, the index stays as it is, and the refusal
    is logged as an error and goes no further. *)
Lemma restore_refused (backlog : list Expiration) e :
  backlog <> [] -> expirations e <> [] ->
  let e' := restore (Fulfilled (Some backlog)) e in
  expirations e' = expirations e
  /\ cached e' = cached e
  /\ initialized e' = initialized e
  /\ listeners e' = listeners e
  /\ emitted (effects e') = emitted (effects e)
  /\ invoked (effects e') = invoked (effects e)
  /\ logged Err (effects e')
     = logged Err (effects e)
       ++ [Caught (ERROR RESTORE_WILL_OVERRIDE
                     [("context", VStr EXPIRER_CONTEXT)]);
           Caught (ERROR RESTORE_WILL_OVERRIDE
                     [("context", VStr EXPIRER_CONTEXT)])].
Proof.
  destruct e as [m c i n tr]. simpl. intros Hb Hm.
  unfold Expirer.restore, Expirer.length. cbn [expirations].
  rewrite bool_decide_eq_false_2 by by destruct backlog.
  rewrite (bool_decide_eq_false_2 (JsMap.size m = 0%nat)) by by destruct m.
  cbv beta iota zeta delta
    [Expirer.restore_catch Expirer.log Expirer.effect Expirer.name
     expirations cached initialized listeners effects negb].
  rewrite ?emitted_app, ?invoked_app, ?logged_app; simpl.
  rewrite ?app_nil_r, <- ?app_assoc. by repeat split.
Qed.

(** With nothing staged, the rest of [init] only marks the expirer
    initialized and registers the listeners. *)
Lemma init_resume_nothing_staged e :
  cached e = [] ->
  init_resume e
  = {| expirations := expirations e; cached := []; initialized := true;
       listeners := S (listeners e); effects := effects e |}.
Proof. destruct e as [m c i n tr]. simpl. by intros ->. Qed.


(** The index never holds a topic twice: the new expirer has an empty
    index, and no method puts a second entry under a topic. *)
Lemma index_keeps_topics_apart now topic expiration persisted e :
  JsMap.wf (expirations Expirer.create)
  /\ (JsMap.wf (expirations e) ->
      JsMap.wf (expirations (set now topic expiration e).1)
      /\ JsMap.wf (expirations (del topic e).1)
      /\ JsMap.wf (expirations (checkExpirations now e))
      /\ JsMap.wf (expirations (init persisted e))).
Proof.
  split; [apply JsMapFacts.wf_empty|]. intros Hwf.
  split; [|split; [|split]].
  - unfold Expirer.set. destruct (isInitialized e); [done|]. cbn [fst].
    match goal with
    | |- context [Expirer.emit _ _ _ _ ?n ?p ?x] =>
        destruct (emit_fields n p x) as (-> & _)
    end.
    unfold Expirer.checkExpiry. destruct (bool_decide _).
    + match goal with
      | |- context [Expirer.expire _ _ _ _ ?a ?b ?x] =>
          destruct (expire_fields a b x) as (-> & _)
      end.
      destruct e; simpl in *. by apply JsMapFacts.wf_delete, JsMapFacts.wf_set.
    + destruct e; simpl in *. by apply JsMapFacts.wf_set.
  - unfold Expirer.del, Expirer.del_begin, Expirer.del_resume.
    destruct (isInitialized e); [done|].
    destruct (has topic e); [|done].
    destruct (getExpiration topic e); [done|]. cbn [fst].
    match goal with
    | |- context [Expirer.emit _ _ _ _ ?n ?p ?x] =>
        destruct (emit_fields n p x) as (-> & _)
    end.
    destruct e; simpl in *. by apply JsMapFacts.wf_delete.
  - rewrite sweep_index by done. unfold JsMap.wf, JsMap.keys in *.
    revert Hwf. generalize (expirations e). intros m.
    induction m as [|kv m IH]; simpl; [done|].
    intros Hnd. apply NoDup_cons in Hnd as [Hk Hnd].
    destruct (negb _); simpl; [|by apply IH].
    apply NoDup_cons. split; [|by apply IH].
    intros Hin. apply Hk. apply list_elem_of_fmap in Hin as (kv' & -> & Hin).
    apply list_elem_of_fmap_2. apply list_elem_of_In in Hin.
    apply filter_In in Hin as [Hin _]. by apply list_elem_of_In.
  - unfold Expirer.init, Expirer.init_begin.
    destruct (negb (initialized e)); [|done].
    assert (Hrestore : forall x,
      JsMap.wf (expirations x) ->
      JsMap.wf (expirations (restore persisted x))).
    { intros x Hx. unfold Expirer.restore.
      destruct persisted as [[backlog|]|err]; [|done|by destruct x].
      destruct (bool_decide _); [done|].
      destruct (negb _); by destruct x. }
    assert (Hresume : forall x,
      JsMap.wf (expirations x) -> JsMap.wf (expirations (init_resume x))).
    { intros x Hx. unfold Expirer.init_resume. cbn [expirations].
      revert Hx. generalize (cached x) at 1. intros l. revert x.
      induction l as [|expiration' l IH]; intros x Hx; simpl; [done|].
      apply IH. destruct x; simpl in *. by apply JsMapFacts.wf_set. }
    apply Hresume, Hrestore. by destruct e.
Qed.
End Facts.
End ExpirerFacts.

(** ** The readiness gate and the restore guard, for both controllers *)
Module ReadinessFacts.

Section Facts.
Variable HISTORY_CONTEXT : string.
Variable HISTORY_STORAGE_VERSION : string.
Variable CLIENT_STORAGE_PREFIX : string.
Variable HISTORY_EVENTS : History.EVENTS.name -> string.
Variable EXPIRER_CONTEXT : string.
Variable EXPIRER_STORAGE_VERSION : string.
Variable SIGN_CLIENT_STORAGE_PREFIX : string.
Variable EXPIRER_EVENTS : Expirer.EVENTS.name -> string.
Variable toMiliseconds : Z -> Z.
Variable formatJsonRpcRequest :
  string -> JsValue -> Z -> History.JsonRpcRequest.

Local Abbreviation history_call :=
  (History.call HISTORY_CONTEXT HISTORY_STORAGE_VERSION CLIENT_STORAGE_PREFIX
     HISTORY_EVENTS).
Local Abbreviation history_run :=
  (History.run HISTORY_CONTEXT HISTORY_STORAGE_VERSION CLIENT_STORAGE_PREFIX
     HISTORY_EVENTS).
Local Abbreviation history_emit :=
  (History.emit HISTORY_CONTEXT HISTORY_STORAGE_VERSION CLIENT_STORAGE_PREFIX
     HISTORY_EVENTS).
Local Abbreviation history_onInit :=
  (History.onInit HISTORY_CONTEXT HISTORY_STORAGE_VERSION
     CLIENT_STORAGE_PREFIX HISTORY_EVENTS).
Local Abbreviation history_restore := (History.restore HISTORY_CONTEXT).
Local Abbreviation history_init :=
  (History.init HISTORY_CONTEXT HISTORY_STORAGE_VERSION CLIENT_STORAGE_PREFIX
     HISTORY_EVENTS).
Local Abbreviation history_storageKey :=
  (History.storageKey HISTORY_CONTEXT HISTORY_STORAGE_VERSION
     CLIENT_STORAGE_PREFIX).
Local Abbreviation expirer_set :=
  (Expirer.set EXPIRER_CONTEXT EXPIRER_STORAGE_VERSION
     SIGN_CLIENT_STORAGE_PREFIX EXPIRER_EVENTS toMiliseconds).
Local Abbreviation expirer_get := (Expirer.get EXPIRER_CONTEXT).
Local Abbreviation expirer_del :=
  (Expirer.del EXPIRER_CONTEXT EXPIRER_STORAGE_VERSION
     SIGN_CLIENT_STORAGE_PREFIX EXPIRER_EVENTS).
Local Abbreviation expirer_getExpiration :=
  (Expirer.getExpiration EXPIRER_CONTEXT).
Local Abbreviation expirer_has := (Expirer.has EXPIRER_CONTEXT).
Local Abbreviation expirer_del_begin := (Expirer.del_begin EXPIRER_CONTEXT).
Local Abbreviation expirer_del_resume :=
  (Expirer.del_resume EXPIRER_CONTEXT EXPIRER_STORAGE_VERSION
     SIGN_CLIENT_STORAGE_PREFIX EXPIRER_EVENTS).
Local Abbreviation history_pending := (History.pending formatJsonRpcRequest).
Local Abbreviation history_Reachable :=
  (History.Reachable HISTORY_CONTEXT HISTORY_STORAGE_VERSION
     CLIENT_STORAGE_PREFIX HISTORY_EVENTS).
Local Abbreviation expirer_restore := (Expirer.restore EXPIRER_CONTEXT).
Local Abbreviation expirer_init :=
  (Expirer.init EXPIRER_CONTEXT EXPIRER_STORAGE_VERSION
     SIGN_CLIENT_STORAGE_PREFIX).

Local Abbreviation not_initialized :=
  (ERROR NOT_INITIALIZED [("context", VStr EXPIRER_CONTEXT)]).


(** C6.  When the storage holds a backlog and the index already holds
    entries, restore keeps neither: nothing is staged and the index is
    exactly as before.  The refusal is logged as an error and reaches no
    caller, and initialization runs to its end: the history emits its init
    event and lets calls through, the expirer is marked initialized. *)
Theorem restore_refused_when_index_not_empty
    (records : list History.JsonRpcRecord)
    (expirations : list Expirer.Expiration) h e
    (Hrecords : records <> [])
    (Hh : History.records h <> [])
    (Hh_cached : History.cached h = [])
    (Hh_waiting : History.waiting h = [])
    (Hexpirations : expirations <> [])
    (He : Expirer.expirations e <> [])
    (He_cached : Expirer.cached e = []) :
  (let '(h', released) := history_init (Fulfilled (Some records)) h in
   released = []
   /\ History.records h' = History.records h
   /\ History.cached h' = [] /\ History.waiting h' = []
   /\ History.isInitialized h' = true
   /\ emitted (History.effects h')
      = emitted (History.effects h)
        ++ [{| History.event_name := History.EVENTS.init;
               History.event_record := None |}]
   /\ invoked (History.effects h')
      = invoked (History.effects h) ++ [History.getItem history_storageKey]
   /\ logged Err (History.effects h')
      = logged Err (History.effects h)
        ++ [Caught (ERROR RESTORE_WILL_OVERRIDE
                      [("context", VStr HISTORY_CONTEXT)]);
            Caught (ERROR RESTORE_WILL_OVERRIDE
                      [("context", VStr HISTORY_CONTEXT)])])
  /\ (let e1 := expirer_restore (Fulfilled (Some expirations)) e in
      let e2 := Expirer.init_resume e1 in
      Expirer.expirations e1 = Expirer.expirations e
      /\ Expirer.cached e1 = []
      /\ emitted (Expirer.effects e1) = emitted (Expirer.effects e)
      /\ invoked (Expirer.effects e1) = invoked (Expirer.effects e)
      /\ logged Err (Expirer.effects e1)
         = logged Err (Expirer.effects e)
           ++ [Caught (ERROR RESTORE_WILL_OVERRIDE
                         [("context", VStr EXPIRER_CONTEXT)]);
               Caught (ERROR RESTORE_WILL_OVERRIDE
                         [("context", VStr EXPIRER_CONTEXT)])]
      /\ Expirer.expirations e2 = Expirer.expirations e
      /\ Expirer.cached e2 = []
      /\ Expirer.initialized e2 = true
      /\ Expirer.effects e2 = Expirer.effects e1)
  /\ (Expirer.initialized e = false ->
      let e' := expirer_init (Fulfilled (Some expirations)) e in
      Expirer.expirations e' = Expirer.expirations e
      /\ Expirer.cached e' = []
      /\ Expirer.initialized e' = true
      /\ emitted (Expirer.effects e') = emitted (Expirer.effects e)).
Proof.
  split; [by apply HistoryFacts.init_refused|]. split.
  - cbv zeta.
    destruct (ExpirerFacts.restore_refused EXPIRER_CONTEXT expirations e
                Hexpirations He) as (H1 & H2 & H3 & H4 & H5 & H6 & H7).
    cbv zeta in H1, H2, H3, H4, H5, H6, H7.
    rewrite ExpirerFacts.init_resume_nothing_staged by congruence.
    cbn [Expirer.expirations Expirer.cached Expirer.initialized
         Expirer.effects].
    rewrite H1, H2, H5, H6, H7. by repeat split.
  - intros Hi. unfold Expirer.init, Expirer.init_begin. rewrite Hi.
    cbn [negb]. cbv zeta.
    match goal with
    | |- context [Expirer.restore _ _ ?x] =>
        destruct (ExpirerFacts.restore_refused EXPIRER_CONTEXT expirations x
                    Hexpirations) as (H1 & H2 & H3 & H4 & H5 & H6 & H7);
        [by destruct e|]
    end.
    cbv zeta in H1, H2, H3, H4, H5, H6, H7.
    rewrite ExpirerFacts.init_resume_nothing_staged
      by (rewrite H2; by destruct e).
    cbn [Expirer.expirations Expirer.cached Expirer.initialized
         Expirer.effects].
    rewrite H1, H5. destruct e; simpl.
    rewrite !emitted_app. simpl. by rewrite !app_nil_r.
Qed.
End Facts.
End ReadinessFacts.

(** ** More on the [Map] *)
Module JsMapIndexFacts.
Import JsMap.

Section Facts.
Context {K V : Type} `{EqDecision K}.
Implicit Types (m : t K V) (k : K) (v : V).

Lemma elem_set k v k0 v0 m :
  (k, v) ∈ set k0 v0 m -> (k, v) = (k0, v0) \/ (k, v) ∈ m.
Proof.
  induction m as [|[k' v'] m IH]; simpl.
  - intros Hin. apply list_elem_of_singleton in Hin. by left.
  - destruct (decide (k0 = k')) as [->|Hne]; intros Hin;
      apply elem_of_cons in Hin as [Hin|Hin].
    + by left.
    + right. by right.
    + right. rewrite Hin. left.
    + destruct (IH Hin) as [?|?]; [by left|right; by right].
Qed.

Lemma elem_delete k v k0 m : (k, v) ∈ delete k0 m -> (k, v) ∈ m /\ k <> k0.
Proof.
  induction m as [|[k' v'] m IH]; simpl.
  - intros Hin. inversion Hin.
  - destruct (decide (k0 = k')) as [->|Hne]; intros Hin.
    + destruct (IH Hin). split; [by right|done].
    + apply elem_of_cons in Hin as [[= -> ->]|Hin].
      * split; [left|done].
      * destruct (IH Hin). split; [by right|done].
Qed.

Lemma delete_filter k m :
  delete k m = List.filter (fun kv => negb (bool_decide (kv.1 = k))) m.
Proof.
  induction m as [|[k' v'] m IH]; simpl; [done|].
  destruct (decide (k = k')) as [->|Hne].
  - by rewrite bool_decide_eq_true_2.
  - rewrite bool_decide_eq_false_2 by done. simpl. by rewrite IH.
Qed.

Lemma values_set_absent k v m :
  get k m = None -> values (set k v m) = values m ++ [v].
Proof.
  intros Hn. rewrite JsMapFacts.set_absent by done.
  unfold values. by rewrite fmap_app.
Qed.

(** Putting the values of a map back one by one, each under the key that
    [key_of] reads off it, gives the map again when every value sits under
    that key. *)
Lemma rebuild (key_of : V -> K) pre l :
  wf (pre ++ l) ->
  (forall k v, (k, v) ∈ l -> key_of v = k) ->
  fold_left (fun acc v => set (key_of v) v acc) (values l) pre = pre ++ l.
Proof.
  revert pre. induction l as [|[k v] l IH]; intros pre Hwf Hkey; simpl.
  - by rewrite app_nil_r.
  - rewrite (Hkey k v) by left.
    assert (Hn : get k pre = None).
    { apply JsMapFacts.get_None_keys. intros Hin.
      unfold wf, keys in Hwf. rewrite fmap_app in Hwf.
      apply NoDup_app in Hwf as (_ & Hdisj & _).
      apply (Hdisj k Hin). left. }
    rewrite JsMapFacts.set_absent by done.
    rewrite IH.
    + by rewrite <- app_assoc.
    + by rewrite <- app_assoc.
    + intros k' v' Hin. apply Hkey. by right.
Qed.

(** After values were put one by one, a key holds the last value that was
    put under it, or what it held before when none was. *)
Lemma get_fold_set (key_of : V -> K) k l m :
  get k (fold_left (fun acc v => set (key_of v) v acc) l m)
  = match last (List.filter (fun v => bool_decide (key_of v = k)) l) with
    | Some v => Some v
    | None => get k m
    end.
Proof.
  revert m. induction l as [|v l IH]; intros m; simpl; [done|].
  rewrite IH. destruct (decide (key_of v = k)) as [Heq|Hne].
  - rewrite bool_decide_eq_true_2 by done.
    destruct (List.filter _ l) as [|v' l'] eqn:Hf.
    + simpl. rewrite <- Heq. apply JsMapFacts.get_set_eq.
    + rewrite last_cons_cons.
      destruct (last (v' :: l')) eqn:Hl; [done|]. by apply last_None in Hl.
  - rewrite bool_decide_eq_false_2 by done.
    by rewrite JsMapFacts.get_set_ne.
Qed.

(** [set] under a key that is there replaces the value where it is. *)
Lemma set_present k v m :
  wf m -> is_Some (get k m) ->
  set k v m = (fun kv => if bool_decide (kv.1 = k) then (k, v) else kv) <$> m.
Proof.
  intros Hwf Hsome. induction m as [|[k' v'] m IH]; simpl.
  - by destruct Hsome.
  - unfold wf in Hwf. simpl in Hwf. apply NoDup_cons in Hwf as [Hk Hwf].
    simpl in Hsome. destruct (decide (k = k')) as [->|Hne].
    + rewrite bool_decide_eq_true_2 by done. f_equal.
      clear IH Hsome Hwf. induction m as [|[k0 v0] m IH]; simpl; [done|].
      apply not_elem_of_cons in Hk as [Hne Hk]. simpl in Hne.
      rewrite bool_decide_eq_false_2 by done. f_equal. by apply IH.
    + rewrite bool_decide_eq_false_2 by done. f_equal. by apply IH.
Qed.

Lemma set_set k v v' m : set k v (set k v' m) = set k v m.
Proof.
  induction m as [|[k0 v0] m IH]; simpl.
  - by rewrite decide_True.
  - destruct (decide (k = k0)) as [->|Hne]; simpl.
    + by rewrite decide_True.
    + rewrite decide_False by done. by rewrite IH.
Qed.

Lemma fold_left_ext_in {A B} (f g : A -> B -> A) (l : list B) a :
  (forall a x, x ∈ l -> f a x = g a x) -> fold_left f l a = fold_left g l a.
Proof.
  revert a. induction l as [|x l IH]; intros a Hfg; simpl; [done|].
  rewrite Hfg by left. apply IH. intros a' x' Hin. apply Hfg. by right.
Qed.

Lemma fold_left_fmap {A B C} (f : A -> C -> A) (g : B -> C) (l : list B) a :
  fold_left f (g <$> l) a = fold_left (fun a x => f a (g x)) l a.
Proof. revert a. induction l as [|x l IH]; intros a; simpl; [done|]. apply IH. Qed.

(** Removing the values that [P] selects, each under the key that [key_of]
    reads off it, filters a map whose values sit under those keys. *)
Lemma fold_delete_values (key_of : V -> K) (P : V -> bool) m :
  wf m ->
  (forall k v, (k, v) ∈ m -> key_of v = k) ->
  fold_left (fun acc v => if P v then delete (key_of v) acc else acc)
    (values m) m
  = List.filter (fun kv => negb (P kv.2)) m.
Proof.
  intros Hwf Hkey. unfold values. rewrite fold_left_fmap.
  rewrite (fold_left_ext_in _
             (fun acc kv => if P kv.2 then delete kv.1 acc else acc)).
  - by apply (JsMapFacts.fold_delete_filter (fun kv => P kv.2) []).
  - intros acc [k v] Hin. simpl. by rewrite (Hkey k v Hin).
Qed.

(** Once a key is gone, later deletions do not bring it back; and a
    deletion that is made takes its key out for good. *)
Lemma fold_delete_keeps_none {A} (key_of : A -> K) (P : A -> bool)
    (l : list A) m k :
  get k m = None ->
  get k (fold_left (fun m x => if P x then delete (key_of x) m else m) l m)
  = None.
Proof.
  revert m. induction l as [|x l IH]; intros m Hn; simpl; [done|].
  apply IH. destruct (P x); [|done]. by apply JsMapFacts.get_delete_None.
Qed.

Lemma fold_delete_hits {A} (key_of : A -> K) (P : A -> bool)
    (l : list A) m a :
  a ∈ l -> P a = true ->
  get (key_of a)
    (fold_left (fun m x => if P x then delete (key_of x) m else m) l m)
  = None.
Proof.
  revert m. induction l as [|x l IH]; intros m Hin HP; [by inversion Hin|].
  apply elem_of_cons in Hin as [->|Hin]; cbn [fold_left].
  - rewrite HP. apply fold_delete_keeps_none, JsMapFacts.get_delete_eq.
  - by apply IH.
Qed.
End Facts.
End JsMapIndexFacts.

(** ** The retry queue of the publisher *)
Module PublisherRetryFacts.
Import Publisher.

Section Facts.
Variable PUBLISHER_DEFAULT_TTL : number.
Variable hashMessage : string -> string.
Variable getRelayProtocolName : option PublishOptions -> ProtocolOptions.
Variable getRelayProtocolApi : string -> Error + RelayJsonRpc.Methods.

Local Abbreviation publish_begin :=
  (Publisher.publish_begin PUBLISHER_DEFAULT_TTL hashMessage
     getRelayProtocolName getRelayProtocolApi).
Local Abbreviation publish :=
  (Publisher.publish PUBLISHER_DEFAULT_TTL hashMessage getRelayProtocolName
     getRelayProtocolApi).
Local Abbreviation resubmit :=
  (Publisher.resubmit hashMessage getRelayProtocolApi).
Local Abbreviation checkQueue :=
  (Publisher.checkQueue hashMessage getRelayProtocolApi).
Local Abbreviation pulse := (Publisher.pulse hashMessage getRelayProtocolApi).
Local Abbreviation entry_of :=
  (Publisher.entry_of PUBLISHER_DEFAULT_TTL getRelayProtocolName).
Local Abbreviation Reachable :=
  (Publisher.Reachable PUBLISHER_DEFAULT_TTL hashMessage getRelayProtocolName
     getRelayProtocolApi).

(** Every entry sits under the fingerprint of its own message, and no
    fingerprint is there twice. *)
Local Abbreviation keyed q :=
  (JsMap.wf q
   /\ forall k (e : Params), (k, e) ∈ q -> k = hashMessage (message e)).

Lemma publish_begin_queue topic message opts p :
  queue (publish_begin topic message opts p).1
  = JsMap.set (hashMessage message) (entry_of topic message opts) (queue p).
Proof.
  rewrite PublisherFacts.publish_begin_unfold. cbv zeta.
  by destruct (getRelayProtocolApi _).
Qed.

Lemma keyed_set topic message opts (q : JsMap.t string Params) :
  keyed q ->
  keyed (JsMap.set (hashMessage message) (entry_of topic message opts) q).
Proof.
  intros [Hwf Hkey]. split; [by apply JsMapFacts.wf_set|].
  intros k e Hin. apply JsMapIndexFacts.elem_set in Hin as [[= -> ->]|Hin];
    [done|by apply Hkey].
Qed.

Lemma keyed_delete k0 (q : JsMap.t string Params) :
  keyed q -> keyed (JsMap.delete k0 q).
Proof.
  intros [Hwf Hkey]. split; [by apply JsMapFacts.wf_delete|].
  intros k e Hin. apply JsMapIndexFacts.elem_delete in Hin as [Hin _].
  by apply Hkey.
Qed.

Lemma reachable_keyed p : Reachable p -> keyed (queue p).
Proof.
  induction 1 as [|topic message opts p Hr IH
                  |topic message opts p0 pd o p Hr0 IH0 Hpd Hr IH
                  |p Hr IH|p0 pd o p Hr0 IH0 Hpd Hr IH].
  - split; [apply JsMapFacts.wf_empty|]. intros k e Hin. inversion Hin.
  - rewrite publish_begin_queue. by apply keyed_set.
  - destruct o as [v|e]; simpl; [by apply keyed_delete|done].
  - by rewrite (proj2 (PublisherFacts.checkQueue_results _ _ p)).
  - destruct o as [v|e]; simpl; [by apply keyed_delete|done].
Qed.

(** The entry was sent again and the provider took it. *)
Local Abbreviation acknowledged provider p :=
  (fun kv : string * Params =>
     match (resubmit kv.2 p).2 with
     | inl _ => false
     | inr pd =>
         match provider (request pd) with
         | Fulfilled _ => true
         | Rejected _ => false
         end
     end).

Lemma settle_fold provider p (l : list (string * Params)) q :
  let q' :=
    fold_left
      (fun q r =>
         match r with
         | inl _ => q
         | inr pd => resubmit_settle pd (provider (request pd)) q
         end)
      ((fun kv => (resubmit kv.2 p).2) <$> l) q in
  queue q'
  = fold_left
      (fun m kv =>
         if acknowledged provider p kv
         then JsMap.delete (hashMessage (message kv.2)) m else m)
      l (queue q)
  /\ effects q' = effects q.
Proof.
  cbv zeta. revert q. induction l as [|[k entry] l IH]; intros q; [done|].
  rewrite fmap_cons. cbn [fold_left snd].
  match goal with
  | |- context [fold_left _ (_ <$> l) ?x] => destruct (IH x) as [-> ->]
  end.
  rewrite PublisherFacts.resubmit_unfold.
  destruct (getRelayProtocolApi _) as [e|api]; cbn [snd]; [done|].
  by destruct (provider _).
Qed.

Lemma pulse_queue provider p :
  keyed (queue p) ->
  queue (pulse provider p)
  = List.filter (fun kv => negb (acknowledged provider p kv)) (queue p).
Proof.
  intros [Hwf Hkey]. unfold Publisher.pulse.
  destruct (PublisherFacts.checkQueue_results hashMessage getRelayProtocolApi p)
    as [Hsent Hq].
  destruct (checkQueue p) as [p' sent]. simpl in Hsent, Hq. subst sent.
  destruct (settle_fold provider p (queue p) p') as [-> _]. rewrite Hq.
  rewrite (JsMapIndexFacts.fold_left_ext_in _
             (fun m kv =>
                if acknowledged provider p kv then JsMap.delete kv.1 m else m)).
  - by apply (JsMapFacts.fold_delete_filter (acknowledged provider p) []).
  - intros m [k e] Hin. simpl. by rewrite <- (Hkey k e Hin).
Qed.

Lemma pulse_effects provider p :
  effects (pulse provider p) = effects (checkQueue p).1.
Proof.
  unfold Publisher.pulse.
  destruct (PublisherFacts.checkQueue_results hashMessage getRelayProtocolApi p)
    as [Hsent _].
  destruct (checkQueue p) as [p' sent]. simpl in Hsent. subst sent.
  by destruct (settle_fold provider p (queue p) p') as [_ ->].
Qed.

(** X1. After a heartbeat pulse whose requests have all settled, the queue
    of a reachable publisher holds, in their old order, exactly the entries
    that could not be sent or whose request the provider rejected; the
    entries whose request it fulfilled are gone. *)
Theorem pulse_keeps_what_was_not_acknowledged provider p
    (Hreach : Reachable p) :
  queue (pulse provider p)
  = List.filter
      (fun kv =>
         match (resubmit kv.2 p).2 with
         | inl _ => true
         | inr pd =>
             match provider (request pd) with
             | Fulfilled _ => false
             | Rejected _ => true
             end
         end)
      (queue p).
Proof.
  rewrite pulse_queue by by apply reachable_keyed.
  apply filter_ext. intros [k e]. simpl.
  destruct (resubmit e p).2 as [err|pd]; [done|]. by destruct (provider _).
Qed.

Lemma pulse_rejecting err p :
  queue (pulse (fun _ => Rejected err) p) = queue p.
Proof.
  unfold Publisher.pulse.
  destruct (PublisherFacts.checkQueue_results hashMessage getRelayProtocolApi p)
    as [Hsent Hq].
  destruct (checkQueue p) as [p' sent]. simpl in Hsent, Hq. subst sent.
  destruct (settle_fold (fun _ => Rejected err) p (queue p) p') as [-> _].
  rewrite Hq. generalize (queue p) at 2 3. intros m.
  induction (queue p) as [|kv l IH] in m |- *; simpl; [done|].
  destruct (resubmit kv.2 p).2; apply IH.
Qed.

(** X2. Retry until success.  An entry of a reachable publisher whose relay
    protocol is supported stays in the queue, with the whole queue, through
    any number of pulses whose requests are rejected, and is gone after the
    first pulse whose requests are fulfilled. *)
Theorem retry_until_acknowledged k entry api p
    (Hreach : Reachable p)
    (Hqueued : JsMap.get k (queue p) = Some entry)
    (Hapi : getRelayProtocolApi (protocol (opts_relay (opts entry))) = inr api) :
  forall n err v,
    let failed := Nat.iter n (pulse (fun _ => Rejected err)) p in
    queue failed = queue p
    /\ JsMap.get k (queue failed) = Some entry
    /\ JsMap.get k (queue (pulse (fun _ => Fulfilled v) failed)) = None.
Proof.
  intros n err v failed.
  assert (Hq : queue failed = queue p).
  { subst failed. induction n as [|n IH]; simpl; [done|].
    by rewrite pulse_rejecting. }
  split; [done|]. split; [by rewrite Hq|].
  pose proof (reachable_keyed p Hreach) as Hkeyed. rewrite <- Hq in Hkeyed.
  rewrite pulse_queue by done. rewrite Hq.
  apply JsMapFacts.get_None_keys. unfold JsMap.keys.
  intros Hin. apply list_elem_of_fmap in Hin as ([k' e'] & Hk & Hin).
  simpl in Hk. subst k'.
  apply list_elem_of_In, filter_In in Hin as [Hin Hack].
  apply list_elem_of_In in Hin.
  destruct (reachable_keyed p Hreach) as [Hwf _].
  rewrite (JsMapFacts.elem_get k e' (queue p) Hwf Hin) in Hqueued.
  injection Hqueued as ->. simpl in Hack.
  rewrite PublisherFacts.resubmit_unfold, Hapi in Hack. done.
Qed.

Lemma keyed_filter (P : string * Params -> bool) (q : JsMap.t string Params) :
  keyed q -> keyed (List.filter P q).
Proof.
  intros [Hwf Hkey]. split.
  - unfold JsMap.wf, JsMap.keys in *. revert Hwf.
    induction q as [|kv q IH]; simpl; [done|].
    intros Hnd. apply NoDup_cons in Hnd as [Hk Hnd].
    destruct (P kv); simpl.
    + apply NoDup_cons. split.
      * intros Hin. apply Hk.
        apply list_elem_of_fmap in Hin as (kv' & -> & Hin).
        apply list_elem_of_fmap_2. apply list_elem_of_In in Hin.
        apply filter_In in Hin as [Hin _]. by apply list_elem_of_In.
      * apply IH; [|done]. intros k e Hin. apply Hkey. by right.
    + apply IH; [|done]. intros k e Hin. apply Hkey. by right.
  - intros k e Hin. apply list_elem_of_In, filter_In in Hin as [Hin _].
    by apply Hkey, list_elem_of_In.
Qed.

Lemma get_filter_kept (P : string * Params -> bool) k entry
    (q : JsMap.t string Params) :
  JsMap.get k q = Some entry -> P (k, entry) = true ->
  JsMap.get k (List.filter P q) = Some entry.
Proof.
  intros Hget HP. induction q as [|[k' e'] q IH]; simpl in *; [done|].
  destruct (decide (k = k')) as [->|Hne].
  - injection Hget as ->. rewrite HP. simpl. by rewrite decide_True.
  - destruct (P (k', e')); simpl; [rewrite decide_False by done|]; by apply IH.
Qed.

(** X3. No pulse sends or removes an entry whose relay protocol
    [getRelayProtocolApi] does not know: through any sequence of pulses,
    whatever the provider does, its resubmission fails with the error of
    the protocol table before any request is made, and the entry is still
    in the queue after each of them.  (Another [publish] of the same
    message takes the place of the entry; this is about pulses.) *)
Theorem pulses_leave_unsupported_entry_queued k entry err p
    (Hreach : Reachable p)
    (Hqueued : JsMap.get k (queue p) = Some entry)
    (Hapi : getRelayProtocolApi (protocol (opts_relay (opts entry)))
            = inl err) :
  forall providers : list (RequestArguments -> Settled JsValue),
    let later := fold_left (fun p provider => pulse provider p) providers p in
    JsMap.get k (queue later) = Some entry
    /\ (resubmit entry later).2 = inl err
    /\ forall provider,
         JsMap.get k (queue (pulse provider later)) = Some entry.
Proof.
  intros providers later.
  assert (Hre : forall q, (resubmit entry q).2 = inl err).
  { intros q. by rewrite PublisherFacts.resubmit_unfold, Hapi. }
  assert (Hstep : forall provider q,
    keyed (queue q) -> JsMap.get k (queue q) = Some entry ->
    keyed (queue (pulse provider q))
    /\ JsMap.get k (queue (pulse provider q)) = Some entry).
  { intros provider q Hk Hg. rewrite pulse_queue by done. split.
    - by apply keyed_filter.
    - apply get_filter_kept; [done|]. simpl. by rewrite Hre. }
  assert (Hlater : keyed (queue later)
                   /\ JsMap.get k (queue later) = Some entry).
  { subst later. pose proof (reachable_keyed p Hreach) as Hk.
    clear Hreach. revert p Hk Hqueued.
    induction providers as [|provider providers IH]; intros p Hk Hg; simpl;
      [done|].
    destruct (Hstep provider p Hk Hg) as [Hk' Hg']. by apply IH. }
  destruct Hlater as [Hk Hg].
  split; [done|]. split; [apply Hre|].
  intros provider. by apply Hstep.
Qed.

(** X4. The fingerprint is taken of the message alone.  Publishing a message
    that is already queued, under whatever topic and options, puts no second
    entry in the queue: the new entry takes the place of the old one.  Then
    the first acknowledgment of either attempt removes it, and a later
    failure of the other attempt leaves the queue without it, so that
    failed attempt is not retried. *)
Theorem same_message_shares_one_entry topic1 opts1 topic2 opts2 message p :
  let fingerprint := hashMessage message in
  let p1 := (publish_begin topic1 message opts1 p).1 in
  let p2 := (publish_begin topic2 message opts2 p1).1 in
  JsMap.keys (queue p2) = JsMap.keys (queue p1)
  /\ JsMap.get fingerprint (queue p1) = Some (entry_of topic1 message opts1)
  /\ JsMap.get fingerprint (queue p2) = Some (entry_of topic2 message opts2)
  /\ match (publish_begin topic1 message opts1 p).2,
           (publish_begin topic2 message opts2 p1).2 with
     | inr pd1, inr pd2 =>
         forall v e,
           let p3 := (publish_settle pd1 (Fulfilled v) p2).1 in
           let p4 := (publish_settle pd2 (Rejected e) p3).1 in
           JsMap.get fingerprint (queue p3) = None
           /\ (publish_settle pd2 (Rejected e) p3).2 = inl e
           /\ JsMap.get fingerprint (queue p4) = None
     | _, _ => True
     end.
Proof.
  intros fingerprint p1 p2.
  assert (H1 : queue p1 = JsMap.set fingerprint
                            (entry_of topic1 message opts1) (queue p))
    by apply publish_begin_queue.
  assert (H2 : queue p2 = JsMap.set fingerprint
                            (entry_of topic2 message opts2) (queue p1))
    by apply publish_begin_queue.
  split; [|split; [|split]].
  - rewrite H2. apply JsMapFacts.keys_set_has. rewrite H1.
    rewrite JsMapFacts.get_set_eq. eauto.
  - rewrite H1. apply JsMapFacts.get_set_eq.
  - rewrite H2. apply JsMapFacts.get_set_eq.
  - pose proof (PublisherFacts.publish_begin_unfold PUBLISHER_DEFAULT_TTL
                  hashMessage getRelayProtocolName getRelayProtocolApi
                  topic1 message opts1 p) as Hb1.
    pose proof (PublisherFacts.publish_begin_unfold PUBLISHER_DEFAULT_TTL
                  hashMessage getRelayProtocolName getRelayProtocolApi
                  topic2 message opts2 p1) as Hb2.
    cbv zeta in Hb1, Hb2.
    destruct (getRelayProtocolApi
                (protocol (opts_relay
                             (Publisher.opts (entry_of topic1 message opts1)))))
      as [e1|api1]; rewrite Hb1; [done|].
    destruct (getRelayProtocolApi
                (protocol (opts_relay
                             (Publisher.opts (entry_of topic2 message opts2)))))
      as [e2|api2]; rewrite Hb2; [done|].
    cbn [snd]. intros v e. cbn [publish_settle fst snd hash onPublish
                                 set_queue log queue publish_catch].
    split; [apply JsMapFacts.get_delete_eq|]. split; [done|].
    apply JsMapFacts.get_delete_eq.
Qed.

Lemma checkQueue_invoked p :
  invoked (effects (checkQueue p).1)
  = invoked (effects p)
    ++ omap (fun kv => match (resubmit kv.2 p).2 with
                       | inl _ => None
                       | inr pd => Some (request pd)
                       end) (queue p).
Proof.
  unfold Publisher.checkQueue, JsMap.forEach.
  assert (Hgen : forall (m : list (string * Params)) (q : Publisher) acc,
    invoked
      (effects
         (fold_left
            (fun (acc : Publisher * list (Error + Pending)) kv =>
               let '(p', r) := resubmit kv.2 acc.1 in (p', acc.2 ++ [r]))
            m (q, acc)).1)
    = invoked (effects q)
      ++ omap (fun kv => match (resubmit kv.2 p).2 with
                         | inl _ => None
                         | inr pd => Some (request pd)
                         end) m).
  { induction m as [|[k entry] m IH]; intros q acc.
    - by rewrite app_nil_r.
    - cbn [fold_left fst snd omap list_omap].
      rewrite (PublisherFacts.resubmit_unfold _ _ entry q).
      rewrite (PublisherFacts.resubmit_unfold _ _ entry p).
      destruct (getRelayProtocolApi _) as [e|api]; cbn [fst snd];
        rewrite IH; [done|].
      cbn [effects]. rewrite invoked_app. simpl. by rewrite <- app_assoc. }
  apply Hgen.
Qed.

(** X5. The sweep sends one request for every entry of the queue whose relay
    protocol is supported, in the order of the queue, and nothing else; it
    leaves the queue as it is until a request settles.  The request of an
    entry has the method of its protocol and the topic, message and ttl
    that the entry holds. *)
Theorem sweep_sends_every_entry_once p :
  queue (checkQueue p).1 = queue p
  /\ invoked (effects (checkQueue p).1)
     = invoked (effects p)
       ++ omap (fun kv => match (resubmit kv.2 p).2 with
                          | inl _ => None
                          | inr pd => Some (request pd)
                          end) (queue p)
  /\ Forall
       (fun kv =>
          match (resubmit kv.2 p).2,
                getRelayProtocolApi (protocol (opts_relay (opts kv.2))) with
          | inr pd, inr api =>
              hash pd = hashMessage (message kv.2)
              /\ queued pd = kv.2
              /\ method (request pd) = RelayJsonRpc.publish api
              /\ params (request pd) !! "topic" = Some (VStr (topic kv.2))
              /\ params (request pd) !! "message" = Some (VStr (message kv.2))
              /\ params (request pd) !! "ttl"
                 = Some (VNum (opts_ttl (opts kv.2)))
              /\ dom (params (request pd))
                 = ({["topic"; "message"; "ttl"]} : gset string)
          | inl e, inl e' => e = e'
          | _, _ => False
          end)
       (queue p).
Proof.
  split; [apply PublisherFacts.checkQueue_results|].
  split; [apply checkQueue_invoked|].
  apply Forall_forall. intros [k entry] _. cbn [snd].
  rewrite PublisherFacts.resubmit_unfold.
  destruct (getRelayProtocolApi _) as [e|api]; cbn [snd]; [done|].
  cbn [request hash queued method params].
  split; [done|]. split; [done|]. split; [done|].
  split; [by rewrite !lookup_insert_ne, lookup_singleton_eq|].
  split; [by rewrite lookup_insert_ne, lookup_insert_eq|].
  split; [by rewrite lookup_insert_eq|].
  rewrite !dom_insert_L, dom_singleton_L. set_solver.
Qed.
Lemma checkQueue_logged lvl p :
  logged lvl (effects (checkQueue p).1)
  = logged lvl (effects p)
    ++ concat
         ((fun kv =>
             match (resubmit kv.2 p).2 with
             | inl _ => []
             | inr _ =>
                 match lvl with
                 | Debug => [Text "Outgoing Relay Payload"]
                 | Trace => [Entry "message" "outgoing"]
                 | _ => []
                 end
             end) <$> queue p).
Proof.
  unfold Publisher.checkQueue, JsMap.forEach.
  assert (Hgen : forall (m : list (string * Params)) (q : Publisher) acc,
    logged lvl
      (effects
         (fold_left
            (fun (acc : Publisher * list (Error + Pending)) kv =>
               let '(p', r) := resubmit kv.2 acc.1 in (p', acc.2 ++ [r]))
            m (q, acc)).1)
    = logged lvl (effects q)
      ++ concat
           ((fun kv =>
               match (resubmit kv.2 p).2 with
               | inl _ => []
               | inr _ =>
                   match lvl with
                   | Debug => [Text "Outgoing Relay Payload"]
                   | Trace => [Entry "message" "outgoing"]
                   | _ => []
                   end
               end) <$> m)).
  { induction m as [|[k entry] m IH]; intros q acc.
    - simpl. by rewrite app_nil_r.
    - cbn [fold_left fst snd fmap list_fmap concat].
      rewrite (PublisherFacts.resubmit_unfold _ _ entry q).
      rewrite (PublisherFacts.resubmit_unfold _ _ entry p).
      destruct (getRelayProtocolApi _) as [e|api]; cbn [fst snd];
        rewrite IH; [done|].
      cbn [effects]. rewrite logged_app, <- app_assoc. f_equal. f_equal.
      destruct lvl; reflexivity. }
  apply Hgen.
Qed.

(** X22. Only [publish] reports a failure.  When [publish] fails, because
    the relay protocol is not known or because the provider rejects the
    request, the reason is logged once as an error, and it is the reason
    thrown to the caller; when it succeeds no error is logged.  A heartbeat
    pulse logs no error whatever happens to the entries it sends again, and
    its log at the other levels is the one of the requests it made. *)
Theorem only_publish_reports_failures provider topic message opts p :
  match publish provider topic message opts p with
  | (p', inl e) => logged Err (effects p') = logged Err (effects p) ++ [Caught e]
  | (p', inr _) => logged Err (effects p') = logged Err (effects p)
  end
  /\ logged Err (effects (pulse provider p)) = logged Err (effects p)
  /\ logged Debug (effects (pulse provider p))
     = logged Debug (effects p)
       ++ ((fun _ => Text "Outgoing Relay Payload")
           <$> List.filter
                 (fun kv => match (resubmit kv.2 p).2 with
                            | inl _ => false
                            | inr _ => true
                            end)
                 (queue p)).
Proof.
  split; [|split].
  - unfold Publisher.publish. rewrite PublisherFacts.publish_begin_unfold.
    cbv zeta. destruct (getRelayProtocolApi _) as [e|api].
    + destruct p as [q tr]. simpl. rewrite !logged_app. simpl.
      by rewrite !app_nil_r.
    + cbn [request]. destruct (provider _) as [v|e];
        destruct p as [q tr]; simpl; rewrite !logged_app; simpl;
        by rewrite ?app_nil_r.
  - rewrite pulse_effects, checkQueue_logged.
    rewrite <- (app_nil_r (logged Err (effects p))) at 2. f_equal.
    generalize (queue p). intros m.
    induction m as [|kv m IH]; [done|]. rewrite fmap_cons. cbn [concat].
    rewrite IH. by destruct (resubmit kv.2 p).2.
  - rewrite pulse_effects, checkQueue_logged. f_equal.
    generalize (queue p). intros m.
    induction m as [|kv m IH]; [done|].
    rewrite fmap_cons. cbn [concat List.filter]. rewrite IH.
    by destruct (resubmit kv.2 p).2.
Qed.

(** A pulse whose requests are all fulfilled takes out of the queue every
    entry it could send. *)
Lemma fulfilled_pulse_removes k entry api v p :
  JsMap.get k (queue p) = Some entry ->
  getRelayProtocolApi (protocol (opts_relay (opts entry))) = inr api ->
  JsMap.get (hashMessage (message entry))
    (queue (pulse (fun _ => Fulfilled v) p))
  = None.
Proof.
  intros Hg Hapi. unfold Publisher.pulse.
  destruct (PublisherFacts.checkQueue_results hashMessage getRelayProtocolApi p)
    as [Hsent Hq].
  destruct (checkQueue p) as [p' sent]. simpl in Hsent, Hq. subst sent.
  destruct (settle_fold (fun _ => Fulfilled v) p (queue p) p') as [-> _].
  apply (JsMapIndexFacts.fold_delete_hits
           (fun kv : string * Params => hashMessage (message kv.2))
           (acknowledged (fun _ => Fulfilled v) p) (queue p) (queue p')
           (k, entry)).
  - by apply JsMapFacts.get_Some_elem.
  - simpl. by rewrite PublisherFacts.resubmit_unfold, Hapi.
Qed.

(** C1, as the code has it.  [publish] puts the entry
    [{topic, message, opts}] in the queue under the fingerprint of the
    message before it makes the request: the entry is queued also where no
    request is made because the relay protocol is not known, and it is
    queued while the request is in flight.  Once the request is fulfilled
    the fingerprint is taken out of the queue as it is by then.  Once the
    request is rejected, [publish] leaves the queue as it finds it and
    throws the reason to the caller: the entry is still there when nothing
    else ran in between, and it is not when a heartbeat pulse has sent the
    entry again in between and that request was fulfilled. *)
Theorem publish_queues_until_acknowledged topic message opts p :
  let fingerprint := hashMessage message in
  let entry := entry_of topic message opts in
  let p1 := (publish_begin topic message opts p).1 in
  queue p1 = JsMap.set fingerprint entry (queue p)
  /\ JsMap.get fingerprint (queue p1) = Some entry
  /\ match (publish_begin topic message opts p).2 with
     | inl e =>
         getRelayProtocolApi (protocol (opts_relay (Publisher.opts entry)))
         = inl e
         /\ invoked (effects p1) = invoked (effects p)
         /\ logged Err (effects p1) = logged Err (effects p) ++ [Caught e]
         /\ forall provider,
              publish provider topic message opts p = (p1, inl e)
     | inr pd =>
         hash pd = fingerprint /\ queued pd = entry
         /\ invoked (effects p1) = invoked (effects p) ++ [request pd]
         /\ (forall v p2,
               queue (publish_settle pd (Fulfilled v) p2).1
               = JsMap.delete fingerprint (queue p2)
               /\ JsMap.get fingerprint
                    (queue (publish_settle pd (Fulfilled v) p2).1)
                  = None
               /\ (publish_settle pd (Fulfilled v) p2).2 = inr tt)
         /\ (forall e p2,
               queue (publish_settle pd (Rejected e) p2).1 = queue p2
               /\ (publish_settle pd (Rejected e) p2).2 = inl e)
         /\ (forall provider,
               publish provider topic message opts p
               = publish_settle pd (provider (request pd)) p1)
         /\ (forall e,
               JsMap.get fingerprint
                 (queue (publish_settle pd (Rejected e) p1).1)
               = Some entry)
         /\ (forall v e,
               let p2 := pulse (fun _ => Fulfilled v) p1 in
               JsMap.get fingerprint (queue p2) = None
               /\ (publish_settle pd (Rejected e) p2).2 = inl e
               /\ JsMap.get fingerprint
                    (queue (publish_settle pd (Rejected e) p2).1)
                  = None)
     end
  /\ forall provider,
       match publish provider topic message opts p with
       | (p', inr _) => JsMap.get fingerprint (queue p') = None
       | (p', inl _) => JsMap.get fingerprint (queue p') = Some entry
       end.
Proof.
  intros fingerprint entry p1.
  assert (Hq : queue p1 = JsMap.set fingerprint entry (queue p))
    by apply publish_begin_queue.
  assert (Hg : JsMap.get fingerprint (queue p1) = Some entry)
    by (rewrite Hq; apply JsMapFacts.get_set_eq).
  split; [done|]. split; [done|]. split.
  - assert (Hpulse : forall api v,
              getRelayProtocolApi
                (protocol (opts_relay (Publisher.opts entry))) = inr api ->
              JsMap.get fingerprint (queue (pulse (fun _ => Fulfilled v) p1))
              = None).
    { intros api v Hapi.
      exact (fulfilled_pulse_removes fingerprint entry api v p1 Hg Hapi). }
    revert Hg Hpulse. subst p1. unfold Publisher.publish.
    rewrite PublisherFacts.publish_begin_unfold.
    fold entry fingerprint. cbv zeta.
    destruct (getRelayProtocolApi _) as [e|api] eqn:Hapi;
      cbn [fst snd]; intros Hg Hpulse.
    + split; [done|]. destruct p as [q tr]. simpl.
      rewrite !invoked_app, !logged_app. simpl. by rewrite ?app_nil_r.
    + split; [done|]. split; [done|].
      split; [destruct p as [q tr]; simpl; rewrite !invoked_app; simpl;
              by rewrite ?app_nil_r|].
      split; [intros v p2; split; [done|];
              split; [apply JsMapFacts.get_delete_eq|done]|].
      split; [done|]. split; [done|]. split; [intros e; exact Hg|].
      intros v e. cbv zeta.
      assert (Hnone := Hpulse api v eq_refl). by repeat split.
  - intros provider. unfold Publisher.publish.
    rewrite PublisherFacts.publish_begin_unfold.
    fold entry fingerprint. cbv zeta.
    destruct (getRelayProtocolApi _) as [e|api] eqn:Hapi; simpl.
    + apply JsMapFacts.get_set_eq.
    + destruct (provider _) as [v|e]; simpl.
      * apply JsMapFacts.get_delete_eq.
      * apply JsMapFacts.get_set_eq.
Qed.
End Facts.
End PublisherRetryFacts.

(** ** The index of the history *)
Module HistoryIndexFacts.
Import History.

Section Facts.
Variable HISTORY_CONTEXT : string.
Variable HISTORY_STORAGE_VERSION : string.
Variable CLIENT_STORAGE_PREFIX : string.
Variable HISTORY_EVENTS : EVENTS.name -> string.
Variable formatJsonRpcRequest : string -> JsValue -> Z -> JsonRpcRequest.

Local Abbreviation storageKey :=
  (History.storageKey HISTORY_CONTEXT HISTORY_STORAGE_VERSION
     CLIENT_STORAGE_PREFIX).
Local Abbreviation emit :=
  (History.emit HISTORY_CONTEXT HISTORY_STORAGE_VERSION CLIENT_STORAGE_PREFIX
     HISTORY_EVENTS).
Local Abbreviation run :=
  (History.run HISTORY_CONTEXT HISTORY_STORAGE_VERSION CLIENT_STORAGE_PREFIX
     HISTORY_EVENTS).
Local Abbreviation call :=
  (History.call HISTORY_CONTEXT HISTORY_STORAGE_VERSION CLIENT_STORAGE_PREFIX
     HISTORY_EVENTS).
Local Abbreviation set :=
  (History.set HISTORY_CONTEXT HISTORY_STORAGE_VERSION CLIENT_STORAGE_PREFIX
     HISTORY_EVENTS).
Local Abbreviation resolve :=
  (History.resolve HISTORY_CONTEXT HISTORY_STORAGE_VERSION
     CLIENT_STORAGE_PREFIX HISTORY_EVENTS).
Local Abbreviation get :=
  (History.get HISTORY_CONTEXT HISTORY_STORAGE_VERSION CLIENT_STORAGE_PREFIX
     HISTORY_EVENTS).
Local Abbreviation delete :=
  (History.delete HISTORY_CONTEXT HISTORY_STORAGE_VERSION
     CLIENT_STORAGE_PREFIX HISTORY_EVENTS).
Local Abbreviation exists_ :=
  (History.exists_ HISTORY_CONTEXT HISTORY_STORAGE_VERSION
     CLIENT_STORAGE_PREFIX HISTORY_EVENTS).
Local Abbreviation exists_lookup := (History.exists_lookup HISTORY_CONTEXT).
Local Abbreviation pending := (History.pending formatJsonRpcRequest).
Local Abbreviation restore := (History.restore HISTORY_CONTEXT).
Local Abbreviation init_begin :=
  (History.init_begin HISTORY_CONTEXT HISTORY_STORAGE_VERSION
     CLIENT_STORAGE_PREFIX).
Local Abbreviation onInit :=
  (History.onInit HISTORY_CONTEXT HISTORY_STORAGE_VERSION
     CLIENT_STORAGE_PREFIX HISTORY_EVENTS).
Local Abbreviation initialize_resume :=
  (History.initialize_resume HISTORY_CONTEXT HISTORY_STORAGE_VERSION
     CLIENT_STORAGE_PREFIX HISTORY_EVENTS).
Local Abbreviation init :=
  (History.init HISTORY_CONTEXT HISTORY_STORAGE_VERSION CLIENT_STORAGE_PREFIX
     HISTORY_EVENTS).
Local Abbreviation Reachable :=
  (History.Reachable HISTORY_CONTEXT HISTORY_STORAGE_VERSION
     CLIENT_STORAGE_PREFIX HISTORY_EVENTS).

(** Every record sits under its own id, and no id is there twice. *)
Local Abbreviation keyed m :=
  (JsMap.wf m /\ forall k (r : JsonRpcRecord), (k, r) ∈ m -> id r = k).

Ltac index_unfold :=
  cbv beta iota zeta delta
    [History.set History.resolve History.get History.delete History.exists_
     History.call History.run
     History.set_ready History.resolve_ready History.get_ready
     History.exists_ready History.exists_check History.exists_lookup
     History.getRecord History.emit History.persist
     History.log History.effect History.set_records History.set_cached
     History.set_waiting History.values History.name JsMap.has
     History.records History.cached History.waiting History.effects
     History.id History.response fst snd negb].

Ltac index_ready h H :=
  apply HistoryFacts.isInitialized_cached in H; destruct h as [?m ?c ?w ?tr];
  simpl in H; subst.

Ltac trace_simpl :=
  rewrite ?emitted_app, ?invoked_app, ?logged_app; simpl;
  rewrite ?app_nil_r, <- ?app_assoc; simpl.

Lemma index_keyed_set (r : JsonRpcRecord) (m : JsMap.t Z JsonRpcRecord) :
  keyed m -> keyed (JsMap.set (id r) r m).
Proof.
  intros [Hwf Hkey]. split; [by apply JsMapFacts.wf_set|].
  intros k r' Hin. apply JsMapIndexFacts.elem_set in Hin as [[= -> ->]|Hin];
    [done|by apply Hkey].
Qed.

Lemma index_keyed_delete k0 (m : JsMap.t Z JsonRpcRecord) :
  keyed m -> keyed (JsMap.delete k0 m).
Proof.
  intros [Hwf Hkey]. split; [by apply JsMapFacts.wf_delete|].
  intros k r Hin. apply JsMapIndexFacts.elem_delete in Hin as [Hin _].
  by apply Hkey.
Qed.

Lemma fold_keeps_keyed {A} (step : JsonRpcHistory -> A -> JsonRpcHistory)
    (l : list A) h :
  (forall h a, keyed (records h) -> keyed (records (step h a))) ->
  keyed (records h) -> keyed (records (fold_left step l h)).
Proof.
  intros Hstep. revert h. induction l as [|a l IH]; intros h Hk; simpl;
    [done|].
  by apply IH, Hstep.
Qed.

Lemma emit_records n record h : records (emit n record h) = records h.
Proof. by destruct n, h. Qed.

Lemma run_keyed c h : keyed (records h) -> keyed (records (run c h).1).
Proof.
  intros Hk.
  destruct c as [topic request chainId|response|topic id|topic id|topic id].
  - destruct h as [m c w tr]. index_unfold.
    destruct (JsMap.get _ _); [done|].
    by apply (index_keyed_set {| id := req_id request; topic := topic;
                           request := _; chainId := chainId;
                           response := None |}).
  - destruct h as [m c w tr]. index_unfold.
    destruct (JsMap.get (response_id response) m) as [record|] eqn:Hg;
      [|done].
    destruct record as [rid rtopic rrequest rchain [answer|]]; [done|].
    index_unfold. simpl in Hk.
    pose proof (proj2 Hk _ _ (JsMapFacts.get_Some_elem _ _ _ Hg)) as Hid.
    simpl in Hid. subst rid.
    match goal with
    | |- context [JsMap.set _ ?r (JsMap.set _ ?r m)] =>
        apply (index_keyed_set r), (index_keyed_set r)
    end.
    done.
  - destruct h as [m c w tr]. index_unfold.
    by destruct (JsMap.get _ _) as [record|]; [destruct (bool_decide _)|].
  - unfold History.run, History.delete_ready. cbv zeta. cbn [fst].
    apply fold_keeps_keyed; [|by destruct h].
    intros h' record Hk'. destruct (bool_decide _); [|done].
    destruct id as [id'|]; [destruct (bool_decide _); [done|]|];
      rewrite emit_records; destruct h'; by apply index_keyed_delete.
  - destruct h as [m c w tr]. index_unfold. by destruct (JsMap.get _ _).
Qed.

Lemma index_reachable_keyed h : Reachable h -> keyed (records h).
Proof.
  induction 1 as [|c h Hr IH|h Hr IH|persisted h Hr IH|h Hr IH|h Hr IH].
  - split; [apply JsMapFacts.wf_empty|]. intros k r Hin. inversion Hin.
  - unfold History.call. destruct (isInitialized h).
    + pose proof (run_keyed c h IH) as Hk. by destruct (run c h).
    + by destruct h.
  - by destruct h.
  - unfold History.restore.
    destruct persisted as [[backlog|]|e]; [|done|by destruct h].
    destruct (bool_decide _); [done|]. destruct (negb _); by destruct h.
  - unfold History.initialize_resume, History.onInit. cbv zeta.
    assert (Hreset : keyed (records (reset h))).
    { unfold reset. apply fold_keeps_keyed; [|done].
      intros h' r Hk'. destruct h'. by apply index_keyed_set. }
    match goal with
    | |- context [fold_left ?f ?l (?x, ?a)] =>
        assert (Hgen : forall l' y b,
                  keyed (records y) -> keyed (records (fold_left f l' (y, b)).1))
    end.
    { induction l' as [|c l' IHl]; intros y b Hy; simpl; [done|].
      pose proof (run_keyed c y Hy) as Hk. destruct (run c y) as [y' r].
      by apply IHl. }
    apply Hgen. by destruct (reset h).
  - by destruct h.
Qed.

(** X6. The index is keyed by the id of the record: in every reachable
    history the record found under an id has that id. *)
Theorem records_are_keyed_by_id h k record
    (Hreach : Reachable h)
    (Hfound : JsMap.get k (records h) = Some record) :
  id record = k.
Proof.
  destruct (index_reachable_keyed h Hreach) as [_ Hkey].
  by apply Hkey, JsMapFacts.get_Some_elem.
Qed.

(** The request event that [pending] makes of a record. *)
Local Abbreviation envelope :=
  (fun record : JsonRpcRecord =>
     {| event_topic := topic record;
        event_request :=
          formatJsonRpcRequest (method (request record))
            (params (request record)) (id record);
        event_chainId := chainId record |}).

Lemma pending_values h :
  pending h
  = envelope
    <$> List.filter (fun record => bool_decide (response record = None))
          (values h).
Proof. unfold History.pending. by rewrite HistoryFacts.pending_fold. Qed.

(** X8. [set] with an id that is not in the index, on a history that lets
    calls through: the new record goes to the end of the index, under its
    id and without a response; one created event carries it; the storage is
    written once, with the old values followed by the new record; and
    [pending] is the old list followed by the request of the new record. *)
Theorem set_appends_and_persists topic request chainId h
    (Hready : isInitialized h = true)
    (Hnew : JsMap.get (req_id request) (records h) = None) :
  let record :=
    {| id := req_id request;
       topic := topic;
       request := {| method := req_method request;
                     params := if truthy (req_params request)
                               then req_params request else VNull |};
       chainId := chainId;
       response := None |} in
  let '(h', r) := set topic request chainId h in
  r = Some (inr void)
  /\ records h' = records h ++ [(req_id request, record)]
  /\ values h' = values h ++ [record]
  /\ emitted (effects h')
     = emitted (effects h)
       ++ [{| event_name := EVENTS.created; event_record := Some record |}]
  /\ invoked (effects h')
     = invoked (effects h) ++ [setItem storageKey (values h ++ [record])]
  /\ pending h' = pending h ++ [envelope record].
Proof.
  intros record.
  assert (Hp : forall h1 h2,
            values h2 = values h1 ++ [record] ->
            pending h2 = pending h1 ++ [envelope record]).
  { intros h1 h2 Hv. rewrite !pending_values, Hv, List.filter_app, fmap_app.
    done. }
  index_ready h Hready. simpl in Hnew.
  index_unfold. rewrite HistoryFacts.isInitialized_nil, Hnew.
  index_unfold. fold record.
  rewrite JsMapFacts.set_absent by done.
  split; [done|]. split; [done|].
  assert (Hv : JsMap.values (m ++ [(req_id request, record)])
               = JsMap.values m ++ [record])
    by (unfold JsMap.values; by rewrite fmap_app).
  split; [done|]. split; [by trace_simpl|]. split.
  - trace_simpl. by rewrite Hv.
  - by apply Hp.
Qed.

Lemma values_replace (rid : Z) (resolved : JsonRpcRecord)
    (m : JsMap.t Z JsonRpcRecord) :
  keyed m -> is_Some (JsMap.get rid m) ->
  JsMap.values (JsMap.set rid resolved m)
  = (fun r => if bool_decide (id r = rid) then resolved else r)
    <$> JsMap.values m
  /\ JsMap.keys (JsMap.set rid resolved m) = JsMap.keys m.
Proof.
  intros [Hwf Hkey] Hsome. split; [|by apply JsMapFacts.keys_set_has].
  rewrite JsMapIndexFacts.set_present by done.
  unfold JsMap.values. rewrite <- !list_fmap_compose.
  apply list_fmap_ext. intros i [k r] Hi. simpl.
  rewrite (Hkey k r) by (by eapply list_elem_of_lookup_2).
  by destruct (bool_decide (k = rid)).
Qed.

(** X9. [resolve] for a record without a response, on a reachable history
    that lets calls through: the record stays where it is in the index and
    only gets its response; the storage is written once, with the values as
    they are now; and [pending] loses the request of this record and keeps
    the others in their order. *)
Theorem resolve_replaces_in_place response record h
    (Hreach : Reachable h)
    (Hready : isInitialized h = true)
    (Hfound : JsMap.get (response_id response) (records h) = Some record)
    (Hopen : History.response record = None) :
  let resolved :=
    {| id := id record; topic := topic record;
       request := request record; chainId := chainId record;
       response :=
         Some (match response with
               | JsonRpcError _ error => error_of error
               | JsonRpcResult _ result => result_of result
               end) |} in
  let '(h', r) := resolve response h in
  r = Some (inr void)
  /\ keys h' = keys h
  /\ values h'
     = (fun r0 => if bool_decide (id r0 = response_id response)
                  then resolved else r0) <$> values h
  /\ invoked (effects h')
     = invoked (effects h) ++ [setItem storageKey (values h')]
  /\ pending h'
     = envelope
       <$> List.filter
             (fun r0 => bool_decide (History.response r0 = None)
                        && negb (bool_decide (id r0 = response_id response)))
             (values h).
Proof.
  intros resolved. pose proof (index_reachable_keyed h Hreach) as Hk.
  assert (Hid : id record = response_id response).
  { by apply (proj2 Hk), JsMapFacts.get_Some_elem. }
  assert (Hp : forall h2,
            values h2
            = (fun r0 => if bool_decide (id r0 = response_id response)
                         then resolved else r0) <$> values h ->
            pending h2
            = envelope
              <$> List.filter
                    (fun r0 => bool_decide (History.response r0 = None)
                               && negb (bool_decide
                                          (id r0 = response_id response)))
                    (values h)).
  { intros h2 Hv. rewrite pending_values, Hv. clear Hv. f_equal.
    induction (values h) as [|r0 l IH]; [done|].
    rewrite fmap_cons. cbn [List.filter]. rewrite IH.
    destruct (decide (id r0 = response_id response)) as [Heq|Hne].
    - rewrite !(bool_decide_eq_true_2 (id r0 = _)) by done.
      rewrite (bool_decide_eq_false_2 (History.response resolved = None))
        by done.
      by rewrite andb_false_r.
    - rewrite !(bool_decide_eq_false_2 (id r0 = _)) by done.
      by rewrite andb_true_r. }
  index_ready h Hready. simpl in Hfound, Hk.
  destruct record as [rid rtopic rrequest rchain ranswer].
  simpl in Hopen, Hid. subst ranswer rid.
  index_unfold. rewrite HistoryFacts.isInitialized_nil, Hfound.
  index_unfold. fold resolved.
  rewrite JsMapIndexFacts.set_set.
  destruct (values_replace (response_id response) resolved m Hk)
    as [Hv Hkeys]; [eauto|].
  split; [done|]. split; [done|]. split; [done|].
  split; [by trace_simpl|].
  by apply Hp.
Qed.

Local Abbreviation delete_step :=
  (History.delete_step HISTORY_CONTEXT HISTORY_STORAGE_VERSION
     CLIENT_STORAGE_PREFIX HISTORY_EVENTS).
Local Abbreviation taken := History.taken.
Local Abbreviation delete_ready :=
  (History.delete_ready HISTORY_CONTEXT HISTORY_STORAGE_VERSION
     CLIENT_STORAGE_PREFIX HISTORY_EVENTS).

Lemma delete_ready_loop topic id h :
  delete_ready topic id h
  = (fold_left (delete_step topic id) (values h)
       (log Trace (Entry "method" "delete")
          (log Debug (Text "Deleting record") h)),
     inr void).
Proof. reflexivity. Qed.

Lemma delete_step_cases topic id h record :
  delete_step topic id h record
  = if taken topic id record
    then emit EVENTS.deleted (Some record)
           (set_records (JsMap.delete (History.id record) (records h)) h)
    else h.
Proof.
  unfold History.delete_step, History.taken.
  destruct (bool_decide (History.topic record = topic)); [|reflexivity].
  destruct id as [id'|]; [|reflexivity]. cbn [andb].
  destruct (decide (History.id record = id')) as [Heq|Hne].
  - rewrite (bool_decide_eq_false_2 (History.id record <> id'))
      by (intros H; by apply H).
    by rewrite (bool_decide_eq_true_2 (History.id record = id')).
  - rewrite (bool_decide_eq_true_2 (History.id record <> id')) by done.
    by rewrite (bool_decide_eq_false_2 (History.id record = id')).
Qed.

Lemma delete_fold topic id (l : list JsonRpcRecord) h0 :
  let h' := fold_left (delete_step topic id) l h0 in
  records h'
  = fold_left
      (fun m r => if taken topic id r then JsMap.delete (History.id r) m else m)
      l (records h0)
  /\ emitted (effects h')
     = emitted (effects h0)
       ++ ((fun r => {| event_name := EVENTS.deleted; event_record := Some r |})
           <$> List.filter (taken topic id) l)
  /\ cached h' = cached h0 /\ waiting h' = waiting h0
  /\ exists writes,
       invoked (effects h') = invoked (effects h0) ++ writes
       /\ length writes = length (List.filter (taken topic id) l)
       /\ (writes <> [] ->
           last writes = Some (setItem storageKey (values h'))).
Proof.
  cbv zeta. revert h0. induction l as [|r l IH]; intros h0.
  - simpl. rewrite app_nil_r. repeat split; try done.
    exists []. by rewrite app_nil_r.
  - cbn [fold_left List.filter]. rewrite delete_step_cases.
    destruct (taken topic id r) eqn:Ht; [|apply IH].
    set (h1 := emit EVENTS.deleted (Some r)
                 (set_records (JsMap.delete (History.id r) (records h0)) h0)).
    destruct (IH h1) as (Hrec & Hem & Hc & Hw & writes & Hinv & Hlen & Hlast).
    assert (H1 : records h1 = JsMap.delete (History.id r) (records h0)
                 /\ cached h1 = cached h0 /\ waiting h1 = waiting h0
                 /\ emitted (effects h1)
                    = emitted (effects h0)
                      ++ [{| event_name := EVENTS.deleted;
                             event_record := Some r |}]
                 /\ invoked (effects h1)
                    = invoked (effects h0)
                      ++ [setItem storageKey (values h1)]).
    { subst h1. destruct h0 as [m c w tr]. simpl.
      rewrite !emitted_app, !invoked_app. simpl. by rewrite !app_nil_r. }
    destruct H1 as (H1r & H1c & H1w & H1e & H1i).
    rewrite Hrec, Hem, Hc, Hw, H1r, H1c, H1w, H1e, <- app_assoc.
    split; [done|]. split; [done|]. split; [done|]. split; [done|].
    exists (setItem storageKey (values h1) :: writes).
    rewrite Hinv, H1i, <- app_assoc. split; [done|].
    split; [simpl; by rewrite Hlen|]. intros _.
    destruct writes as [|w0 writes].
    + simpl. do 2 f_equal. unfold History.values. rewrite Hrec.
      f_equal. symmetry. simpl in Hlen.
      assert (Hnone : List.filter (taken topic id) l = [])
        by (by destruct (List.filter _ l)).
      clear -Hnone. generalize (records h1). intros m.
      induction l as [|r0 l IHl]; [done|]. cbn [fold_left List.filter] in *.
      destruct (taken topic id r0); [done|]. by apply IHl.
    + rewrite last_cons_cons. by apply Hlast.
Qed.

(** X10. [delete(topic, id)] on a reachable history that lets calls through
    never fails.  It takes out of the index the records of that topic, all
    of them when no id is given and otherwise only the one with that id,
    and leaves the others in their order; it emits one deleted event for
    each record taken, in the order of the index; and it writes the storage
    once for each, the last time with the values that are left.  Where
    nothing matches, the index, the events and the storage stay as they
    are. *)
Theorem delete_takes_matching_records topic id h
    (Hreach : Reachable h)
    (Hready : isInitialized h = true) :
  let '(h', r) := delete topic id h in
  r = Some (inr void)
  /\ records h'
     = List.filter (fun kv => negb (taken topic id kv.2)) (records h)
  /\ emitted (effects h')
     = emitted (effects h)
       ++ ((fun r => {| event_name := EVENTS.deleted; event_record := Some r |})
           <$> List.filter (taken topic id) (values h))
  /\ exists writes,
       invoked (effects h') = invoked (effects h) ++ writes
       /\ length writes = length (List.filter (taken topic id) (values h))
       /\ (writes <> [] ->
           last writes = Some (setItem storageKey (values h'))).
Proof.
  pose proof (index_reachable_keyed h Hreach) as [Hwf Hkey].
  unfold History.delete, History.call. rewrite Hready.
  unfold History.run. rewrite delete_ready_loop.
  set (h0 := log Trace (Entry "method" "delete")
               (log Debug (Text "Deleting record") h)).
  assert (H0 : records h0 = records h
               /\ emitted (effects h0) = emitted (effects h)
               /\ invoked (effects h0) = invoked (effects h)).
  { subst h0. destruct h as [m c w tr]. simpl.
    rewrite !emitted_app, !invoked_app. simpl. by rewrite !app_nil_r. }
  destruct H0 as (H0r & H0e & H0i).
  destruct (delete_fold topic id (values h) h0)
    as (Hrec & Hem & _ & _ & writes & Hinv & Hlen & Hlast).
  split; [done|]. cbn [fst].
  rewrite Hrec, Hem, H0r, H0e. 
  split; [by apply (JsMapIndexFacts.fold_delete_values
                      History.id (taken topic id))|].
  split; [done|].
  exists writes. rewrite Hinv, H0i. by repeat split.
Qed.

(** [reset] puts the staged records into the index one by one and touches
    nothing else. *)
Lemma reset_index l m c w tr :
  fold_left
    (fun h record => set_records (JsMap.set (id record) record (records h)) h)
    l {| records := m; cached := c; waiting := w; effects := tr |}
  = {| records := fold_left (fun m r => JsMap.set (id r) r m) l m;
       cached := c; waiting := w; effects := tr |}.
Proof. revert m. induction l as [|r l IH]; intros m; simpl; [done|]. apply IH. Qed.

Lemma reset_staged m c w tr :
  reset {| records := m; cached := c; waiting := w; effects := tr |}
  = {| records := fold_left (fun m r => JsMap.set (id r) r m) c m;
       cached := c; waiting := w; effects := tr |}.
Proof. unfold History.reset. simpl. apply reset_index. Qed.

Lemma restore_stages backlog w tr :
  backlog <> [] ->
  restore (Fulfilled (Some backlog))
    (init_begin {| records := []; cached := []; waiting := w; effects := tr |})
  = {| records := []; cached := backlog; waiting := w;
       effects :=
         ((((tr ++ [Log Trace (Text "Initialized")])
              ++ [Invoke (getItem storageKey)])
             ++ [Log Debug
                   (Text ("Successfully Restored records for "
                          +:+ HISTORY_CONTEXT))])
            ++ [Log Trace (Entry "method" "restore")]) |}.
Proof.
  intros Hb. unfold History.restore, History.init_begin, History.size.
  cbn [History.log History.effect records cached waiting effects].
  rewrite bool_decide_eq_false_2 by by destruct backlog.
  by rewrite (bool_decide_eq_true_2 (JsMap.size [] = 0%nat)).
Qed.

(** X11. What a reachable history holds comes back when a new controller
    is initialised from the values that the history writes to the storage:
    [init] on a new history, with the storage answering [values] of the
    old one, ends with the same index in the same order, hence the same
    pending requests, lets calls through, and emits the init event and
    nothing else. *)
Theorem restore_round_trip h (Hreach : Reachable h) :
  let '(h', released) := init (Fulfilled (Some (values h))) create in
  released = []
  /\ records h' = records h
  /\ pending h' = pending h
  /\ isInitialized h' = true
  /\ emitted (effects h')
     = [{| event_name := EVENTS.init; event_record := None |}].
Proof.
  pose proof (index_reachable_keyed h Hreach) as [Hwf Hkey].
  unfold History.init, History.initialize_resume, History.create.
  destruct (values h) as [|r l] eqn:Hv.
  - assert (Hm : records h = []).
    { unfold History.values, JsMap.values in Hv. by apply fmap_nil_inv in Hv. }
    rewrite Hm. unfold History.pending, History.values. rewrite Hm.
    by cbv.
  - rewrite restore_stages by done. rewrite reset_staged.
    rewrite <- Hv. unfold History.values.
    rewrite (JsMapIndexFacts.rebuild id [] (records h)) by done.
    rewrite app_nil_l. unfold History.onInit.
    cbn [History.emit History.set_cached History.set_waiting History.effect
         records cached waiting effects fold_left].
    unfold History.pending, History.values. cbn [records].
    split; [done|]. split; [done|]. split; [done|]. split; [done|].
    by trace_simpl.
Qed.

(** X12. [init] on a reachable history that lets calls through, where the
    storage has nothing to restore: it holds no value under the key, it
    holds an empty list, or reading it fails.  The index stays as it is,
    nothing is released, the init event is emitted and calls go through.
    A failed read is logged as an error and is not passed on; the other
    two log no error. *)
Theorem init_without_backlog persisted h
    (Hreach : Reachable h)
    (Hready : isInitialized h = true)
    (Hnothing : match persisted with
                | Fulfilled (Some backlog) => backlog = []
                | _ => True
                end) :
  let '(h', released) := init persisted h in
  released = []
  /\ records h' = records h
  /\ isInitialized h' = true
  /\ emitted (effects h')
     = emitted (effects h)
       ++ [{| event_name := EVENTS.init; event_record := None |}]
  /\ invoked (effects h') = invoked (effects h) ++ [getItem storageKey]
  /\ logged Err (effects h')
     = logged Err (effects h)
       ++ match persisted with
          | Rejected e => [Caught e]
          | Fulfilled _ => []
          end.
Proof.
  destruct (HistoryFacts.reachable_gate _ _ _ _ h Hreach) as [_ Hw].
  apply HistoryFacts.isInitialized_cached in Hready.
  specialize (Hw Hready).
  destruct h as [m c w tr]. simpl in Hready, Hw. subst c w.
  unfold History.init, History.initialize_resume, History.init_begin.
  destruct persisted as [[backlog|]|e]; [subst backlog| |];
    cbv beta iota zeta delta
      [History.restore History.restore_catch History.reset History.onInit
       History.log History.effect History.set_cached History.set_waiting
       History.emit records cached waiting effects fold_left fst snd];
    rewrite ?(bool_decide_eq_true_2 (length (@nil JsonRpcRecord) = 0%nat))
      by done;
    cbv beta iota zeta delta
      [History.restore History.restore_catch History.reset History.onInit
       History.log History.effect History.set_cached History.set_waiting
       History.emit records cached waiting effects fold_left fst snd];
    trace_simpl; by repeat split.
Qed.

(** X13. A [get] made while [init] is under way, after the storage has
    answered with records and before they are in the index, is not
    answered then: its promise stays pending and it logs and changes
    nothing.  Once [init] goes on, the call is answered from the restored
    records, as the only call released: with the last record of the
    backlog that has the id, when its topic is the one asked for, with the
    mismatched-topic error when it is not, and with the no-matching-id
    error when the backlog has no record of that id.  The index then holds,
    under each id, the last record of the backlog with that id. *)
Theorem get_during_init_is_answered_from_the_backlog topic id backlog h
    (Hreach : Reachable h)
    (Hready : isInitialized h = true)
    (Hempty : records h = [])
    (Hbacklog : backlog <> []) :
  let staged := restore (Fulfilled (Some backlog)) (init_begin h) in
  let '(parked, r) := get topic id staged in
  r = None
  /\ records parked = []
  /\ effects parked = effects staged
  /\ let '(h', released) := initialize_resume parked in
     released
     = [(call_get topic id,
         match last (List.filter
                       (fun r => bool_decide (History.id r = id)) backlog) with
         | None =>
             inl (ERROR NO_MATCHING_ID
                    [("context", VStr HISTORY_CONTEXT);
                     ("id", VNum (Int id))])
         | Some record =>
             if decide (History.topic record = topic)
             then inr (a_record record)
             else inl (ERROR MISMATCHED_TOPIC
                         [("context", VStr HISTORY_CONTEXT);
                          ("id", VNum (Int id))])
         end)]
     /\ isInitialized h' = true
     /\ waiting h' = []
     /\ forall k,
          JsMap.get k (records h')
          = last (List.filter
                    (fun r => bool_decide (History.id r = k)) backlog).
Proof.
  destruct (HistoryFacts.reachable_gate _ _ _ _ h Hreach) as [_ Hw].
  apply HistoryFacts.isInitialized_cached in Hready.
  specialize (Hw Hready).
  destruct h as [m c w tr]. simpl in Hready, Hw, Hempty. subst m c w.
  cbv zeta. rewrite restore_stages by done.
  unfold History.get, History.call.
  match goal with
  | |- context [isInitialized ?x] =>
      assert (Hgate : isInitialized x = false)
        by (unfold History.isInitialized; apply bool_decide_eq_false_2;
            by destruct backlog);
      rewrite Hgate; clear Hgate
  end.
  cbn [History.set_waiting records cached waiting effects app].
  split; [done|]. split; [done|]. split; [done|].
  unfold History.initialize_resume, History.set_waiting.
  cbn [records cached waiting effects]. rewrite reset_staged.
  assert (Hget : forall k,
             JsMap.get k (fold_left (fun m r => JsMap.set (History.id r) r m)
                            backlog [])
             = last (List.filter
                       (fun r => bool_decide (History.id r = k)) backlog)).
  { intros k. rewrite (JsMapIndexFacts.get_fold_set History.id).
    by destruct (last _). }
  unfold History.onInit.
  cbv beta iota zeta delta
    [History.run History.get_ready History.getRecord History.emit
     History.log History.effect History.set_cached History.set_waiting
     History.name records cached waiting effects fold_left fst snd app].
  rewrite Hget.
  destruct (last _) as [record|] eqn:Hlast.
  - destruct (decide (History.topic record = topic)) as [Heq|Hne].
    + rewrite bool_decide_eq_false_2 by (intros H; by apply H).
      cbn [fst snd records cached waiting]. by repeat split.
    + rewrite bool_decide_eq_true_2 by done.
      cbn [fst snd records cached waiting]. by repeat split.
  - cbn [fst snd records cached waiting]. by repeat split.
Qed.

(** What [delete] leaves in the index. *)
Lemma delete_index topic id h :
  Reachable h -> isInitialized h = true ->
  records (delete topic id h).1
  = List.filter (fun kv => negb (taken topic id kv.2)) (records h).
Proof.
  intros Hreach Hready.
  pose proof (index_reachable_keyed h Hreach) as [Hwf Hkey].
  unfold History.delete, History.call. rewrite Hready.
  unfold History.run. rewrite delete_ready_loop. cbn [fst].
  set (h0 := log Trace (Entry "method" "delete")
               (log Debug (Text "Deleting record") h)).
  assert (H0 : records h0 = records h) by (subst h0; by destruct h).
  destruct (delete_fold topic id (values h) h0) as (-> & _).
  rewrite H0.
  by apply (JsMapIndexFacts.fold_delete_values History.id (taken topic id)).
Qed.

(** X7. [exists] is made of two steps with an [await] between them: it
    answers [false] at once where the index does not have the id, and
    otherwise waits for [getRecord] and compares the topic of what that
    finds.  Run alone on a history that lets calls through, it answers what
    [get] would do: [true] exactly when [get] with the same topic and id
    returns a record, [false] where [get] fails, and it leaves the history
    exactly as it is, log included.  It is not safe against what runs at
    its [await]: after a [delete] has taken the record in between, the
    second step fails with the no-matching-id error. *)
Theorem exists_run_alone_agrees_with_get topic id h
    (Hreach : Reachable h)
    (Hready : isInitialized h = true) :
  (let '(h1, answer) := exists_ topic id h in
   h1 = h
   /\ match (get topic id h).2 with
      | Some (inr (a_record record)) =>
          answer = Some (inr (a_boolean true))
          /\ JsMap.get id (records h) = Some record
          /\ History.topic record = topic
      | Some (inl _) => answer = Some (inr (a_boolean false))
      | _ => False
      end)
  /\ exists_check id h
     = match JsMap.get id (records h) with
       | Some _ => None
       | None => Some (a_boolean false)
       end
  /\ (forall later,
        exists_lookup topic id later
        = match JsMap.get id (records later) with
          | Some record =>
              inr (a_boolean (bool_decide (History.topic record = topic)))
          | None =>
              inl (ERROR NO_MATCHING_ID
                     [("context", VStr HISTORY_CONTEXT);
                      ("id", VNum (Int id))])
          end)
  /\ (forall record,
        JsMap.get id (records h) = Some record ->
        exists_check id h = None
        /\ exists_lookup topic id
             (delete (History.topic record) (Some id) h).1
           = inl (ERROR NO_MATCHING_ID
                    [("context", VStr HISTORY_CONTEXT);
                     ("id", VNum (Int id))])).
Proof.
  assert (Hcheck : exists_check id h
                   = match JsMap.get id (records h) with
                     | Some _ => None
                     | None => Some (a_boolean false)
                     end).
  { unfold History.exists_check, JsMap.has.
    by destruct (JsMap.get id (records h)). }
  assert (Hlookup : forall later,
            exists_lookup topic id later
            = match JsMap.get id (records later) with
              | Some record =>
                  inr (a_boolean (bool_decide (History.topic record = topic)))
              | None =>
                  inl (ERROR NO_MATCHING_ID
                         [("context", VStr HISTORY_CONTEXT);
                          ("id", VNum (Int id))])
              end).
  { intros later. unfold History.exists_lookup, History.getRecord.
    by destruct (JsMap.get id (records later)). }
  split; [|split; [done|split; [done|]]].
  - clear Hcheck Hlookup Hreach.
    index_ready h Hready. index_unfold. rewrite HistoryFacts.isInitialized_nil.
    destruct (JsMap.get id m) as [record|] eqn:Hg; [|done].
    destruct (decide (History.topic record = topic)) as [Heq|Hne].
    + rewrite bool_decide_eq_false_2 by (intros H; by apply H).
      by rewrite bool_decide_eq_true_2.
    + rewrite bool_decide_eq_true_2 by done.
      by rewrite bool_decide_eq_false_2.
  - intros record Hg. rewrite Hcheck, Hg. split; [done|].
    rewrite Hlookup, delete_index by done.
    pose proof (index_reachable_keyed h Hreach) as [Hwf Hkey].
    destruct (JsMap.get id (List.filter _ (records h))) as [r'|] eqn:Hg';
      [|done].
    exfalso. apply JsMapFacts.get_Some_elem in Hg'.
    apply list_elem_of_In, filter_In in Hg' as [Hin Hkept].
    apply list_elem_of_In in Hin.
    assert (r' = record).
    { apply (JsMapFacts.elem_get _ _ _ Hwf) in Hin. congruence. }
    subst r'. pose proof (Hkey id record Hin) as Hid.
    unfold History.taken in Hkept. cbn [snd] in Hkept.
    by rewrite !bool_decide_eq_true_2 in Hkept.
Qed.
End Facts.
End HistoryIndexFacts.

(** ** The index of the expirer and its storage *)
Module ExpirerIndexFacts.
Import Expirer.

Section Facts.
Variable EXPIRER_CONTEXT : string.
Variable EXPIRER_STORAGE_VERSION : string.
Variable SIGN_CLIENT_STORAGE_PREFIX : string.
Variable EXPIRER_EVENTS : EVENTS.name -> string.
Variable toMiliseconds : Z -> Z.

Local Abbreviation storageKey :=
  (Expirer.storageKey EXPIRER_CONTEXT EXPIRER_STORAGE_VERSION
     SIGN_CLIENT_STORAGE_PREFIX).
Local Abbreviation on_event :=
  (Expirer.on_event EXPIRER_CONTEXT EXPIRER_STORAGE_VERSION
     SIGN_CLIENT_STORAGE_PREFIX EXPIRER_EVENTS).
Local Abbreviation emit :=
  (Expirer.emit EXPIRER_CONTEXT EXPIRER_STORAGE_VERSION
     SIGN_CLIENT_STORAGE_PREFIX EXPIRER_EVENTS).
Local Abbreviation checkExpiry :=
  (Expirer.checkExpiry EXPIRER_CONTEXT EXPIRER_STORAGE_VERSION
     SIGN_CLIENT_STORAGE_PREFIX EXPIRER_EVENTS toMiliseconds).
Local Abbreviation checkExpirations :=
  (Expirer.checkExpirations EXPIRER_CONTEXT EXPIRER_STORAGE_VERSION
     SIGN_CLIENT_STORAGE_PREFIX EXPIRER_EVENTS toMiliseconds).
Local Abbreviation pulse :=
  (Expirer.pulse EXPIRER_CONTEXT EXPIRER_STORAGE_VERSION
     SIGN_CLIENT_STORAGE_PREFIX EXPIRER_EVENTS toMiliseconds).
Local Abbreviation isInitialized := (Expirer.isInitialized EXPIRER_CONTEXT).
Local Abbreviation getExpiration := (Expirer.getExpiration EXPIRER_CONTEXT).
Local Abbreviation has := (Expirer.has EXPIRER_CONTEXT).
Local Abbreviation set :=
  (Expirer.set EXPIRER_CONTEXT EXPIRER_STORAGE_VERSION
     SIGN_CLIENT_STORAGE_PREFIX EXPIRER_EVENTS toMiliseconds).
Local Abbreviation get := (Expirer.get EXPIRER_CONTEXT).
Local Abbreviation del :=
  (Expirer.del EXPIRER_CONTEXT EXPIRER_STORAGE_VERSION
     SIGN_CLIENT_STORAGE_PREFIX EXPIRER_EVENTS).
Local Abbreviation del_begin := (Expirer.del_begin EXPIRER_CONTEXT).
Local Abbreviation del_resume :=
  (Expirer.del_resume EXPIRER_CONTEXT EXPIRER_STORAGE_VERSION
     SIGN_CLIENT_STORAGE_PREFIX EXPIRER_EVENTS).
Local Abbreviation restore := (Expirer.restore EXPIRER_CONTEXT).
Local Abbreviation init_begin :=
  (Expirer.init_begin EXPIRER_CONTEXT EXPIRER_STORAGE_VERSION
     SIGN_CLIENT_STORAGE_PREFIX).
Local Abbreviation init :=
  (Expirer.init EXPIRER_CONTEXT EXPIRER_STORAGE_VERSION
     SIGN_CLIENT_STORAGE_PREFIX).
Local Abbreviation emit_fields :=
  (ExpirerFacts.emit_fields EXPIRER_CONTEXT EXPIRER_STORAGE_VERSION
     SIGN_CLIENT_STORAGE_PREFIX EXPIRER_EVENTS).
Local Abbreviation sweep_fold :=
  (ExpirerFacts.sweep_fold EXPIRER_CONTEXT EXPIRER_STORAGE_VERSION
     SIGN_CLIENT_STORAGE_PREFIX EXPIRER_EVENTS toMiliseconds).

(** The entry has run out at [now]. *)
Local Abbreviation elapsed now :=
  (fun kv : string * Expiration =>
     bool_decide (toMiliseconds (expiry kv.2) - now <= 0)).

Local Abbreviation event n topic expiration :=
  {| event_name := n;
     event_payload := Some {| payload_topic := topic;
                              payload_expiration := expiration |} |}.

Local Abbreviation not_initialized :=
  (ERROR NOT_INITIALIZED [("context", VStr EXPIRER_CONTEXT)]).

(** Every listener of an event writes the values to the storage. *)
Lemma on_events_invoked k n e :
  invoked (effects (Nat.iter k (on_event n) e))
  = invoked (effects e) ++ replicate k (setItem storageKey (values e)).
Proof.
  induction k as [|k IH]; simpl; [by rewrite app_nil_r|].
  destruct (ExpirerFacts.on_events_fields EXPIRER_CONTEXT
              EXPIRER_STORAGE_VERSION SIGN_CLIENT_STORAGE_PREFIX
              EXPIRER_EVENTS k n e) as (H1 & _).
  cbv zeta in H1.
  destruct (Nat.iter k (on_event n) e) as [m c i l tr]. simpl in *.
  rewrite !invoked_app. simpl. rewrite !app_nil_r, IH. subst m.
  rewrite <- app_assoc. f_equal. symmetry. apply replicate_cons_app.
Qed.

Lemma emit_invoked n payload e :
  invoked (effects (emit n payload e))
  = invoked (effects e)
    ++ match n with
       | EVENTS.sync => []
       | _ => replicate (listeners e) (setItem storageKey (values e))
       end.
Proof.
  unfold Expirer.emit. destruct n; cbv zeta; rewrite ?on_events_invoked;
    destruct e; simpl; rewrite ?invoked_app; simpl; by rewrite ?app_nil_r.
Qed.

(** X14. [set] on an initialized expirer with an expiry that is still
    ahead never fails: the entry is stored under the topic, in the place of
    the one that was there or at the end, and [get] returns it; the other
    topics keep what they had; only the created event is emitted; and every
    registered listener writes the new values to the storage. *)
Theorem set_stores_and_writes_through now topic expiration e
    (Hinit : initialized e = true)
    (Hfuture : 0 < toMiliseconds (expiry expiration) - now) :
  let '(e', r) := set now topic expiration e in
  r = inr tt
  /\ expirations e' = JsMap.set topic expiration (expirations e)
  /\ get topic e' = inr expiration
  /\ (forall other, other <> topic -> get other e' = get other e)
  /\ emitted (effects e')
     = emitted (effects e) ++ [event EVENTS.created topic expiration]
  /\ invoked (effects e')
     = invoked (effects e)
       ++ replicate (listeners e) (setItem storageKey (values e')).
Proof.
  unfold Expirer.set, Expirer.isInitialized. rewrite Hinit. cbn [negb].
  unfold Expirer.checkExpiry. rewrite bool_decide_eq_false_2 by lia.
  match goal with
  | |- context [Expirer.emit _ _ _ _ ?n ?p ?x] =>
      destruct (emit_fields n p x) as (Hm & _ & Hi & _ & Hem);
      pose proof (emit_invoked n p x) as Hinv;
      generalize dependent (emit n p x)
  end.
  intros e' Hm Hi Hem Hinv. split; [done|].
  unfold Expirer.get, Expirer.isInitialized, Expirer.getExpiration,
    Expirer.values in *.
  rewrite Hi, Hm, Hem, Hinv. destruct e as [m c i l tr]. simpl in *.
  subst i. simpl. rewrite JsMapFacts.get_set_eq.
  split; [done|]. split; [done|]. split; [|done].
  intros other Hne. by rewrite JsMapFacts.get_set_ne.
Qed.

(** X15. [del] is made of two steps with an [await] between them: the
    guard and [has], then the removal.  Run alone on an initialized expirer
    it never fails: where the topic has an entry, the entry is removed, one
    deleted event carries the topic and the expiration that was stored, and
    every registered listener writes the remaining values to the storage;
    where it has none, nothing changes and nothing is emitted; either way
    the topic has no entry afterwards and the other topics keep theirs.  It
    is not safe against what runs at its [await]: the second step trusts
    what [has] had answered, so when the entry is gone by then it fails
    with the no-matching-id error and changes nothing, as the second of two
    [del]s of one topic that both passed [has] before either went on. *)
Theorem del_run_alone_removes_and_reports topic e
    (Hinit : initialized e = true) :
  (let '(e', r) := del topic e in
   r = inr tt
   /\ has topic e' = false
   /\ (forall other, other <> topic ->
         JsMap.get other (expirations e') = JsMap.get other (expirations e))
   /\ match JsMap.get topic (expirations e) with
      | Some expiration =>
          expirations e' = JsMap.delete topic (expirations e)
          /\ emitted (effects e')
             = emitted (effects e) ++ [event EVENTS.deleted topic expiration]
          /\ invoked (effects e')
             = invoked (effects e)
               ++ replicate (listeners e) (setItem storageKey (values e'))
      | None => e' = e
      end)
  /\ del_begin topic e = inr (has topic e)
  /\ (forall later,
        has topic later = false ->
        del_resume true topic later
        = (later,
           inl (ERROR NO_MATCHING_ID
                  [("context", VStr EXPIRER_CONTEXT);
                   ("topic", VStr topic)])))
  /\ (has topic e = true ->
      let first := (del_resume true topic e).1 in
      (del_resume true topic e).2 = inr tt
      /\ del_resume true topic first
         = (first,
            inl (ERROR NO_MATCHING_ID
                   [("context", VStr EXPIRER_CONTEXT);
                    ("topic", VStr topic)]))).
Proof.
  assert (Hlate : forall later,
            has topic later = false ->
            del_resume true topic later
            = (later,
               inl (ERROR NO_MATCHING_ID
                      [("context", VStr EXPIRER_CONTEXT);
                       ("topic", VStr topic)]))).
  { intros later. unfold Expirer.del_resume, Expirer.has,
      Expirer.getExpiration.
    by destruct (JsMap.get topic (expirations later)). }
  split; [|split; [|split; [done|]]].
  - clear Hlate.
    unfold Expirer.del, Expirer.del_begin, Expirer.del_resume,
      Expirer.isInitialized, Expirer.has, Expirer.getExpiration.
    rewrite Hinit. cbn [negb].
    destruct (JsMap.get topic (expirations e)) as [expiration|] eqn:Hg.
    + match goal with
      | |- context [Expirer.emit _ _ _ _ ?n ?p ?x] =>
          destruct (emit_fields n p x) as (Hm & _ & _ & _ & Hem);
          pose proof (emit_invoked n p x) as Hinv;
          generalize dependent (emit n p x)
      end.
      intros e' Hm Hem Hinv. unfold Expirer.values in *.
      rewrite Hm, Hem, Hinv. destruct e as [m c i l tr]. simpl in *.
      rewrite JsMapFacts.get_delete_eq. split; [done|]. split; [done|].
      split; [|done]. intros other Hne. by apply JsMapFacts.get_delete_ne.
    + rewrite Hg. by repeat split.
  - unfold Expirer.del_begin, Expirer.isInitialized. by rewrite Hinit.
  - intros Hhas. cbv zeta.
    assert (Hfirst : (del_resume true topic e).2 = inr tt
                     /\ has topic (del_resume true topic e).1 = false).
    { revert Hhas. unfold Expirer.del_resume, Expirer.has,
        Expirer.getExpiration.
      destruct (JsMap.get topic (expirations e)) as [expiration|]; [|done].
      intros _. cbn [fst snd]. split; [done|].
      match goal with
      | |- context [Expirer.emit _ _ _ _ ?n ?p ?x] =>
          destruct (emit_fields n p x) as (-> & _)
      end.
      cbn [Expirer.set_expirations expirations].
      by rewrite JsMapFacts.get_delete_eq. }
    destruct Hfirst as [Hr Hgone]. split; [done|]. by apply Hlate.
Qed.

(** X16. [has] never fails and does not ask whether the expirer is
    initialized: it answers whether the topic is among [topics].  [get]
    on an initialized expirer returns an entry exactly where [has]
    answers true, and fails with the no-matching-id error where [has]
    answers false; before [init] has finished [get] fails with the
    not-initialized error whatever [has] answers. *)
Theorem has_tells_what_get_finds topic e :
  (has topic e = true <-> topic ∈ topics e)
  /\ (initialized e = true ->
      if has topic e
      then exists expiration,
             get topic e = inr expiration
             /\ (topic, expiration) ∈ expirations e
      else get topic e
           = inl (ERROR NO_MATCHING_ID
                    [("context", VStr EXPIRER_CONTEXT);
                     ("topic", VStr topic)]))
  /\ (initialized e = false -> get topic e = inl not_initialized).
Proof.
  unfold Expirer.has, Expirer.get, Expirer.isInitialized,
    Expirer.getExpiration, Expirer.topics.
  split; [|split].
  - destruct (JsMap.get topic (expirations e)) as [x|] eqn:Hg.
    + split; [intros _|done].
      apply JsMapFacts.get_Some_elem in Hg.
      apply list_elem_of_fmap. by exists (topic, x).
    + split; [done|]. intros Hin.
      by apply JsMapFacts.get_None_keys in Hg.
  - intros ->. cbn [negb].
    destruct (JsMap.get topic (expirations e)) as [x|] eqn:Hg; [|done].
    exists x. split; [done|]. by apply JsMapFacts.get_Some_elem.
  - by intros ->.
Qed.

(** A sweep in full. *)
Lemma sweep_full now e :
  JsMap.wf (expirations e) ->
  let e' := checkExpirations now e in
  expirations e'
  = List.filter (fun kv => negb (elapsed now kv)) (expirations e)
  /\ emitted (effects e')
     = emitted (effects e)
       ++ ((fun kv => event EVENTS.expired kv.1 kv.2)
           <$> List.filter (elapsed now) (expirations e))
  /\ listeners e' = listeners e.
Proof.
  intros Hwf. cbv zeta. unfold Expirer.checkExpirations, JsMap.forEach.
  destruct (sweep_fold now (expirations e) e) as (-> & -> & _ & _ & ->).
  split; [|done].
  by apply (JsMapFacts.fold_delete_filter (elapsed now) []).
Qed.

(** A sweep over an index in which nothing has run out. *)
Lemma sweep_settled now e :
  List.filter (elapsed now) (expirations e) = [] ->
  let e' := checkExpirations now e in
  expirations e' = expirations e
  /\ emitted (effects e') = emitted (effects e)
  /\ listeners e' = listeners e.
Proof.
  intros Hnone. cbv zeta. unfold Expirer.checkExpirations, JsMap.forEach.
  destruct (sweep_fold now (expirations e) e) as (-> & -> & _ & _ & ->).
  rewrite Hnone. simpl. rewrite app_nil_r. split; [|done].
  assert (Hgen : forall (l : list (string * Expiration))
                     (m : JsMap.t string Expiration),
            List.filter (elapsed now) l = [] ->
            fold_left
              (fun m kv => if elapsed now kv then JsMap.delete kv.1 m else m)
              l m = m).
  { clear. induction l as [|kv l IHl]; intros m Hnone; simpl in *; [done|].
    destruct (bool_decide _); [done|]. by apply IHl. }
  by apply Hgen.
Qed.

Lemma sweeps_settled now k e :
  List.filter (elapsed now) (expirations e) = [] ->
  let e' := Nat.iter k (checkExpirations now) e in
  expirations e' = expirations e
  /\ emitted (effects e') = emitted (effects e)
  /\ listeners e' = listeners e.
Proof.
  intros Hnone. cbv zeta. induction k as [|k IH]; simpl; [done|].
  destruct IH as (IH1 & IH2 & IH3).
  destruct (sweep_settled now (Nat.iter k (checkExpirations now) e))
    as (-> & -> & ->); [by rewrite IH1|done].
Qed.

Lemma nothing_elapsed_after_filter now (m : JsMap.t string Expiration) :
  List.filter (elapsed now) (List.filter (fun kv => negb (elapsed now kv)) m)
  = [].
Proof.
  induction m as [|kv m IH]; simpl; [done|].
  destruct (bool_decide _) eqn:Hb; simpl; [done|]. by rewrite Hb.
Qed.

(** X17. A heartbeat pulse on an expirer with at least one registered
    listener: however many listeners sweep, the index is left with the
    entries whose expiry is still ahead, in their order, and one expired
    event is emitted for each entry that has run out, in the order of the
    index, carrying its key and its expiration.  No entry that is left has
    run out, and a second pulse at the same time changes neither the index
    nor the events. *)
Theorem pulse_expires_each_elapsed_entry_once now e
    (Hwf : JsMap.wf (expirations e))
    (Hlisten : (0 < listeners e)%nat) :
  let e' := pulse now e in
  expirations e'
  = List.filter (fun kv => negb (elapsed now kv)) (expirations e)
  /\ emitted (effects e')
     = emitted (effects e)
       ++ ((fun kv => event EVENTS.expired kv.1 kv.2)
           <$> List.filter (elapsed now) (expirations e))
  /\ (forall topic expiration,
        JsMap.get topic (expirations e') = Some expiration ->
        0 < toMiliseconds (expiry expiration) - now)
  /\ expirations (pulse now e') = expirations e'
  /\ emitted (effects (pulse now e')) = emitted (effects e').
Proof.
  cbv zeta. unfold Expirer.pulse.
  destruct (listeners e) as [|k] eqn:Hk; [lia|]. clear Hlisten.
  rewrite Nat.iter_succ_r.
  destruct (sweep_full now e Hwf) as (Hm & Hem & Hl). cbv zeta in Hm, Hem, Hl.
  assert (Hnone : List.filter (elapsed now)
                    (expirations (checkExpirations now e)) = []).
  { rewrite Hm. apply nothing_elapsed_after_filter. }
  destruct (sweeps_settled now k _ Hnone) as (Hm' & Hem' & Hl').
  cbv zeta in Hm', Hem', Hl'.
  set (e' := Nat.iter k (checkExpirations now) (checkExpirations now e)) in *.
  assert (Hnone' : List.filter (elapsed now) (expirations e') = [])
    by by rewrite Hm'.
  destruct (sweeps_settled now (listeners e') _ Hnone') as (Hm2 & Hem2 & _).
  cbv zeta in Hm2, Hem2.
  rewrite Hm2, Hem2, Hm', Hem', Hm, Hem.
  split; [done|]. split; [done|]. split; [|done].
  intros topic expiration Hg. apply JsMapFacts.get_Some_elem in Hg.
  apply list_elem_of_In, filter_In in Hg as [_ Hg]. simpl in Hg.
  apply negb_true_iff, bool_decide_eq_false in Hg. lia.
Qed.

(** [init] puts the staged entries into the index one by one. *)
Lemma stage_index l m c i n tr :
  fold_left
    (fun e x => set_expirations (JsMap.set (topic x) x (expirations e)) e)
    l {| expirations := m; cached := c; initialized := i; listeners := n;
         effects := tr |}
  = {| expirations := fold_left (fun m x => JsMap.set (topic x) x m) l m;
       cached := c; initialized := i; listeners := n; effects := tr |}.
Proof. revert m. induction l as [|x l IH]; intros m; simpl; [done|]. apply IH. Qed.

Lemma init_resume_index m c i n tr :
  init_resume {| expirations := m; cached := c; initialized := i;
                 listeners := n; effects := tr |}
  = {| expirations := fold_left (fun m x => JsMap.set (topic x) x m) c m;
       cached := []; initialized := true; listeners := S n; effects := tr |}.
Proof. unfold Expirer.init_resume. simpl. by rewrite stage_index. Qed.

Lemma init_fresh backlog n tr :
  init (Fulfilled (Some backlog))
    {| expirations := []; cached := []; initialized := false;
       listeners := n; effects := tr |}
  = {| expirations :=
         fold_left (fun m x => JsMap.set (topic x) x m) backlog [];
       cached := []; initialized := true; listeners := S n;
       effects :=
         (tr ++ [Log Trace (Text "Initialized")])
           ++ [Invoke (getItem storageKey)]
           ++ match backlog with
              | [] => []
              | _ =>
                  [Log Debug
                     (Text ("Successfully Restored expirations for "
                            +:+ EXPIRER_CONTEXT));
                   Log Trace (Entry "method" "restore")]
              end |}.
Proof.
  unfold Expirer.init, Expirer.init_begin, Expirer.restore, Expirer.length.
  cbv beta iota zeta delta
    [initialized negb Expirer.log Expirer.effect expirations cached
     listeners effects].
  destruct backlog as [|x l].
  - rewrite bool_decide_eq_true_2 by done. by rewrite init_resume_index.
  - rewrite bool_decide_eq_false_2 by done.
    rewrite (bool_decide_eq_true_2 (JsMap.size [] = 0%nat)) by done.
    cbv beta iota zeta delta
      [negb Expirer.set_cached Expirer.log Expirer.effect expirations cached
       initialized listeners effects].
    rewrite init_resume_index. f_equal. by rewrite <- !app_assoc.
Qed.

(** X18. [init] on an expirer that is not initialized and holds nothing,
    with the storage answering a list of expirations: each one is stored
    under its own [topic] field, so that a topic ends with the last
    expiration of the list that names it, whether its expiry is ahead or
    has run out; no event is emitted and nothing is written; one more
    listener is registered, and the expirer is initialized. *)
Theorem init_restores_by_expiration_topic backlog e
    (Hfresh : initialized e = false)
    (Hempty : expirations e = [])
    (Hcached : cached e = []) :
  let e' := init (Fulfilled (Some backlog)) e in
  (forall k,
     JsMap.get k (expirations e')
     = last (List.filter (fun x => bool_decide (topic x = k)) backlog))
  /\ initialized e' = true
  /\ listeners e' = S (listeners e)
  /\ cached e' = []
  /\ emitted (effects e') = emitted (effects e)
  /\ invoked (effects e') = invoked (effects e) ++ [getItem storageKey].
Proof.
  destruct e as [m c i n tr]. simpl in Hfresh, Hempty, Hcached. subst m c i.
  cbv zeta. rewrite init_fresh. cbn [expirations initialized listeners cached
                                     effects].
  split.
  { intros k. rewrite (JsMapIndexFacts.get_fold_set topic).
    by destruct (last _). }
  split; [done|]. split; [done|]. split; [done|].
  rewrite !emitted_app, !invoked_app.
  destruct backlog; simpl; by rewrite ?app_nil_r.
Qed.

(** X19. The index of an expirer comes back from the values it writes to
    the storage when no topic is in it twice and every entry sits under
    the [topic] field of its expiration: [init] on a new expirer, with the
    storage answering [values], ends initialized with the same index in
    the same order, one listener and no event. *)
Theorem expirer_restore_round_trip e
    (Hwf : JsMap.wf (expirations e))
    (Hkeyed : forall k x, (k, x) ∈ expirations e -> topic x = k) :
  let e' := init (Fulfilled (Some (values e))) create in
  expirations e' = expirations e
  /\ initialized e' = true
  /\ listeners e' = 1%nat
  /\ emitted (effects e') = [].
Proof.
  cbv zeta. unfold Expirer.create. rewrite init_fresh.
  cbn [expirations initialized listeners cached effects].
  split.
  { unfold Expirer.values.
    by rewrite (JsMapIndexFacts.rebuild topic [] (expirations e)). }
  split; [done|]. split; [done|].
  rewrite !emitted_app. by destruct (values e).
Qed.

(** X20. [set] takes the topic and the expiration apart from each other
    and stores under the topic it is given; [init] stores under the
    [topic] field of the expiration.  So an entry set with an expiry that
    is ahead, under a topic other than the one its expiration names, is
    found by [get] under the topic it was set with, and after the values
    are restored into a new expirer it is found under the topic that the
    expiration names and no longer under the one it was set with. *)
Theorem restore_moves_entry_to_its_own_topic now key expiration e
    (Hinit : initialized e = true)
    (Hnone : expirations e = [])
    (Hfuture : 0 < toMiliseconds (expiry expiration) - now)
    (Hother : topic expiration <> key) :
  let e1 := (set now key expiration e).1 in
  let e2 := init (Fulfilled (Some (values e1))) create in
  get key e1 = inr expiration
  /\ values e1 = [expiration]
  /\ get (topic expiration) e2 = inr expiration
  /\ get key e2
     = inl (ERROR NO_MATCHING_ID
              [("context", VStr EXPIRER_CONTEXT); ("topic", VStr key)]).
Proof.
  cbv zeta.
  assert (Hm : expirations (set now key expiration e).1 = [(key, expiration)]
               /\ initialized (set now key expiration e).1 = true).
  { unfold Expirer.set, Expirer.isInitialized. rewrite Hinit. cbn [negb fst].
    unfold Expirer.checkExpiry. rewrite bool_decide_eq_false_2 by lia.
    match goal with
    | |- context [Expirer.emit _ _ _ _ ?n ?p ?x] =>
        destruct (emit_fields n p x) as (-> & _ & -> & _)
    end.
    destruct e as [m c i l tr]. simpl in *. by subst m. }
  destruct Hm as [Hm Hi].
  unfold Expirer.values. rewrite Hm. unfold Expirer.create.
  rewrite init_fresh.
  unfold Expirer.get, Expirer.isInitialized, Expirer.getExpiration.
  rewrite Hm, Hi. cbn. rewrite !decide_True by done.
  by rewrite decide_False by done.
Qed.

(** X21. The guard of [init] looks at [initialized], which [init] sets
    only at its end.  A second [init] made after the first has finished
    does nothing.  A second [init] made while the first waits for the
    storage gets past the guard as well; when both have finished the
    listeners are registered twice, so that a later [set] writes the
    storage twice as often as after a single [init]. *)
Theorem init_guards_only_once_finished persisted1 persisted2 now topic
    expiration e
    (Hfresh : initialized e = false)
    (Hfuture : 0 < toMiliseconds (expiry expiration) - now) :
  init persisted2 (init persisted1 e) = init persisted1 e
  /\ let '(e1, entered1) := init_begin e in
     let '(e2, entered2) := init_begin e1 in
     let both := init_resume (restore persisted2
                   (init_resume (restore persisted1 e2))) in
     let once := init persisted1 e in
     entered1 = true /\ entered2 = true
     /\ initialized both = true
     /\ listeners once = S (listeners e)
     /\ listeners both = S (S (listeners e))
     /\ List.length (invoked (effects (set now topic expiration both).1))
        = (List.length (invoked (effects both)) + S (S (listeners e)))%nat
     /\ List.length (invoked (effects (set now topic expiration once).1))
        = (List.length (invoked (effects once)) + S (listeners e))%nat.
Proof.
  assert (Hrestore : forall persisted x,
            listeners (restore persisted x) = listeners x
            /\ initialized (restore persisted x) = initialized x).
  { intros persisted x. unfold Expirer.restore.
    destruct persisted as [[backlog|]|err]; [|done|by destruct x].
    destruct (bool_decide _); [done|]. destruct (negb _); by destruct x. }
  assert (Hresume : forall x,
            listeners (init_resume x) = S (listeners x)
            /\ initialized (init_resume x) = true).
  { intros [m c i n tr]. by rewrite init_resume_index. }
  assert (Hset : forall x,
            initialized x = true ->
            List.length (invoked (effects (set now topic expiration x).1))
            = (List.length (invoked (effects x)) + listeners x)%nat).
  { intros x Hx. unfold Expirer.set, Expirer.isInitialized. rewrite Hx.
    cbn [negb fst]. unfold Expirer.checkExpiry.
    rewrite bool_decide_eq_false_2 by lia. rewrite emit_invoked.
    destruct x as [m c i n tr]. simpl.
    by rewrite length_app, length_replicate. }
  split.
  - unfold Expirer.init at 1, Expirer.init_begin at 1.
    assert (Hdone : initialized (init persisted1 e) = true).
    { unfold Expirer.init, Expirer.init_begin. rewrite Hfresh. cbn [negb].
      apply Hresume. }
    by rewrite Hdone.
  - unfold Expirer.init, Expirer.init_begin. rewrite Hfresh. cbn [negb].
    set (e1 := Expirer.effect (Invoke (getItem storageKey))
                 (Expirer.log Trace (Text "Initialized") e)).
    assert (Hf1 : initialized e1 = false) by by destruct e.
    assert (H1 : listeners e1 = listeners e) by by destruct e.
    rewrite Hf1. cbn [negb].
    set (e2 := Expirer.effect (Invoke (getItem storageKey))
                 (Expirer.log Trace (Text "Initialized") e1)).
    assert (H2 : listeners e2 = listeners e1) by by destruct e1.
    rewrite H1 in H2.
    split; [done|]. split; [done|].
    split; [apply Hresume|].
    destruct (Hresume (restore persisted1 e1)) as [Hl1 Hi1].
    destruct (Hrestore persisted1 e1) as [Hr1 _].
    destruct (Hresume (restore persisted2
                         (init_resume (restore persisted1 e2))))
      as [Hl2 Hi2].
    destruct (Hrestore persisted2 (init_resume (restore persisted1 e2)))
      as [Hr2 _].
    destruct (Hresume (restore persisted1 e2)) as [Hl3 _].
    destruct (Hrestore persisted1 e2) as [Hr3 _].
    split; [by rewrite Hl1, Hr1, H1|].
    split; [by rewrite Hl2, Hr2, Hl3, Hr3, H2|].
    rewrite !Hset by done.
    by rewrite Hl2, Hr2, Hl3, Hr3, H2, Hl1, Hr1, H1.
Qed.
End Facts.
End ExpirerIndexFacts.
(** ** The theorems at work on sample values *)
Module Examples.
Import Sample.

(** C1: [publish("A", "hello")] has its request in flight when a heartbeat
    pulse sends the entry again and that request is fulfilled; then the
    request of [publish] is rejected.  The error is thrown and the entry
    is not in the queue. *)
Lemma failed_publish_after_acknowledged_retry :
  JsMap.keys (Publisher.queue publisher_hello) = [hashMessage "hello"]
  /\ match (publish_begin "A" "hello" None Publisher.create).2 with
     | inr pd =>
         let p2 := publisher_pulse (fun _ => Fulfilled VNull) publisher_hello in
         Publisher.queue p2 = []
         /\ (publish_settle pd (Rejected offline) p2).2 = inl offline
         /\ JsMap.get (hashMessage "hello")
              (Publisher.queue (publish_settle pd (Rejected offline) p2).1)
            = None
     | inl _ => False
     end.
Proof. by vm_compute. Qed.


(** C2 on the fresh history: a second [set] with id 7 under another topic
    leaves the record of the first. *)
Lemma set_first_write_wins_witness :
  History.isInitialized History.create = true
  /\ JsMap.get 7
       (History.records
          (history_set "B" (formatJsonRpcRequest "personal_sign" VNull 7) None
             history7).1)
     = Some record7.
Proof.
  split; [reflexivity|].
  pose proof (HistoryFacts.set_first_write_wins
                HISTORY_CONTEXT HISTORY_STORAGE_VERSION CLIENT_STORAGE_PREFIX
                HISTORY_EVENTS "A" request7 (Some "eip155:1")
                "B" (formatJsonRpcRequest "personal_sign" VNull 7) None
                History.create eq_refl eq_refl) as H.
  unfold history7, history_set. cbv zeta in H.
  destruct (History.set _ _ _ _ "B" _ _ _) as [h2 r].
  exact (proj1 (proj2 (proj2 (proj2 (proj2 H))))).
Defined.

(** C3 on [history7]: the result is stored as the response. *)
Lemma resolve_writes_once_witness :
  History.isInitialized history7 = true
  /\ History.response
     <$> JsMap.get 7
           (History.records
              (history_resolve (History.JsonRpcResult 7 (VStr "0xsig"))
                 history7).1)
     = Some (Some (History.result_of (VStr "0xsig"))).
Proof.
  split; [reflexivity|].
  pose proof (HistoryFacts.resolve_writes_once
                HISTORY_CONTEXT HISTORY_STORAGE_VERSION CLIENT_STORAGE_PREFIX
                HISTORY_EVENTS (History.JsonRpcResult 7 (VStr "0xsig"))
                history7 eq_refl) as H.
  unfold history_resolve.
  destruct (History.resolve _ _ _ _ _ _) as [h' r].
  destruct H as (_ & H & _). cbn in H. cbn [fst]. by rewrite H.
Defined.

(** C4 on [history7]: topic ["B"] is refused, topic ["A"] is served, id 8
    is unknown. *)
Lemma get_checks_id_then_topic_witness :
  History.isInitialized history7 = true
  /\ (history_get "B" 7 history7).2
     = Some (inl (ERROR MISMATCHED_TOPIC
                    [("context", VStr "history"); ("id", VNum (Int 7))]))
  /\ (history_get "A" 7 history7).2 = Some (inr (History.a_record record7))
  /\ (history_get "A" 8 history7).2
     = Some (inl (ERROR NO_MATCHING_ID
                    [("context", VStr "history"); ("id", VNum (Int 8))])).
Proof.
  split; [reflexivity|].
  pose proof (HistoryFacts.get_checks_id_then_topic
                HISTORY_CONTEXT HISTORY_STORAGE_VERSION CLIENT_STORAGE_PREFIX
                HISTORY_EVENTS "B" 7 history7 eq_refl) as HB.
  pose proof (HistoryFacts.get_checks_id_then_topic
                HISTORY_CONTEXT HISTORY_STORAGE_VERSION CLIENT_STORAGE_PREFIX
                HISTORY_EVENTS "A" 7 history7 eq_refl) as HA.
  pose proof (HistoryFacts.get_checks_id_then_topic
                HISTORY_CONTEXT HISTORY_STORAGE_VERSION CLIENT_STORAGE_PREFIX
                HISTORY_EVENTS "A" 8 history7 eq_refl) as HN.
  unfold history_get.
  destruct (History.get _ _ _ _ "B" 7 _) as [hB rB].
  destruct (History.get _ _ _ _ "A" 7 _) as [hA rA].
  destruct (History.get _ _ _ _ "A" 8 _) as [hN rN].
  destruct HB as (_ & _ & HB & _), HA as (_ & _ & HA & _),
    HN as (_ & _ & HN & _).
  split; [exact HB|]. split; [exact HA|exact HN].
Defined.

(** C8 on [expirer0]: the stale entry is gone after [set], which emitted
    expired and created. *)
Lemma eager_expiry_matches_sweep_witness :
  Expirer.initialized expirer0 = true
  /\ toMiliseconds (Expirer.expiry stale) - now <= 0
  /\ Expirer.expirations (expirer_set now "A" stale expirer0).1 = []
  /\ emitted (Expirer.effects (expirer_set now "A" stale expirer0).1)
     = [{| Expirer.event_name := Expirer.EVENTS.expired;
           Expirer.event_payload :=
             Some {| Expirer.payload_topic := "A";
                     Expirer.payload_expiration := stale |} |};
        {| Expirer.event_name := Expirer.EVENTS.created;
           Expirer.event_payload :=
             Some {| Expirer.payload_topic := "A";
                     Expirer.payload_expiration := stale |} |}].
Proof.
  assert (Hpast : toMiliseconds (Expirer.expiry stale) - now <= 0)
    by (vm_compute; discriminate).
  split; [reflexivity|]. split; [exact Hpast|].
  pose proof (ExpirerFacts.eager_expiry_matches_sweep
                EXPIRER_CONTEXT EXPIRER_STORAGE_VERSION CLIENT_STORAGE_PREFIX
                EXPIRER_EVENTS toMiliseconds now "A" stale expirer0
                eq_refl Hpast) as [H _].
  unfold expirer_set.
  destruct (Expirer.set _ _ _ _ _ _ _ _ _) as [e1 r].
  destruct H as (_ & _ & H1 & H2). split; [exact H1|exact H2].
Defined.

(** C6 on [history7] and on an expirer that holds one entry: the backlogs
    are not merged. *)
Lemma restore_refused_witness :
  History.records history7 <> []
  /\ Expirer.expirations (expirer_set now "B" fresh expirer0).1 <> []
  /\ History.records (history_init (Fulfilled (Some [record7])) history7).1
     = History.records history7
  /\ Expirer.expirations
       (Expirer.init_resume
          (expirer_restore (Fulfilled (Some [stale]))
             (expirer_set now "B" fresh expirer0).1))
     = [("B", fresh)].
Proof.
  assert (Hh : History.records history7 <> []) by (vm_compute; discriminate).
  assert (He : Expirer.expirations (expirer_set now "B" fresh expirer0).1 <> [])
    by (vm_compute; discriminate).
  split; [exact Hh|]. split; [exact He|].
  pose proof (ReadinessFacts.restore_refused_when_index_not_empty
                HISTORY_CONTEXT HISTORY_STORAGE_VERSION CLIENT_STORAGE_PREFIX
                HISTORY_EVENTS EXPIRER_CONTEXT EXPIRER_STORAGE_VERSION
                CLIENT_STORAGE_PREFIX [record7] [stale] history7
                (expirer_set now "B" fresh expirer0).1
                ltac:(discriminate) Hh eq_refl eq_refl
                ltac:(discriminate) He eq_refl) as (H1 & H2 & _).
  unfold history_init, expirer_restore. cbv zeta in H2.
  destruct (History.init _ _ _ _ _ _) as [h' released].
  destruct H1 as (_ & H1 & _), H2 as (_ & _ & _ & _ & _ & H2 & _).
  split; [exact H1|exact H2].
Defined.

(** C10 on the fresh publisher: a ttl of [0] is sent as [21600]. *)
Lemma publish_falsy_ttl_witness :
  let opts := Some {| Publisher.relay := None; Publisher.ttl := Some (Int 0);
                      Publisher.prompt := Some true |} in
  from_option number_truthy false (opts ≫= Publisher.ttl) = false
  /\ match publish_begin "A" "hello" opts Publisher.create with
     | (p1, started) =>
         Publisher.opts_ttl ∘ Publisher.opts
         <$> JsMap.get (hashMessage "hello") (Publisher.queue p1)
         = Some (Int 21600)
         /\ match started with
            | inl _ => True
            | inr pd =>
                Publisher.params (Publisher.request pd) !! "ttl"
                = Some (VNum (Int 21600))
                /\ Publisher.opts_ttl (Publisher.opts (Publisher.queued pd))
                   = Int 21600
            end
     end.
Proof.
  split; [reflexivity|].
  exact (proj1 (PublisherFacts.publish_falsy_ttl_takes_default
                  PUBLISHER_DEFAULT_TTL hashMessage getRelayProtocolName
                  getRelayProtocolApi "A" "hello"
                  (Some {| Publisher.relay := None;
                           Publisher.ttl := Some (Int 0);
                           Publisher.prompt := Some true |})
                  Publisher.create eq_refl)).
Defined.

(** X1 on [publisher_hello]: a rejected request leaves the entry, a
    fulfilled one removes it. *)
Lemma pulse_keeps_what_was_not_acknowledged_witness :
  Publisher.queue (publisher_pulse (fun _ => Rejected offline) publisher_hello)
  = Publisher.queue publisher_hello
  /\ Publisher.queue
       (publisher_pulse (fun _ => Fulfilled VNull) publisher_hello)
     = [].
Proof.
  assert (Hreach : Publisher.Reachable PUBLISHER_DEFAULT_TTL hashMessage
                     getRelayProtocolName getRelayProtocolApi publisher_hello)
    by apply Publisher.reach_publish_begin, Publisher.reach_create.
  unfold publisher_pulse. split.
  - by rewrite (PublisherRetryFacts.pulse_keeps_what_was_not_acknowledged
                  PUBLISHER_DEFAULT_TTL hashMessage getRelayProtocolName
                  getRelayProtocolApi (fun _ => Rejected offline)
                  publisher_hello Hreach).
  - by rewrite (PublisherRetryFacts.pulse_keeps_what_was_not_acknowledged
                  PUBLISHER_DEFAULT_TTL hashMessage getRelayProtocolName
                  getRelayProtocolApi (fun _ => Fulfilled VNull)
                  publisher_hello Hreach).
Defined.

(** X2 on [publisher_hello]: three rejected pulses, then a fulfilled one. *)
Lemma retry_until_acknowledged_witness :
  JsMap.get (hashMessage "hello") (Publisher.queue publisher_hello)
  = Some (Publisher.entry_of PUBLISHER_DEFAULT_TTL getRelayProtocolName
            "A" "hello" None)
  /\ Publisher.queue
       (Nat.iter 3 (publisher_pulse (fun _ => Rejected offline))
          publisher_hello)
     = Publisher.queue publisher_hello
  /\ JsMap.get (hashMessage "hello")
       (Publisher.queue
          (publisher_pulse (fun _ => Fulfilled VNull)
             (Nat.iter 3 (publisher_pulse (fun _ => Rejected offline))
                publisher_hello)))
     = None.
Proof.
  assert (Hreach : Publisher.Reachable PUBLISHER_DEFAULT_TTL hashMessage
                     getRelayProtocolName getRelayProtocolApi publisher_hello)
    by apply Publisher.reach_publish_begin, Publisher.reach_create.
  split; [reflexivity|].
  pose proof (PublisherRetryFacts.retry_until_acknowledged
                PUBLISHER_DEFAULT_TTL hashMessage getRelayProtocolName
                getRelayProtocolApi (hashMessage "hello") _ _
                publisher_hello Hreach eq_refl eq_refl 3%nat offline VNull)
    as (H1 & _ & H3).
  split; [exact H1|exact H3].
Defined.

(** X3 on [publisher_iridium]: the entry outlives a pulse with a
    fulfilling and one with a rejecting provider. *)
Lemma pulses_leave_unsupported_entry_queued_witness :
  getRelayProtocolApi "iridium"
  = inl (External (VStr "Relay Protocol not supported: iridium"))
  /\ JsMap.get (hashMessage "hello")
       (Publisher.queue
          (publisher_pulse (fun _ => Rejected offline)
             (publisher_pulse (fun _ => Fulfilled VNull) publisher_iridium)))
     = Some (Publisher.entry_of PUBLISHER_DEFAULT_TTL getRelayProtocolName
               "A" "hello" iridium).
Proof.
  assert (Hreach : Publisher.Reachable PUBLISHER_DEFAULT_TTL hashMessage
                     getRelayProtocolName getRelayProtocolApi
                     publisher_iridium)
    by apply Publisher.reach_publish_begin, Publisher.reach_create.
  split; [reflexivity|].
  exact (proj1 (PublisherRetryFacts.pulses_leave_unsupported_entry_queued
                  PUBLISHER_DEFAULT_TTL hashMessage getRelayProtocolName
                  getRelayProtocolApi (hashMessage "hello") _ _
                  publisher_iridium Hreach eq_refl eq_refl
                  [fun _ => Fulfilled VNull; fun _ => Rejected offline])).
Defined.

(** X6 on [history7]. *)
Lemma records_are_keyed_by_id_witness :
  JsMap.get 7 (History.records history7) = Some record7
  /\ History.id record7 = 7.
Proof.
  assert (Hreach : History.Reachable HISTORY_CONTEXT HISTORY_STORAGE_VERSION
                     CLIENT_STORAGE_PREFIX HISTORY_EVENTS history7)
    by exact (History.reach_call _ _ _ _
                (History.call_set "A" request7 (Some "eip155:1")) _
                (History.reach_create _ _ _ _)).
  split; [reflexivity|].
  exact (HistoryIndexFacts.records_are_keyed_by_id
           HISTORY_CONTEXT HISTORY_STORAGE_VERSION CLIENT_STORAGE_PREFIX
           HISTORY_EVENTS history7 7 record7 Hreach eq_refl).
Defined.

(** X7 on [history7]: the record of id 7 exists under topic ["A"] and not
    under topic ["B"]; an [exists] that has seen the id and goes on after
    the record was deleted fails. *)
Lemma exists_run_alone_agrees_with_get_witness :
  History.isInitialized history7 = true
  /\ history_exists "A" 7 history7
     = (history7, Some (inr (History.a_boolean true)))
  /\ history_exists "B" 7 history7
     = (history7, Some (inr (History.a_boolean false)))
  /\ History.exists_check 7 history7 = None
  /\ history_exists_lookup "A" 7 (history_delete "A" (Some 7) history7).1
     = inl (ERROR NO_MATCHING_ID
              [("context", VStr "history"); ("id", VNum (Int 7))]).
Proof.
  assert (Hreach : History.Reachable HISTORY_CONTEXT HISTORY_STORAGE_VERSION
                     CLIENT_STORAGE_PREFIX HISTORY_EVENTS history7)
    by exact (History.reach_call _ _ _ _
                (History.call_set "A" request7 (Some "eip155:1")) _
                (History.reach_create _ _ _ _)).
  split; [reflexivity|].
  pose proof (HistoryIndexFacts.exists_run_alone_agrees_with_get
                HISTORY_CONTEXT HISTORY_STORAGE_VERSION CLIENT_STORAGE_PREFIX
                HISTORY_EVENTS "A" 7 history7 Hreach eq_refl)
    as (HA & _ & _ & Hrace).
  pose proof (HistoryIndexFacts.exists_run_alone_agrees_with_get
                HISTORY_CONTEXT HISTORY_STORAGE_VERSION CLIENT_STORAGE_PREFIX
                HISTORY_EVENTS "B" 7 history7 Hreach eq_refl)
    as (HB & _).
  destruct (Hrace record7 eq_refl) as [Hcheck Hlate].
  unfold history_exists, history_exists_lookup, history_delete.
  destruct (History.exists_ _ _ _ _ "A" 7 _) as [hA rA].
  destruct (History.exists_ _ _ _ _ "B" 7 _) as [hB rB].
  destruct HA as [-> HA], HB as [-> HB]. cbn in HA, HB.
  destruct HA as [-> _]. rewrite HB. split; [done|]. split; [done|].
  split; [exact Hcheck|exact Hlate].
Defined.

(** X8 on [history7]: the request of id 8 goes behind the record of
    id 7. *)
Lemma set_appends_and_persists_witness :
  History.isInitialized history7 = true
  /\ JsMap.get 8 (History.records history7) = None
  /\ JsMap.keys (History.records (history_set "B" request8 None history7).1)
     = [7; 8]
  /\ History.event_topic
     <$> history_pending (history_set "B" request8 None history7).1
     = ["A"; "B"].
Proof.
  split; [reflexivity|]. split; [reflexivity|].
  pose proof (HistoryIndexFacts.set_appends_and_persists
                HISTORY_CONTEXT HISTORY_STORAGE_VERSION CLIENT_STORAGE_PREFIX
                HISTORY_EVENTS formatJsonRpcRequest "B" request8 None history7
                eq_refl eq_refl) as H.
  unfold history_set, history_pending. cbv zeta in H.
  destruct (History.set _ _ _ _ "B" _ _ _) as [h' r].
  destruct H as (_ & H1 & _ & _ & _ & H2). cbn [fst].
  by rewrite H1, H2.
Defined.

(** X9 on [history7]: once the request of id 7 is answered, nothing is
    pending. *)
Lemma resolve_replaces_in_place_witness :
  History.isInitialized history7 = true
  /\ JsMap.get 7 (History.records history7) = Some record7
  /\ History.response record7 = None
  /\ History.event_topic <$> history_pending history7 = ["A"]
  /\ history_pending
       (history_resolve (History.JsonRpcResult 7 (VStr "0xsig")) history7).1
     = [].
Proof.
  assert (Hreach : History.Reachable HISTORY_CONTEXT HISTORY_STORAGE_VERSION
                     CLIENT_STORAGE_PREFIX HISTORY_EVENTS history7)
    by exact (History.reach_call _ _ _ _
                (History.call_set "A" request7 (Some "eip155:1")) _
                (History.reach_create _ _ _ _)).
  split; [reflexivity|]. split; [reflexivity|]. split; [reflexivity|].
  split; [reflexivity|].
  pose proof (HistoryIndexFacts.resolve_replaces_in_place
                HISTORY_CONTEXT HISTORY_STORAGE_VERSION CLIENT_STORAGE_PREFIX
                HISTORY_EVENTS formatJsonRpcRequest
                (History.JsonRpcResult 7 (VStr "0xsig")) record7 history7
                Hreach eq_refl eq_refl eq_refl) as H.
  unfold history_resolve, history_pending. cbv zeta in H.
  destruct (History.resolve _ _ _ _ _ _) as [h' r].
  destruct H as (_ & _ & _ & _ & H). cbn [fst]. by rewrite H.
Defined.

(** X10 on [history7]: deleting topic ["A"] empties the index, deleting
    topic ["B"] leaves it. *)
Lemma delete_takes_matching_records_witness :
  History.isInitialized history7 = true
  /\ History.records (history_delete "A" None history7).1 = []
  /\ History.records (history_delete "B" None history7).1
     = History.records history7
  /\ History.records (history_delete "A" (Some 8) history7).1
     = History.records history7.
Proof.
  assert (Hreach : History.Reachable HISTORY_CONTEXT HISTORY_STORAGE_VERSION
                     CLIENT_STORAGE_PREFIX HISTORY_EVENTS history7)
    by exact (History.reach_call _ _ _ _
                (History.call_set "A" request7 (Some "eip155:1")) _
                (History.reach_create _ _ _ _)).
  split; [reflexivity|].
  pose proof (HistoryIndexFacts.delete_takes_matching_records
                HISTORY_CONTEXT HISTORY_STORAGE_VERSION CLIENT_STORAGE_PREFIX
                HISTORY_EVENTS "A" None history7 Hreach eq_refl) as HA.
  pose proof (HistoryIndexFacts.delete_takes_matching_records
                HISTORY_CONTEXT HISTORY_STORAGE_VERSION CLIENT_STORAGE_PREFIX
                HISTORY_EVENTS "B" None history7 Hreach eq_refl) as HB.
  pose proof (HistoryIndexFacts.delete_takes_matching_records
                HISTORY_CONTEXT HISTORY_STORAGE_VERSION CLIENT_STORAGE_PREFIX
                HISTORY_EVENTS "A" (Some 8) history7 Hreach eq_refl) as H8.
  unfold history_delete.
  destruct (History.delete _ _ _ _ "A" None _) as [hA rA].
  destruct (History.delete _ _ _ _ "B" None _) as [hB rB].
  destruct (History.delete _ _ _ _ "A" (Some 8) _) as [h8 r8].
  destruct HA as (_ & HA & _), HB as (_ & HB & _), H8 as (_ & H8 & _).
  cbn [fst]. by rewrite HA, HB, H8.
Defined.

(** X11 on [history7]: a new history restored from its values holds the
    record of id 7 again. *)
Lemma restore_round_trip_witness :
  History.records
    (history_init (Fulfilled (Some (History.values history7)))
       History.create).1
  = History.records history7.
Proof.
  assert (Hreach : History.Reachable HISTORY_CONTEXT HISTORY_STORAGE_VERSION
                     CLIENT_STORAGE_PREFIX HISTORY_EVENTS history7)
    by exact (History.reach_call _ _ _ _
                (History.call_set "A" request7 (Some "eip155:1")) _
                (History.reach_create _ _ _ _)).
  pose proof (HistoryIndexFacts.restore_round_trip
                HISTORY_CONTEXT HISTORY_STORAGE_VERSION CLIENT_STORAGE_PREFIX
                HISTORY_EVENTS formatJsonRpcRequest history7 Hreach) as H.
  unfold history_init.
  destruct (History.init _ _ _ _ _ _) as [h' released].
  exact (proj1 (proj2 H)).
Defined.

(** X12 on [history7]: a storage that cannot be read leaves the index and
    logs the failure. *)
Lemma init_without_backlog_witness :
  History.isInitialized history7 = true
  /\ History.records (history_init (Rejected offline) history7).1
     = History.records history7
  /\ logged Err (History.effects (history_init (Rejected offline) history7).1)
     = [Caught offline].
Proof.
  assert (Hreach : History.Reachable HISTORY_CONTEXT HISTORY_STORAGE_VERSION
                     CLIENT_STORAGE_PREFIX HISTORY_EVENTS history7)
    by exact (History.reach_call _ _ _ _
                (History.call_set "A" request7 (Some "eip155:1")) _
                (History.reach_create _ _ _ _)).
  split; [reflexivity|].
  pose proof (HistoryIndexFacts.init_without_backlog
                HISTORY_CONTEXT HISTORY_STORAGE_VERSION CLIENT_STORAGE_PREFIX
                HISTORY_EVENTS (Rejected offline) history7 Hreach eq_refl I)
    as H.
  unfold history_init.
  destruct (History.init _ _ _ _ _ _) as [h' released].
  destruct H as (_ & H1 & _ & _ & _ & H2). cbn [fst]. by rewrite H1, H2.
Defined.

(** X13 on the new history: a [get] for id 7 made while [record7] is
    staged is answered with it once [init] goes on. *)
Lemma get_during_init_witness :
  (history_get "A" 7 (history_staged [record7] History.create)).2 = None
  /\ (history_initialize_resume
        (history_get "A" 7 (history_staged [record7] History.create)).1).2
     = [(History.call_get "A" 7, inr (History.a_record record7))].
Proof.
  pose proof (HistoryIndexFacts.get_during_init_is_answered_from_the_backlog
                HISTORY_CONTEXT HISTORY_STORAGE_VERSION CLIENT_STORAGE_PREFIX
                HISTORY_EVENTS "A" 7 [record7] History.create
                (History.reach_create _ _ _ _) eq_refl eq_refl
                ltac:(discriminate)) as H.
  unfold history_get, history_staged, history_initialize_resume.
  cbv zeta in H.
  destruct (History.get _ _ _ _ _ _ _) as [parked r].
  destruct H as (H1 & _ & _ & H). cbn [fst snd]. split; [exact H1|].
  destruct (History.initialize_resume _ _ _ _ _) as [h' released].
  exact (proj1 H).
Defined.

(** X14 on [expirer0]: [fresh] is stored under ["B"] and written once. *)
Lemma set_stores_and_writes_through_witness :
  Expirer.initialized expirer0 = true
  /\ 0 < toMiliseconds (Expirer.expiry fresh) - now
  /\ expirer_get "B" (expirer_set now "B" fresh expirer0).1 = inr fresh
  /\ invoked (Expirer.effects (expirer_set now "B" fresh expirer0).1)
     = [Expirer.getItem expirer_storageKey;
        Expirer.setItem expirer_storageKey [fresh]].
Proof.
  assert (Hfuture : 0 < toMiliseconds (Expirer.expiry fresh) - now)
    by reflexivity.
  split; [reflexivity|]. split; [exact Hfuture|].
  pose proof (ExpirerIndexFacts.set_stores_and_writes_through
                EXPIRER_CONTEXT EXPIRER_STORAGE_VERSION CLIENT_STORAGE_PREFIX
                EXPIRER_EVENTS toMiliseconds now "B" fresh expirer0
                eq_refl Hfuture) as H.
  unfold expirer_set, expirer_get.
  destruct (Expirer.set _ _ _ _ _ _ _ _ _) as [e' r].
  destruct H as (_ & Hm & Hg & _ & _ & Hi). cbn [fst].
  split; [exact Hg|]. unfold Expirer.values in Hi. by rewrite Hi, Hm.
Defined.

(** X15 on [expirer_AB]: [del] of ["B"] reports [fresh], [del] of ["C"]
    does nothing, and of two [del]s of ["B"] that both saw the entry the
    second fails. *)
Lemma del_run_alone_removes_and_reports_witness :
  Expirer.initialized expirer_AB = true
  /\ Expirer.expirations (expirer_del "B" expirer_AB).1 = [("A", stale)]
  /\ expirer_has "B" (expirer_del "B" expirer_AB).1 = false
  /\ expirer_del "C" expirer_AB = (expirer_AB, inr tt)
  /\ expirer_has "B" expirer_AB = true
  /\ (expirer_del_resume true "B" expirer_AB).2 = inr tt
  /\ (expirer_del_resume true "B"
        (expirer_del_resume true "B" expirer_AB).1).2
     = inl (ERROR NO_MATCHING_ID
              [("context", VStr "expirer"); ("topic", VStr "B")]).
Proof.
  split; [reflexivity|].
  pose proof (ExpirerIndexFacts.del_run_alone_removes_and_reports
                EXPIRER_CONTEXT EXPIRER_STORAGE_VERSION CLIENT_STORAGE_PREFIX
                EXPIRER_EVENTS "B" expirer_AB eq_refl)
    as (HB & _ & _ & Hrace).
  pose proof (ExpirerIndexFacts.del_run_alone_removes_and_reports
                EXPIRER_CONTEXT EXPIRER_STORAGE_VERSION CLIENT_STORAGE_PREFIX
                EXPIRER_EVENTS "C" expirer_AB eq_refl) as (HC & _).
  destruct (Hrace eq_refl) as [Hfirst Hsecond].
  unfold expirer_del, expirer_has, expirer_del_resume.
  destruct (Expirer.del _ _ _ _ "B" _) as [eB rB].
  destruct (Expirer.del _ _ _ _ "C" _) as [eC rC].
  destruct HB as (_ & HB2 & _ & HB), HC as (-> & _ & _ & HC).
  cbn in HB, HC. destruct HB as (HB & _). cbn [fst].
  rewrite HB, HB2, HC, Hfirst, Hsecond. by repeat split.
Defined.

(** X17 on [expirer_AB]: the pulse at [now] takes [stale] and leaves
    [fresh]. *)
Lemma pulse_expires_each_elapsed_entry_once_witness :
  JsMap.wf (Expirer.expirations expirer_AB)
  /\ (0 < Expirer.listeners expirer_AB)%nat
  /\ Expirer.expirations (expirer_pulse now expirer_AB) = [("B", fresh)]
  /\ emitted (Expirer.effects (expirer_pulse now expirer_AB))
     = emitted (Expirer.effects expirer_AB)
       ++ [{| Expirer.event_name := Expirer.EVENTS.expired;
              Expirer.event_payload :=
                Some {| Expirer.payload_topic := "A";
                        Expirer.payload_expiration := stale |} |}].
Proof.
  assert (Hwf : JsMap.wf (Expirer.expirations expirer_AB)).
  { change (NoDup ["A"; "B"]). apply (bool_decide_unpack _). by vm_compute. }
  assert (Hlisten : (0 < Expirer.listeners expirer_AB)%nat)
    by (vm_compute; lia).
  split; [exact Hwf|]. split; [exact Hlisten|].
  pose proof (ExpirerIndexFacts.pulse_expires_each_elapsed_entry_once
                EXPIRER_CONTEXT EXPIRER_STORAGE_VERSION CLIENT_STORAGE_PREFIX
                EXPIRER_EVENTS toMiliseconds now expirer_AB Hwf Hlisten)
    as (H1 & H2 & _).
  unfold expirer_pulse. by rewrite H1, H2.
Defined.

(** X18 on the new expirer: [stale] is restored although it has run out,
    and no event tells of it. *)
Lemma init_restores_by_expiration_topic_witness :
  JsMap.get "A"
    (Expirer.expirations
       (expirer_init (Fulfilled (Some [stale; fresh])) Expirer.create))
  = Some stale
  /\ emitted
       (Expirer.effects
          (expirer_init (Fulfilled (Some [stale; fresh])) Expirer.create))
     = [].
Proof.
  pose proof (ExpirerIndexFacts.init_restores_by_expiration_topic
                EXPIRER_CONTEXT EXPIRER_STORAGE_VERSION CLIENT_STORAGE_PREFIX
                [stale; fresh] Expirer.create eq_refl eq_refl eq_refl)
    as (H1 & _ & _ & _ & H2 & _).
  unfold expirer_init. by rewrite H1, H2.
Defined.

(** X19 on [expirer_AB]. *)
Lemma expirer_restore_round_trip_witness :
  JsMap.wf (Expirer.expirations expirer_AB)
  /\ Expirer.expirations
       (expirer_init (Fulfilled (Some (Expirer.values expirer_AB)))
          Expirer.create)
     = [("A", stale); ("B", fresh)].
Proof.
  assert (Hwf : JsMap.wf (Expirer.expirations expirer_AB)).
  { change (NoDup ["A"; "B"]). apply (bool_decide_unpack _). by vm_compute. }
  assert (Hm : Expirer.expirations expirer_AB = [("A", stale); ("B", fresh)])
    by reflexivity.
  assert (Hkeyed : forall k x,
            (k, x) ∈ Expirer.expirations expirer_AB -> Expirer.topic x = k).
  { intros k x Hin. rewrite Hm in Hin.
    apply list_elem_of_In in Hin. simpl in Hin.
    by destruct Hin as [[= <- <-]|[[= <- <-]|[]]]. }
  split; [exact Hwf|].
  pose proof (ExpirerIndexFacts.expirer_restore_round_trip
                EXPIRER_CONTEXT EXPIRER_STORAGE_VERSION CLIENT_STORAGE_PREFIX
                expirer_AB Hwf Hkeyed) as (H & _).
  unfold expirer_init. by rewrite H.
Defined.

(** X20 on [expirer0]: [fresh], which names topic ["B"], set under
    topic ["C"]. *)
Lemma restore_moves_entry_to_its_own_topic_witness :
  Expirer.initialized expirer0 = true
  /\ Expirer.expirations expirer0 = []
  /\ 0 < toMiliseconds (Expirer.expiry fresh) - now
  /\ Expirer.topic fresh <> "C"
  /\ expirer_get "C" (expirer_set now "C" fresh expirer0).1 = inr fresh
  /\ expirer_get "C"
       (expirer_init
          (Fulfilled
             (Some (Expirer.values (expirer_set now "C" fresh expirer0).1)))
          Expirer.create)
     = inl (ERROR NO_MATCHING_ID
              [("context", VStr "expirer"); ("topic", VStr "C")])
  /\ expirer_get "B"
       (expirer_init
          (Fulfilled
             (Some (Expirer.values (expirer_set now "C" fresh expirer0).1)))
          Expirer.create)
     = inr fresh.
Proof.
  assert (Hfuture : 0 < toMiliseconds (Expirer.expiry fresh) - now)
    by reflexivity.
  assert (Hother : Expirer.topic fresh <> "C") by discriminate.
  split; [reflexivity|]. split; [reflexivity|]. split; [exact Hfuture|].
  split; [exact Hother|].
  pose proof (ExpirerIndexFacts.restore_moves_entry_to_its_own_topic
                EXPIRER_CONTEXT EXPIRER_STORAGE_VERSION CLIENT_STORAGE_PREFIX
                EXPIRER_EVENTS toMiliseconds now "C" fresh expirer0
                eq_refl eq_refl Hfuture Hother) as (H1 & _ & H3 & H4).
  split; [exact H1|]. split; [exact H4|exact H3].
Defined.

(** X21 on the new expirer: two overlapping [init]s register the
    listeners twice. *)
Lemma init_guards_only_once_finished_witness :
  Expirer.initialized Expirer.create = false
  /\ 0 < toMiliseconds (Expirer.expiry fresh) - now
  /\ expirer_init (Fulfilled None) expirer0 = expirer0
  /\ Expirer.listeners
       (Expirer.init_resume
          (expirer_restore (Fulfilled None)
             (Expirer.init_resume
                (expirer_restore (Fulfilled None)
                   (expirer_init_begin
                      (expirer_init_begin Expirer.create).1).1))))
     = 2%nat.
Proof.
  assert (Hfuture : 0 < toMiliseconds (Expirer.expiry fresh) - now)
    by reflexivity.
  split; [reflexivity|]. split; [exact Hfuture|].
  pose proof (ExpirerIndexFacts.init_guards_only_once_finished
                EXPIRER_CONTEXT EXPIRER_STORAGE_VERSION CLIENT_STORAGE_PREFIX
                EXPIRER_EVENTS toMiliseconds (Fulfilled None) (Fulfilled None)
                now "B" fresh Expirer.create eq_refl Hfuture) as [H1 H2].
  split; [exact H1|].
  unfold expirer_init_begin, expirer_restore.
  destruct (Expirer.init_begin _ _ _ Expirer.create) as [e1 entered1].
  cbn [fst].
  destruct (Expirer.init_begin _ _ _ e1) as [e2 entered2].
  exact (proj1 (proj2 (proj2 (proj2 (proj2 H2))))).
Defined.
End Examples.
